(** * tokenAlert: the polling monitor of [monitor.py]

    A shallow embedding of the Ethereum transfer monitor: the amount
    formatter, the Etherscan query client, the Aave Supply event decoder,
    the incoming-transfer filter, the polling loop and the command line,
    with the properties its design document states about them and
    further properties of the code.

    Conventions of the embedding.
    - Python exceptions are explicit: a function that can raise returns a
      [result], and [try]/[except] is a match on the exception class.
    - Records returned by Etherscan are Python dicts whose fields are
      strings ([gmap string string]); the Seen Sets are [gset string], as
      the annotations [dict[str, set[str]]] and [set[str]] of [monitor]
      say.  A response body is a JSON object whose fields are strings,
      lists of records, or records.
    - Strings are byte strings; [str.lower], [str.strip], [int] and
      [Decimal] are modelled on ASCII characters.
    - [int(s)] follows CPython 3.11, with its default limit of 4300
      digits on a decimal literal; the limit does not apply to base 16.
    - [Decimal] follows the arithmetic of Python's [decimal] module in
      its default context (precision 28, ROUND_HALF_EVEN, Emax 999999,
      Emin -999999, traps InvalidOperation, DivisionByZero, Overflow).

    Limits of the embedding.
    - Field values of a record are strings, as Etherscan sends them and
      as the code's annotations say; JSON numbers, booleans and null in
      a record are outside the model.
    - [str(n)] is modelled without CPython's limit of 4300 digits: the
      code applies it to the amount of an event, which is below [16^64],
      and to constants.  [requests] applies it to the block cursor in the
      parameters of a log query; past the limit its [ValueError] is
      caught in [fetch_aave_supply_logs] as a parse error, which is the
      outcome [InvalidJson] of that query.
    - The line printed on a failed query is kept up to the endpoint tag;
      the text of the exception or of the API message is left out.
    - The network is an input: each round is given the outcome of each
      of its requests ([answers]), and [time.sleep] has no counterpart.
      A run of the loop is a finite prefix of [while True] ([rounds]). *)

From Stdlib Require Import ZArith Ascii String List Lia.
From stdpp Require Import base tactics option list gmap sets strings.

Open Scope Z_scope.

Set Warnings "-clear-no-such-hyp".
Set Default Proof Using "Type".

(** ** Exceptions and results *)

Inductive exn : Type :=
  | AttributeError
  | TypeError
  | ValueError
  | KeyError
  | InvalidOperation   (* decimal.InvalidOperation *)
  | DivisionByZero     (* decimal.DivisionByZero *)
  | Overflow           (* decimal.Overflow *)
  | RequestException.  (* requests.exceptions.RequestException *)

Inductive result (A : Type) : Type :=
  | Ok (a : A)
  | Raise (e : exn).
Arguments Ok {A} a.
Arguments Raise {A} e.

Global Instance result_ret : MRet result := fun A a => Ok a.
Global Instance result_bind : MBind result := fun A B k m =>
  match m with
  | Ok a => k a
  | Raise e => Raise e
  end.

Definition is_ok {A : Type} (m : result A) : bool :=
  match m with Ok _ => true | Raise _ => false end.

(** ** Strings *)

Module PyStr.

Definition chars (s : string) : list ascii := list_ascii_of_string s.
Definition of_chars (l : list ascii) : string := string_of_list_ascii l.

Definition code (c : ascii) : Z := Z.of_nat (nat_of_ascii c).

Definition is_upper (c : ascii) : bool := (65 <=? code c) && (code c <=? 90).
Definition is_digit (c : ascii) : bool := (48 <=? code c) && (code c <=? 57).

(** [str.isspace] on ASCII: tab, LF, VT, FF, CR, FS, GS, RS, US, space. *)
Definition is_space (c : ascii) : bool :=
  ((9 <=? code c) && (code c <=? 13))
  || ((28 <=? code c) && (code c <=? 32)).

Definition lower_char (c : ascii) : ascii :=
  if is_upper c then ascii_of_nat (nat_of_ascii c + 32) else c.

(** [s.lower()] *)
Fixpoint lower (s : string) : string :=
  match s with
  | EmptyString => EmptyString
  | String c s' => String (lower_char c) (lower s')
  end.

(** [s.startswith(p)] *)
Fixpoint startswith (p s : string) : bool :=
  match p, s with
  | EmptyString, _ => true
  | String a p', String b s' => if decide (a = b) then startswith p' s' else false
  | String _ _, EmptyString => false
  end.

(** [needle in s] for two strings *)
Fixpoint contains (needle s : string) : bool :=
  startswith needle s
  || match s with
     | EmptyString => false
     | String _ s' => contains needle s'
     end.

(** [len(s)] *)
Definition len (s : string) : Z := Z.of_nat (String.length s).

(** [s[a:b]] for non-negative constant bounds *)
Definition slice (a b : nat) (s : string) : string :=
  of_chars (take (b - a) (drop a (chars s))).

(** The whitespace that [int] skips in an ASCII string (C [isspace]). *)
Definition is_c_space (c : ascii) : bool :=
  ((9 <=? code c) && (code c <=? 13)) || (code c =? 32).

(** Removal of leading and trailing whitespace, as [s.strip()] does
    with [is_space]. *)
Fixpoint lstrip_chars (space : ascii -> bool) (l : list ascii) : list ascii :=
  match l with
  | c :: l' => if space c then lstrip_chars space l' else l
  | [] => []
  end.
Definition strip_chars (space : ascii -> bool) (l : list ascii) : list ascii :=
  reverse (lstrip_chars space (reverse (lstrip_chars space l))).

End PyStr.

(** ** Integers: [int(s)], [int(s, 16)] and [str(n)] *)

Module PyInt.
Import PyStr.

Definition digit10 (c : ascii) : option Z :=
  if is_digit c then Some (code c - 48) else None.

Definition digit16 (c : ascii) : option Z :=
  if is_digit c then Some (code c - 48)
  else if (97 <=? code c) && (code c <=? 102) then Some (code c - 87)
  else if (65 <=? code c) && (code c <=? 70) then Some (code c - 55)
  else None.

Definition is_underscore (c : ascii) : bool := code c =? 95.

(** The digits after a first digit: single underscores may separate
    two digits. *)
Fixpoint more_digits (base : Z) (digit : ascii -> option Z)
    (l : list ascii) (acc : Z) : option Z :=
  match l with
  | [] => Some acc
  | c :: l' =>
      if is_underscore c then
        match l' with
        | d :: l'' =>
            match digit d with
            | Some v => more_digits base digit l'' (acc * base + v)
            | None => None
            end
        | [] => None
        end
      else
        match digit c with
        | Some v => more_digits base digit l' (acc * base + v)
        | None => None
        end
  end.

Definition digits_value (base : Z) (digit : ascii -> option Z)
    (l : list ascii) : option Z :=
  match l with
  | d :: l' =>
      match digit d with
      | Some v => more_digits base digit l' v
      | None => None
      end
  | [] => None
  end.

Definition split_sign (l : list ascii) : bool * list ascii :=
  match l with
  | c :: l' =>
      if code c =? 45 then (true, l')
      else if code c =? 43 then (false, l')
      else (false, l)
  | [] => (false, l)
  end.

Definition apply_sign (neg : bool) (n : Z) : Z := if neg then - n else n.

(** The limit of [int] on the number of digits of a decimal literal
    ([sys.get_int_max_str_digits()]), and the digits that count towards
    it: the characters after the sign, underscores apart. *)
Definition max_str_digits : Z := 4300.

Definition count_digits (l : list ascii) : Z :=
  Z.of_nat (length (List.filter (fun c => negb (is_underscore c)) l)).

(** [int(s)]: surrounding whitespace, an optional sign, at most
    [max_str_digits] decimal digits.  [None] stands for ValueError. *)
Definition parse10 (s : string) : option Z :=
  let '(neg, l) := split_sign (strip_chars is_c_space (chars s)) in
  if max_str_digits <? count_digits l then None
  else apply_sign neg <$> digits_value 10 digit10 l.

(** [int(s, 16)]: as above with an optional [0x] prefix, which one
    underscore may follow. *)
Definition skip_0x (l : list ascii) : list ascii :=
  match l with
  | z :: x :: l' =>
      if (code z =? 48) && ((code x =? 120) || (code x =? 88)) then
        match l' with
        | u :: l'' => if is_underscore u then l'' else l'
        | [] => l'
        end
      else l
  | _ => l
  end.

Definition parse16 (s : string) : option Z :=
  let '(neg, l) := split_sign (strip_chars is_c_space (chars s)) in
  apply_sign neg <$> digits_value 16 digit16 (skip_0x l).

Definition int (s : string) : result Z :=
  match parse10 s with Some n => Ok n | None => Raise ValueError end.

Definition int16 (s : string) : result Z :=
  match parse16 s with Some n => Ok n | None => Raise ValueError end.

(** Decimal digits of a non-negative integer. *)
Definition digit_char (d : Z) : ascii := ascii_of_nat (48 + Z.to_nat d).

(** The [k] low digits of [n], most significant first. *)
Fixpoint low_digits (k : nat) (n : Z) : list ascii :=
  match k with
  | O => []
  | S k' => low_digits k' (n / 10) ++ [digit_char (n mod 10)]
  end.

Fixpoint ndigits_go (fuel : nat) (n : Z) : nat :=
  match fuel with
  | O => 1%nat
  | S f => if n <? 10 then 1%nat else S (ndigits_go f (n / 10))
  end.

(** Number of decimal digits of [n >= 0]; [0] has one digit. *)
Definition ndigits (n : Z) : nat := ndigits_go (Z.to_nat (Z.log2 n)) n.

Definition digits (n : Z) : list ascii := low_digits (ndigits n) n.

(** [str(n)] *)
Definition str (n : Z) : string :=
  if n <? 0 then String "-" (of_chars (digits (- n))) else of_chars (digits n).

(** [int(s)] on a string of decimal digits *)
Definition of_digits (l : list ascii) : Z :=
  fold_left (fun acc c => acc * 10 + (code c - 48)) l 0.

End PyInt.

(** ** [decimal.Decimal] in the default context *)

Module PyDecimal.
Import PyStr PyInt.

(** A finite number is [(-1)^sign * int(int_) * 10^exp], with [int_] the
    decimal digits of the coefficient, without leading zeros. *)
Inductive decimal : Type :=
  | Finite (sign : bool) (int_ : list ascii) (exp : Z)
  | Infinity (sign : bool)
  | NaN (sign : bool) (signaling : bool) (diag : list ascii).

Definition prec : Z := 28.
Definition Emax : Z := 999999.
Definition Emin : Z := -999999.
Definition Etiny : Z := Emin - prec + 1.
Definition Etop : Z := Emax - prec + 1.

Definition zero_char : ascii := "0"%char.
Definition one_char : ascii := "1"%char.
Definition dot_char : ascii := "."%char.

Definition len (l : list ascii) : Z := Z.of_nat (length l).
Definition is_zero (int_ : list ascii) : bool := bool_decide (int_ = [zero_char]).

(** *** [Decimal(s)] *)

Fixpoint span_digits (l : list ascii) : list ascii * list ascii :=
  match l with
  | c :: l' =>
      if is_digit c then
        let '(ds, r) := span_digits l' in (c :: ds, r)
      else ([], l)
  | [] => ([], [])
  end.

Definition lower_is (lit : string) (l : list ascii) : bool :=
  bool_decide (map lower_char l = chars lit).

(** The exponent part [E[-+]?\d+] up to the end of the string. *)
Definition parse_exponent (l : list ascii) : option Z :=
  match l with
  | [] => Some 0
  | e :: r =>
      if code (lower_char e) =? 101 then
        let '(neg, r') := split_sign r in
        let '(ds, rest) := span_digits r' in
        match ds, rest with
        | _ :: _, [] => Some (apply_sign neg (of_digits ds))
        | _, _ => None
        end
      else None
  end.

Definition parse_number (sign : bool) (l : list ascii) : option decimal :=
  let '(intpart, r1) := span_digits l in
  let '(dot, fracpart, r2) :=
    match r1 with
    | c :: r =>
        if code c =? 46 then let '(f, r') := span_digits r in (true, f, r')
        else (false, [], r1)
    | [] => (false, [], r1)
    end in
  match intpart, fracpart with
  | [], [] => None
  | _, _ =>
      e ← parse_exponent r2;
      Some (Finite sign (digits (of_digits (intpart ++ fracpart)))
              (e - len fracpart))
  end.

Definition parse_nan (sign : bool) (l : list ascii) : option decimal :=
  let '(signaling, l1) :=
    match l with
    | c :: r => if code (lower_char c) =? 115 then (true, r) else (false, l)
    | [] => (false, l)
    end in
  if lower_is "nan" (take 3 l1) then
    let '(diag, rest) := span_digits (drop 3 l1) in
    match rest with
    | [] =>
        Some (NaN sign signaling
                (if of_digits diag =? 0 then [] else digits (of_digits diag)))
    | _ :: _ => None
    end
  else None.

Definition parse (s : string) : option decimal :=
  let l := List.filter (fun c => negb (is_underscore c)) (strip_chars is_space (chars s)) in
  let '(sign, l) := split_sign l in
  match parse_number sign l with
  | Some d => Some d
  | None =>
      if lower_is "inf" l || lower_is "infinity" l then Some (Infinity sign)
      else parse_nan sign l
  end.

Definition Decimal (s : string) : result decimal :=
  match parse s with Some d => Ok d | None => Raise InvalidOperation end.

(** *** Rounding to the context: [_fix] *)

Definition all_zeros (l : list ascii) : bool :=
  forallb (fun c => code c =? 48) l.

Definition exact_half (l : list ascii) : bool :=
  match l with
  | c :: r => (code c =? 53) && all_zeros r
  | [] => false
  end.

Definition round_half_up (int_ : list ascii) (p : nat) : Z :=
  match drop p int_ with
  | c :: r => if 53 <=? code c then 1 else if all_zeros (c :: r) then 0 else -1
  | [] => 0
  end.

Definition round_half_even (int_ : list ascii) (p : nat) : Z :=
  if exact_half (drop p int_)
     && match last (take p int_) with
        | Some c => Z.even (code c)
        | None => true
        end
  then -1
  else round_half_up int_ p.

Definition fix_nan (sign signaling : bool) (payload : list ascii) : decimal :=
  if prec <? len payload then
    let cut := drop (length payload - Z.to_nat prec) payload in
    NaN sign signaling
      (if all_zeros cut then [] else digits (of_digits cut))
  else NaN sign signaling payload.

Definition fix_ (d : decimal) : result decimal :=
  match d with
  | NaN sign signaling payload => Ok (fix_nan sign signaling payload)
  | Infinity _ => Ok d
  | Finite sign int_ exp =>
      if is_zero int_ then
        Ok (Finite sign [zero_char] (Z.min (Z.max exp Etiny) Emax))
      else
        let exp_min := len int_ + exp - prec in
        if Etop <? exp_min then Raise Overflow
        else
          let exp_min := if exp_min <? Etiny then Etiny else exp_min in
          if exp <? exp_min then
            let digits0 := len int_ + exp - exp_min in
            let '(int1, ndig) :=
              if digits0 <? 0 then ([one_char], 0%nat)
              else (int_, Z.to_nat digits0) in
            let changed := round_half_even int1 ndig in
            let coeff :=
              match take ndig int1 with [] => [zero_char] | c => c end in
            let '(coeff, exp_min) :=
              if 0 <? changed then
                let coeff := digits (of_digits coeff + 1) in
                if prec <? len coeff then (removelast coeff, exp_min + 1)
                else (coeff, exp_min)
              else (coeff, exp_min) in
            if Etop <? exp_min then Raise Overflow
            else Ok (Finite sign coeff exp_min)
          else Ok d
  end.

(** *** [Decimal(10) ** k] for a Python int [k] *)

Definition pow_ten (k : Z) : result decimal :=
  if k =? 0 then Ok (Finite false [one_char] 0)
  else if 0 <? k then
    if 1000000 <=? k then fix_ (Finite false [one_char] (Emax + 1))
    else
      let zeros := Z.min k prec in
      fix_ (Finite false (one_char :: replicate (Z.to_nat zeros) zero_char)
              (k - zeros))
  else if k <=? -10000000 then fix_ (Finite false [one_char] (Etiny - 1))
  else fix_ (Finite false [one_char] k).

(** *** [self / other] *)

(** The loop that brings an exact quotient towards its ideal exponent:
    at most [fuel] trailing zeros are removed. *)
Fixpoint to_ideal (fuel : nat) (coeff exp : Z) : Z * Z :=
  match fuel with
  | O => (coeff, exp)
  | S f =>
      if coeff mod 10 =? 0 then to_ideal f (coeff / 10) (exp + 1)
      else (coeff, exp)
  end.

Definition truediv (self other : decimal) : result decimal :=
  match self, other with
  | NaN _ true _, _ => Raise InvalidOperation
  | _, NaN _ true _ => Raise InvalidOperation
  | NaN sign false payload, _ => Ok (fix_nan sign false payload)
  | _, NaN sign false payload => Ok (fix_nan sign false payload)
  | Infinity _, Infinity _ => Raise InvalidOperation
  | Infinity s1, Finite s2 _ _ => Ok (Infinity (xorb s1 s2))
  | Finite s1 _ _, Infinity s2 => Ok (Finite (xorb s1 s2) [zero_char] Etiny)
  | Finite s1 i1 e1, Finite s2 i2 e2 =>
      let sign := xorb s1 s2 in
      if is_zero i2 then
        if is_zero i1 then Raise InvalidOperation else Raise DivisionByZero
      else if is_zero i1 then fix_ (Finite sign [zero_char] (e1 - e2))
      else
        let shift := len i2 - len i1 + prec + 1 in
        let exp := e1 - e2 - shift in
        let op1 := of_digits i1 in
        let op2 := of_digits i2 in
        let '(coeff, remainder) :=
          if 0 <=? shift then
            ((op1 * 10 ^ shift) / op2, (op1 * 10 ^ shift) mod op2)
          else
            (op1 / (op2 * 10 ^ (- shift)), op1 mod (op2 * 10 ^ (- shift))) in
        let '(coeff, exp) :=
          if remainder =? 0 then
            to_ideal (Z.to_nat (e1 - e2 - exp)) coeff exp
          else ((if coeff mod 5 =? 0 then coeff + 1 else coeff), exp) in
        fix_ (Finite sign (digits coeff) exp)
  end.

(** *** [self.normalize()] *)

Fixpoint strip_zeros (rev_int : list ascii) (exp : Z) : list ascii * Z :=
  match rev_int with
  | c :: r =>
      if (code c =? 48) && (exp <? Emax) then strip_zeros r (exp + 1)
      else (rev_int, exp)
  | [] => ([], exp)
  end.

Definition normalize (self : decimal) : result decimal :=
  match self with
  | NaN _ true _ => Raise InvalidOperation
  | NaN sign false payload => Ok (fix_nan sign false payload)
  | _ =>
      dup ← fix_ self;
      match dup with
      | Finite sign int_ exp =>
          if is_zero int_ then Ok (Finite sign [zero_char] 0)
          else
            let '(r, exp) := strip_zeros (reverse int_) exp in
            Ok (Finite sign (reverse r) exp)
      | _ => Ok dup
      end
  end.

(** *** [str(self)] *)

Definition sign_chars (sign : bool) : list ascii :=
  if sign then ["-"%char] else [].

(** ["%+d" % n] *)
Definition signed_chars (n : Z) : list ascii :=
  (if n <? 0 then "-"%char else "+"%char) :: digits (Z.abs n).

Definition to_str (self : decimal) : string :=
  match self with
  | Infinity sign => of_chars (sign_chars sign ++ chars "Infinity")
  | NaN sign signaling payload =>
      of_chars (sign_chars sign
                ++ chars (if signaling then "sNaN" else "NaN") ++ payload)
  | Finite sign int_ exp =>
      let leftdigits := exp + len int_ in
      let dotplace :=
        if (exp <=? 0) && (-6 <? leftdigits) then leftdigits else 1 in
      let '(intpart, fracpart) :=
        if dotplace <=? 0 then
          ([zero_char],
           dot_char :: replicate (Z.to_nat (- dotplace)) zero_char ++ int_)
        else if len int_ <=? dotplace then
          (int_ ++ replicate (Z.to_nat (dotplace - len int_)) zero_char, [])
        else
          (take (Z.to_nat dotplace) int_,
           dot_char :: drop (Z.to_nat dotplace) int_) in
      let e :=
        if leftdigits =? dotplace then []
        else "E"%char :: signed_chars (leftdigits - dotplace) in
      of_chars (sign_chars sign ++ intpart ++ fracpart ++ e)
  end.

End PyDecimal.

(** ** The amount formatter *)

(** The [token_decimal] argument: the callers pass strings, and the
    handler of [int(token_decimal)] also covers values that are not. *)
Inductive pyarg : Type :=
  | AStr (s : string)
  | AInt (n : Z)
  | ANone.

Definition int_of_arg (a : pyarg) : result Z :=
  match a with
  | AStr s => PyInt.int s
  | AInt n => Ok n
  | ANone => Raise TypeError
  end.

Definition format_token_amount (raw_value : string) (token_decimal : pyarg)
    : result string :=
  let decimals :=
    match int_of_arg token_decimal with
    | Ok n => n
    | Raise _ => 18   (* int() raises ValueError or TypeError only *)
    end in
  if decimals =? 0 then Ok raw_value
  else
    value ← PyDecimal.Decimal raw_value;
    scale ← PyDecimal.pow_ten decimals;
    amount ← PyDecimal.truediv value scale;
    normalized ← PyDecimal.normalize amount;
    Ok (PyDecimal.to_str normalized).

(** ** Constants *)

Definition POLL_INTERVAL : Z := 5.
Definition MAX_SEEN_HASHES : nat := 1000.

Record type_config : Type := { action : string; sound : string }.

(** [TRANSFER_TYPES], in insertion order. *)
Definition TRANSFER_TYPES : list (string * type_config) :=
  [ ("ETH",   {| action := "txlist";     sound := "/System/Library/Sounds/Ping.aiff" |});
    ("TOKEN", {| action := "tokentx";    sound := "/System/Library/Sounds/Glass.aiff" |});
    ("NFT",   {| action := "tokennfttx"; sound := "/System/Library/Sounds/Funk.aiff" |}) ].

Definition AAVE_SOUND : string := "/System/Library/Sounds/Hero.aiff".
Definition AAVE_LOOKBACK_BLOCKS : Z := 200.

(** ** Responses of the explorer API *)

(** A transfer or a log: a dict with string fields. *)
Abbreviation record := (gmap string string).

(** A field of a response body. *)
Inductive jvalue : Type :=
  | JStr (s : string)
  | JList (l : list record)
  | JDict (d : record).

(** What [requests.get], [raise_for_status] and [resp.json()] give. *)
Inductive http_outcome : Type :=
  | RequestFailed                        (* a RequestException: transport, timeout, non-2xx *)
  | InvalidJson                          (* [resp.json()] raises ValueError; caught
                                            by one of the two handlers, [None] either way *)
  | JsonBody (data : gmap string jvalue).

(** [d.get(k, default)] *)
Definition get (d : record) (k dflt : string) : string :=
  default dflt (d !! k).

(** ** The query client *)

(** [needle in msg], for what [data.get("message", "")] can be. *)
Definition message_contains (needle : string) (msg : jvalue) : bool :=
  match msg with
  | JStr m => PyStr.contains needle m
  | JList _ => false
  | JDict d => bool_decide (is_Some (d !! needle))
  end.

Definition status_is_1 (data : gmap string jvalue) : bool :=
  match data !! "status" with
  | Some (JStr s) => bool_decide (s = "1")
  | _ => false
  end.

(** [fetch_transfers]: the transfers on success, [None] on error, and
    the line it prints on error (kept up to the endpoint tag). *)
Definition fetch_transfers (resp : http_outcome) (action : string)
    : option jvalue * list string :=
  match resp with
  | RequestFailed => (None, ["  [" +:+ action +:+ " network error]"])
  | InvalidJson => (None, ["  [" +:+ action +:+ " parse error]"])
  | JsonBody data =>
      if negb (status_is_1 data) then
        if message_contains "No transactions found"
             (default (JStr "") (data !! "message"))
        then (Some (JList []), [])
        else (None, ["  [" +:+ action +:+ "]"])
      else (Some (default (JList []) (data !! "result")), [])
  end.

(** [fetch_aave_supply_logs] *)
Definition fetch_aave_supply_logs (resp : http_outcome)
    : option jvalue * list string :=
  match resp with
  | RequestFailed => (None, ["  [aave getLogs network error]"])
  | InvalidJson => (None, ["  [aave getLogs parse error]"])
  | JsonBody data =>
      if negb (status_is_1 data) then
        let msg := default (JStr "") (data !! "message") in
        if message_contains "No records found" msg
           || message_contains "No transactions found" msg
        then (Some (JList []), [])
        else (None, ["  [aave getLogs]"])
      else (Some (default (JList []) (data !! "result")), [])
  end.

(** [get_tx_sender]: every exception is swallowed. *)
Definition get_tx_sender (resp : http_outcome) : option string :=
  match resp with
  | JsonBody data =>
      match data !! "result" with
      | Some (JDict d) => if decide (d = ∅) then None else d !! "from"
      | _ => None
      end
  | _ => None
  end.

(** [get_current_block] *)
Definition get_current_block (resp : http_outcome) : result (option Z) :=
  match resp with
  | RequestFailed | InvalidJson => Ok None
  | JsonBody data =>
      match data !! "result" with
      | Some (JStr r) =>
          if negb (bool_decide (r = "")) && PyStr.startswith "0x" r then
            match PyInt.int16 r with
            | Ok n => Ok (Some n)
            | Raise ValueError => Ok None
            | Raise e => Raise e
            end
          else Ok None
      | Some (JList l) => if decide (l = []) then Ok None else Raise AttributeError
      | Some (JDict d) => if decide (d = ∅) then Ok None else Raise AttributeError
      | None => Ok None
      end
  end.

(** ** The event decoder *)

Record supply_event : Type := {
  tx_hash : string;
  block_number : Z;
  sender : option string;
  user : string;
  amount_display : string
}.

(** [decode_supply_event]; [sender_of] answers the secondary lookup. *)
Definition decode_supply_event (log : record) (sender_of : string -> http_outcome)
    : result supply_event :=
  let data := get log "data" "0x" in
  let tx_hash := get log "transactionHash" "" in
  let user :=
    if 66 <=? PyStr.len data then "0x" +:+ PyStr.slice 26 66 data else "unknown" in
  amount_wei ←
    (if 130 <=? PyStr.len data then PyInt.int16 (PyStr.slice 66 130 data) else Ok 0);
  amount_display ← format_token_amount (PyInt.str amount_wei) (AStr "18");
  let sender :=
    if decide (tx_hash = "") then None else get_tx_sender (sender_of tx_hash) in
  block_number ← PyInt.int16 (get log "blockNumber" "0x0");
  Ok {| tx_hash := tx_hash;
        block_number := block_number;
        sender := sender;
        user := user;
        amount_display := amount_display |}.

Definition rule : string := PyStr.of_chars (replicate 60 "="%char).
Definition newline : string := String (ascii_of_nat 10) "".

Definition truthy (o : option string) : option string :=
  match o with
  | Some s => if decide (s = "") then None else Some s
  | None => None
  end.

(** What a round emits: the error lines of the query client, and the
    alerts.  An alert is the block that [print_transfer] or
    [print_supply_event] prints for a record, followed by the sound that
    [play_alert] starts; [play_alert] fails silently. *)
Inductive event : Type :=
  | Logged (line : string)
  | TransferAlert (transfer_type : string) (tx : record)
      (printed : list string) (sound_path : string)
  | SupplyAlert (ev : supply_event) (printed : list string) (sound_path : string).

(** [print_supply_event] *)
Definition print_supply_event (ev : supply_event) : list string :=
  [newline +:+ rule;
   "  AAVE V3 WETH SUPPLY DETECTED";
   "  Amount: " +:+ amount_display ev +:+ " WETH"]
  ++ match truthy (sender ev) with
     | Some s =>
         ("  Sender: " +:+ s)
         :: (if decide (PyStr.lower (user ev) = PyStr.lower s) then []
             else ["  Via:    " +:+ user ev])
     | None => ["  User:   " +:+ user ev]
     end
  ++ ["  Tx:     " +:+ tx_hash ev;
      rule +:+ newline].

(** ** The incoming-transfer filter *)

(** A list comprehension whose condition can raise. *)
Fixpoint filter_raising {A : Type} (p : A -> result bool) (l : list A)
    : result (list A) :=
  match l with
  | [] => Ok []
  | x :: l' =>
      b ← p x;
      rest ← filter_raising p l';
      Ok (if b : bool then x :: rest else rest)
  end.

Definition to_matches (addr_lower : string) (tx : record) : bool :=
  bool_decide (PyStr.lower (get tx "to" "") = addr_lower).

(** [tx.get("isError") != "1" and int(tx.get("value", "0")) > 0] *)
Definition eth_condition (tx : record) : result bool :=
  if decide (tx !! "isError" = Some "1") then Ok false
  else
    v ← PyInt.int (get tx "value" "0");
    Ok (0 <? v).

Definition filter_incoming (transfers : list record) (address transfer_type : string)
    : result (list record) :=
  let addr_lower := PyStr.lower address in
  let incoming := List.filter (to_matches addr_lower) transfers in
  if decide (transfer_type = "ETH") then filter_raising eth_condition incoming
  else Ok incoming.

(** Iterating over what a query returned, up to the first use of an
    element as a dict: the characters of a string and the keys of a dict
    have no [get]. *)
Definition as_records (v : jvalue) : result (list record) :=
  match v with
  | JList l => Ok l
  | JStr s => if decide (s = "") then Ok [] else Raise AttributeError
  | JDict d => if decide (d = ∅) then Ok [] else Raise AttributeError
  end.

(** ** Alerts for transfers *)

(** [print_transfer] *)
Definition print_transfer (tx : record) (transfer_type : string)
    : result (list string) :=
  let sender := get tx "from" "unknown" in
  let tx_hash := get tx "hash" "" in
  body ←
    (if decide (transfer_type = "ETH") then
       amount ← format_token_amount (get tx "value" "0") (AStr "18");
       Ok ["  Amount: " +:+ amount +:+ " ETH"]
     else if decide (transfer_type = "TOKEN") then
       let token_name := get tx "tokenName" "Unknown" in
       let token_symbol := get tx "tokenSymbol" "???" in
       amount ← format_token_amount (get tx "value" "0")
                  (AStr (get tx "tokenDecimal" "18"));
       Ok ["  Token:  " +:+ token_name +:+ " (" +:+ token_symbol +:+ ")";
           "  Amount: " +:+ amount +:+ " " +:+ token_symbol]
     else if decide (transfer_type = "NFT") then
       let token_name := get tx "tokenName" "Unknown" in
       let token_id := get tx "tokenID" "?" in
       Ok ["  Token:  " +:+ token_name +:+ " #" +:+ token_id]
     else Ok []);
  Ok ([newline +:+ rule;
       "  NEW " +:+ transfer_type +:+ " TRANSFER DETECTED"]
      ++ body
      ++ ["  From:   " +:+ sender;
          "  Tx:     " +:+ tx_hash;
          rule +:+ newline]).

(** ** The polling loop *)

(** The state that [monitor] keeps across rounds. *)
Record state : Type := {
  seen : gmap string (gset string);
  first_run : bool;
  aave_seen : gset string;
  aave_from_block : Z
}.

(** What the explorer answers during one round: to the transfer query
    of each action, to the log query, and to the sender lookup of each
    transaction hash. *)
Record answers : Type := {
  transfers_of : string -> http_outcome;
  logs_answer : http_outcome;
  sender_of : string -> http_outcome
}.

(** [for tx in incoming: seen.add(tx["hash"])] *)
Fixpoint seed (incoming : list record) (seen_t : gset string)
    : result (gset string) :=
  match incoming with
  | [] => Ok seen_t
  | tx :: rest =>
      match tx !! "hash" with
      | Some h => seed rest ({[h]} ∪ seen_t)
      | None => Raise KeyError
      end
  end.

(** The loop that fills [new_transfers]. *)
Fixpoint collect_new (incoming : list record) (seen_t : gset string)
    (new_transfers : list record) : result (list record * gset string) :=
  match incoming with
  | [] => Ok (new_transfers, seen_t)
  | tx :: rest =>
      match tx !! "hash" with
      | Some h =>
          if decide (h ∈ seen_t) then collect_new rest seen_t new_transfers
          else collect_new rest ({[h]} ∪ seen_t) (new_transfers ++ [tx])
      | None => Raise KeyError
      end
  end.

(** [for tx in txs: print_transfer(tx, transfer_type); play_alert(sound)],
    one alert per iteration *)
Fixpoint alert_all (txs : list record) (transfer_type sound_path : string)
    : result (list event) :=
  match txs with
  | [] => Ok []
  | tx :: rest =>
      printed ← print_transfer tx transfer_type;
      more ← alert_all rest transfer_type sound_path;
      Ok (TransferAlert transfer_type tx printed sound_path :: more)
  end.

(** [{tx["hash"] for tx in incoming}] *)
Definition hash_set (incoming : list record) : result (gset string) :=
  seed incoming ∅.

(** The body of the loop over [TRANSFER_TYPES], for one type. *)
Definition transfer_round (address transfer_type : string) (config : type_config)
    (first : bool) (resp : http_outcome) (seen_t : gset string)
    : result (gset string * list event) :=
  let '(transfers, log) := fetch_transfers resp (action config) in
  match transfers with
  | None => Ok (seen_t, Logged <$> log)
  | Some v =>
      transfers ← as_records v;
      incoming ← filter_incoming transfers address transfer_type;
      '(seen_t, out) ←
        (if first then
           s ← seed incoming seen_t; Ok (s, [])
         else
           '(new_transfers, s) ← collect_new incoming seen_t [];
           out ← alert_all (reverse new_transfers) transfer_type (sound config);
           Ok (s, out));
      seen_t ←
        (if decide (MAX_SEEN_HASHES < size seen_t)%nat then hash_set incoming
         else Ok seen_t);
      Ok (seen_t, (Logged <$> log) ++ out)
  end.

Fixpoint poll_transfers (address : string) (types : list (string * type_config))
    (first : bool) (ans : answers) (seen_all : gmap string (gset string))
    : result (gmap string (gset string) * list event) :=
  match types with
  | [] => Ok (seen_all, [])
  | (transfer_type, config) :: rest =>
      '(s, out) ← transfer_round address transfer_type config first
                    (transfers_of ans (action config)) (seen_all !!! transfer_type);
      '(seen_all, more) ← poll_transfers address rest first ans
                            (<[transfer_type := s]> seen_all);
      Ok (seen_all, out ++ more)
  end.

(** [for log in logs: aave_seen.add(log.get("transactionHash", ""))] *)
Definition log_hashes (logs : list record) : gset string :=
  list_to_set ((fun log => get log "transactionHash" "") <$> logs).

(** The loop that fills [new_events]. *)
Fixpoint collect_events (logs : list record) (seen_a : gset string)
    (new_events : list record) : list record * gset string :=
  match logs with
  | [] => (new_events, seen_a)
  | log :: rest =>
      let tx_hash := get log "transactionHash" "" in
      if decide (tx_hash ≠ "" ∧ tx_hash ∉ seen_a) then
        collect_events rest ({[tx_hash]} ∪ seen_a) (new_events ++ [log])
      else collect_events rest seen_a new_events
  end.

Fixpoint alert_events (new_events : list record) (sender_of : string -> http_outcome)
    : result (list event) :=
  match new_events with
  | [] => Ok []
  | log :: rest =>
      ev ← decode_supply_event log sender_of;
      more ← alert_events rest sender_of;
      Ok (SupplyAlert ev (print_supply_event ev) AAVE_SOUND :: more)
  end.

(** The loop that advances [aave_from_block]. *)
Fixpoint advance (logs : list record) (from_block : Z) : result Z :=
  match logs with
  | [] => Ok from_block
  | log :: rest =>
      block_num ← PyInt.int16 (get log "blockNumber" "0x0");
      advance rest (if from_block <? block_num then block_num else from_block)
  end.

(** The Aave part of a round. *)
Definition aave_round (first : bool) (ans : answers) (seen_a : gset string)
    (from_block : Z) : result (gset string * Z * list event) :=
  let '(logs, log) := fetch_aave_supply_logs (logs_answer ans) in
  match logs with
  | None => Ok (seen_a, from_block, Logged <$> log)
  | Some v =>
      logs ← as_records v;
      '(seen_a, out) ←
        (if first then Ok (log_hashes logs ∪ seen_a, [])
         else
           let '(new_events, s) := collect_events logs seen_a [] in
           out ← alert_events new_events (sender_of ans);
           Ok (s, out));
      from_block ← advance logs from_block;
      let seen_a :=
        if decide (MAX_SEEN_HASHES < size seen_a)%nat then log_hashes logs
        else seen_a in
      Ok (seen_a, from_block, (Logged <$> log) ++ out)
  end.

(** One iteration of [while True]. *)
Definition poll_round (address : string) (watch_aave : bool) (ans : answers)
    (st : state) : result (state * list event) :=
  '(seen_all, out) ← poll_transfers address TRANSFER_TYPES (first_run st) ans (seen st);
  '(seen_a, from_block, out_a) ←
    (if watch_aave then aave_round (first_run st) ans (aave_seen st) (aave_from_block st)
     else Ok (aave_seen st, aave_from_block st, []));
  Ok ({| seen := seen_all;
         first_run := false;
         aave_seen := seen_a;
         aave_from_block := from_block |},
      out ++ out_a).

(** The state with which the loop is entered; [block] is what
    [get_current_block] returned. *)
Definition initial_state (watch_aave : bool) (block : option Z) : state :=
  {| seen := list_to_map ((fun tc => (tc.1, ∅)) <$> TRANSFER_TYPES);
     first_run := true;
     aave_seen := ∅;
     aave_from_block :=
       if watch_aave then
         match block with
         | Some b => Z.max 0 (b - AAVE_LOOKBACK_BLOCKS)
         | None => 0
         end
       else 0 |}.

(** The rounds of the loop on successive answers, as long as none raises. *)
Fixpoint rounds (address : string) (watch_aave : bool) (inputs : list answers)
    (st : state) : result (state * list event) :=
  match inputs with
  | [] => Ok (st, [])
  | ans :: rest =>
      '(st, out) ← poll_round address watch_aave ans st;
      '(st, more) ← rounds address watch_aave rest st;
      Ok (st, out ++ more)
  end.

(** ** The entry points *)

(** The line that [get_current_block] prints when it returns [None]; the
    value or the exception that follows the tag is left out. *)
Definition get_current_block_log (resp : http_outcome) : list string :=
  match resp with
  | RequestFailed => ["  [eth_blockNumber network error]"]
  | InvalidJson => ["  [eth_blockNumber parse error]"]
  | JsonBody data =>
      match data !! "result" with
      | Some (JStr r) =>
          if negb (bool_decide (r = "")) && PyStr.startswith "0x" r then
            match PyInt.int16 r with
            | Ok _ => []
            | Raise _ => ["  [eth_blockNumber parse error]"]
            end
          else ["  [eth_blockNumber] unexpected result"]
      | Some (JList l) =>
          if decide (l = []) then ["  [eth_blockNumber] unexpected result"] else []
      | Some (JDict d) =>
          if decide (d = ∅) then ["  [eth_blockNumber] unexpected result"] else []
      | None => ["  [eth_blockNumber] unexpected result"]
      end
  end.

Definition features (watch_aave : bool) : string :=
  "ETH, ERC-20 tokens, ERC-721 NFTs"
  +:+ (if watch_aave then ", Aave V3 WETH Supply events" else "").

(** [monitor], interrupted after the rounds of [inputs]: the state of the
    loop and what was printed.  [block_answer] is the answer to the
    query of [get_current_block]. *)
Definition monitor (address : string) (watch_aave : bool)
    (block_answer : http_outcome) (inputs : list answers)
    : result (state * list event) :=
  '(block, log) ←
    (if watch_aave then
       block ← get_current_block block_answer;
       Ok (block,
           get_current_block_log block_answer
           ++ match block with
              | Some _ => []
              | None =>
                  ["Warning: Could not fetch current block. Aave monitoring starts from block 0."]
              end)
     else Ok (None, []));
  let banner :=
    ["Monitoring address: " +:+ address;
     "Tracking: " +:+ features watch_aave;
     "Polling every " +:+ PyInt.str POLL_INTERVAL
       +:+ " seconds. Press Ctrl+C to stop." +:+ newline] in
  '(st, out) ← rounds address watch_aave inputs (initial_state watch_aave block);
  Ok (st, (Logged <$> (log ++ banner)) ++ out).



(** * Vocabulary of the properties *)

(** The recipient is the monitored address, letter case apart. *)
Definition addressed_to (address : string) (tx : record) : bool :=
  bool_decide (PyStr.lower (get tx "to" "") = PyStr.lower address).

(** Case-insensitive comparison as the design document means it, read
    character by character and without [str.lower]: two characters are
    the same letter when they are equal, or when one is an upper-case
    letter A..Z and the other is the lower-case letter 32 codes above. *)
Definition same_letter (a b : ascii) : bool :=
  (PyStr.code a =? PyStr.code b)
  || ((65 <=? PyStr.code a) && (PyStr.code a <=? 90)
      && (PyStr.code b =? PyStr.code a + 32))
  || ((65 <=? PyStr.code b) && (PyStr.code b <=? 90)
      && (PyStr.code a =? PyStr.code b + 32)).

Fixpoint equal_ignoring_case (s t : string) : bool :=
  match s, t with
  | EmptyString, EmptyString => true
  | String a s', String b t' => same_letter a b && equal_ignoring_case s' t'
  | _, _ => false
  end.

(** The amount of a transfer is a positive integer. *)
Definition positive_value (tx : record) : bool :=
  match PyInt.parse10 (get tx "value" "0") with
  | Some v => 0 <? v
  | None => false
  end.

Definition not_failed (tx : record) : bool :=
  negb (bool_decide (tx !! "isError" = Some "1")).

(** The claim that a payload shorter than 130 characters decodes to the
    amount 0 and the beneficiary "unknown". *)
Definition short_payload_claim (log : record) (sender_of : string -> http_outcome)
    : Prop :=
  PyStr.len (get log "data" "0x") < 130 ->
  exists ev, decode_supply_event log sender_of = Ok ev
             /\ amount_display ev = "0" /\ user ev = "unknown".

(** A log whose payload holds the first word only (66 characters). *)
Definition one_word_log : record :=
  list_to_map
    [("transactionHash", "0xfeed");
     ("blockNumber", "0x10");
     ("data", "0x000000000000000000000000d322a49006fc828f9b5b37ab215f99b4e5cab19c")].

Definition no_answer : string -> http_outcome := fun _ => RequestFailed.

(** Identifiers of the transfers of a window. *)
Definition has_hash (tx : record) : Prop := is_Some (tx !! "hash").

Definition ids (incoming : list record) : list string :=
  omap (fun tx : record => tx !! "hash") incoming.

Definition id_set (incoming : list record) : gset string :=
  list_to_set (ids incoming).

(** The records of a window that carry an identifier for the first time:
    neither in the Seen Set nor earlier in the window. *)
Fixpoint fresh (incoming : list record) (seen_t : gset string) : list record :=
  match incoming with
  | [] => []
  | tx :: rest =>
      match tx !! "hash" with
      | Some h =>
          if decide (h ∈ seen_t) then fresh rest seen_t
          else tx :: fresh rest ({[h]} ∪ seen_t)
      | None => fresh rest seen_t
      end
  end.

(** [ev] is the alert of the transfer [tx]. *)
Definition alert_for (transfer_type sound_path : string) (tx : record) (ev : event)
    : Prop :=
  exists printed,
    print_transfer tx transfer_type = Ok printed
    /\ ev = TransferAlert transfer_type tx printed sound_path.

(** The Seen Set after the additions of a round, bounded by the reset. *)
Definition bounded (window_ids added : gset string) : gset string :=
  if decide (MAX_SEEN_HASHES < size added)%nat then window_ids else added.

(** The identifier of a log. *)
Definition log_id (log : record) : string := get log "transactionHash" "".

(** The logs of a window that carry a non-empty identifier for the first
    time: neither in the Seen Set nor earlier in the window. *)
Fixpoint fresh_events (logs : list record) (seen_a : gset string) : list record :=
  match logs with
  | [] => []
  | log :: rest =>
      if decide (log_id log ≠ "" ∧ log_id log ∉ seen_a)
      then log :: fresh_events rest ({[log_id log]} ∪ seen_a)
      else fresh_events rest seen_a
  end.

(** [ev] is the alert of the log [log]. *)
Definition supply_alert_for (sender_of : string -> http_outcome) (log : record)
    (ev : event) : Prop :=
  exists decoded,
    decode_supply_event log sender_of = Ok decoded
    /\ ev = SupplyAlert decoded (print_supply_event decoded) AAVE_SOUND.

(** The block numbers of the logs of a window. *)
Definition block_of (log : record) : option Z :=
  PyInt.parse16 (get log "blockNumber" "0x0").

Definition blocks (logs : list record) : list Z := omap block_of logs.

Definition has_block (log : record) : Prop := is_Some (block_of log).

(** An event is an alert. *)
Definition is_alert (ev : event) : bool :=
  match ev with
  | Logged _ => false
  | TransferAlert _ _ _ _ | SupplyAlert _ _ _ => true
  end.

(** The number of records in the result of a response. *)
Definition response_size (resp : http_outcome) : nat :=
  match resp with
  | JsonBody data =>
      match data !! "result" with
      | Some (JList l) => length l
      | _ => 0%nat
      end
  | _ => 0%nat
  end.

(** The answers of a round respect the page sizes of the queries:
    [offset = 10] for the transfer lists, [offset = 1000] for the logs. *)
Definition page_sized (ans : answers) : Prop :=
  (forall act, (response_size (transfers_of ans act) <= 10)%nat)
  /\ (response_size (logs_answer ans) <= 1000)%nat.

(** Every Seen Set holds at most [MAX_SEEN_HASHES] identifiers. *)
Definition sets_bounded (st : state) : Prop :=
  (forall t, (size (seen st !!! t) <= MAX_SEEN_HASHES)%nat)
  /\ (size (aave_seen st) <= MAX_SEEN_HASHES)%nat.

(** The channels of the monitor: one per transfer type, and the
    protocol channel. *)
Inductive channel : Type :=
  | Transfers (transfer_type : string) (config : type_config)
  | Supplies.

(** The channel is polled by the loop. *)
Definition polled (watch_aave : bool) (c : channel) : Prop :=
  match c with
  | Transfers t config => (t, config) ∈ TRANSFER_TYPES
  | Supplies => watch_aave = true
  end.

Definition seen_of (c : channel) (st : state) : gset string :=
  match c with
  | Transfers t _ => seen st !!! t
  | Supplies => aave_seen st
  end.

(** The identifiers of the surviving results of a round on a channel;
    empty when the query fails. *)
Definition window_of (address : string) (c : channel) (ans : answers) : gset string :=
  match c with
  | Transfers t config =>
      match fetch_transfers (transfers_of ans (action config)) (action config) with
      | (Some v, _) =>
          match as_records v with
          | Ok l =>
              match filter_incoming l address t with
              | Ok incoming => id_set incoming
              | Raise _ => ∅
              end
          | Raise _ => ∅
          end
      | (None, _) => ∅
      end
  | Supplies =>
      match fetch_aave_supply_logs (logs_answer ans) with
      | (Some v, _) =>
          match as_records v with
          | Ok logs => log_hashes logs
          | Raise _ => ∅
          end
      | (None, _) => ∅
      end
  end.

(** The Seen Set of a channel after the additions of a round. *)
Definition additions (address : string) (c : channel) (ans : answers) (st : state)
    : gset string :=
  match c with
  | Transfers _ _ => window_of address c ans ∪ seen_of c st
  | Supplies =>
      (if first_run st then window_of address c ans
       else window_of address c ans ∖ {[""]})
      ∪ seen_of c st
  end.

(** The round resets the Seen Set of the channel and the window of the
    round does not hold the identifier. *)
Definition forgets (address : string) (c : channel) (ans : answers) (st : state)
    (id : string) : Prop :=
  (MAX_SEEN_HASHES < size (additions address c ans st))%nat
  /\ id ∉ window_of address c ans.

(** The event is an alert of the channel for the identifier. *)
Definition alerts_on (c : channel) (id : string) (ev : event) : Prop :=
  match c, ev with
  | Transfers t _, TransferAlert t' tx _ _ => t' = t /\ tx !! "hash" = Some id
  | Supplies, SupplyAlert decoded _ _ => tx_hash decoded = id
  | _, _ => False
  end.

Global Instance alerts_on_dec c id ev : Decision (alerts_on c id ev).
Proof. destruct c, ev; cbn; apply _. Defined.

(** No round of the run forgets the identifier. *)
Fixpoint never_forgotten (address : string) (watch_aave : bool) (c : channel)
    (id : string) (inputs : list answers) (st : state) : Prop :=
  match inputs with
  | [] => True
  | ans :: rest =>
      ~ forgets address c ans st id
      /\ match poll_round address watch_aave ans st with
         | Ok (st', _) => never_forgotten address watch_aave c id rest st'
         | Raise _ => True
         end
  end.

(** The claim that an identifier once in a Seen Set is never alerted on
    again, whatever rounds come in between. *)
Definition dedup_claim : Prop :=
  forall address watch_aave block c id earlier later st out0 st' out,
    polled watch_aave c ->
    rounds address watch_aave earlier (initial_state watch_aave block)
      = Ok (st, out0) ->
    id ∈ seen_of c st ->
    rounds address watch_aave later st = Ok (st', out) ->
    Forall (fun ev => ~ alerts_on c id ev) out.

(** ** The amount as the design document words it *)

(** A non-empty string of decimal digits that denotes [n]. *)
Definition digit_string (raw : string) (n : Z) : Prop :=
  PyStr.chars raw ≠ []
  /\ Forall (fun c => PyStr.is_digit c = true) (PyStr.chars raw)
  /\ PyInt.of_digits (PyStr.chars raw) = n.

(** The decimals count: the integer that the argument denotes, and 18
    when it denotes none. *)
Definition decimals_of (d : pyarg) : Z :=
  match int_of_arg d with
  | Ok k => k
  | Raise _ => 18
  end.

Fixpoint drop_zeros (l : list ascii) : list ascii :=
  match l with
  | c :: l' => if PyStr.code c =? 48 then drop_zeros l' else l
  | [] => []
  end.

(** Trailing zeros stripped. *)
Definition rstrip_zeros (l : list ascii) : list ascii :=
  reverse (drop_zeros (reverse l)).

(** A trailing decimal point stripped. *)
Definition rstrip_point (l : list ascii) : list ascii :=
  match reverse l with
  | c :: r => if PyStr.code c =? 46 then reverse r else l
  | [] => l
  end.

(** [n / 10^k] in positional notation: the integer part, a point and
    [k] fractional digits, then trailing zeros and a trailing point
    stripped. *)
Definition positional (n k : Z) : string :=
  PyStr.of_chars
    (rstrip_point
       (rstrip_zeros
          (PyInt.digits (n / 10 ^ k)
           ++ "."%char :: PyInt.low_digits (Z.to_nat k) (n mod 10 ^ k)))).

(** The claim that the formatter returns the positional rendering of
    [raw / 10^d], and [raw] itself when [d] is 0. *)
Definition rendering_claim (raw : string) (d : pyarg) : Prop :=
  forall n,
    digit_string raw n ->
    format_token_amount raw d
      = Ok (if decimals_of d =? 0 then raw else positional n (decimals_of d)).

(** Amounts on which the formatter is tried. *)
Definition one_ether : string := "1000000000000000000".
Definition one_and_a_half_ether : string := "1500000000000000000".
Definition twenty_nine_digits : string := "12345678901234567890123456789".
Definition its_neighbour : string := "12345678901234567890123456790".

(** ** Records that the loop handles, and what it emits *)

(** The coefficient and the exponent are within the context: [_fix]
    leaves such a number as it is. *)
Definition in_context (int_ : list ascii) (exp : Z) : Prop :=
  PyDecimal.len int_ <= PyDecimal.prec
  /\ PyDecimal.Etiny <= exp
  /\ PyDecimal.len int_ + exp - PyDecimal.prec <= PyDecimal.Etop.

(** A string of decimal digits. *)
Definition all_digits (l : list ascii) : Prop :=
  Forall (fun c => PyStr.is_digit c = true) l.

(** A transfer that a round handles without failure: it carries a hash,
    its amount ("0" when absent) is a string of decimal digits that [int]
    accepts, at most 4300 of them, and its decimals count (18 when absent
    or not a number) is between 0 and 999999. *)
Definition well_formed_transfer (tx : record) : Prop :=
  has_hash tx
  /\ (exists n, digit_string (get tx "value" "0") n)
  /\ PyStr.len (get tx "value" "0") <= PyInt.max_str_digits
  /\ 0 <= decimals_of (AStr (get tx "tokenDecimal" "18")) < 1000000.

(** A log that a round handles without failure: its block number ("0x0"
    when absent) is hexadecimal, and so is the second word of its payload
    when the payload holds one. *)
Definition well_formed_log (log : record) : Prop :=
  has_block log
  /\ (PyStr.len (get log "data" "0x") < 130
      \/ is_Some (PyInt.parse16 (PyStr.slice 66 130 (get log "data" "0x")))).

(** Every query of the round that succeeds returns a list of well-formed
    records; the queries may fail, and the sender lookups may answer
    anything. *)
Definition well_formed_answers (ans : answers) : Prop :=
  (forall act,
      match fetch_transfers (transfers_of ans act) act with
      | (Some v, _) =>
          exists l, as_records v = Ok l /\ Forall well_formed_transfer l
      | (None, _) => True
      end)
  /\ match fetch_aave_supply_logs (logs_answer ans) with
     | (Some v, _) =>
         exists logs, as_records v = Ok logs /\ Forall well_formed_log logs
     | (None, _) => True
     end.

(** No event of the output is an alert. *)
Definition quiet (out : list event) : Prop :=
  Forall (fun ev => is_alert ev = false) out.

(** What justifies an event of the output.  A transfer alert is for a
    transfer received by the monitored address, and carries the text that
    [print_transfer] gives for it and the sound of its type; an alert of
    the protocol channel is emitted only when the channel is watched, for
    a log that carries a transaction hash. *)
Definition justified (address : string) (watch_aave : bool) (ev : event) : Prop :=
  match ev with
  | Logged _ => True
  | TransferAlert t tx printed sound_path =>
      (exists config, (t, config) ∈ TRANSFER_TYPES /\ sound_path = sound config)
      /\ addressed_to address tx = true
      /\ (t = "ETH" -> not_failed tx = true /\ positive_value tx = true)
      /\ has_hash tx
      /\ print_transfer tx t = Ok printed
  | SupplyAlert decoded printed sound_path =>
      watch_aave = true
      /\ sound_path = AAVE_SOUND
      /\ printed = print_supply_event decoded
      /\ tx_hash decoded <> ""
  end.

(** The two rounds receive the same answers to their transfer queries. *)
Definition same_transfers (a b : answers) : Prop :=
  forall act, transfers_of a act = transfers_of b act.


(** The event is a transfer alert of the type. *)
Definition alert_of_type (t : string) (ev : event) : Prop :=
  match ev with
  | TransferAlert t' _ _ _ => t' = t
  | _ => False
  end.

(** ** Sample data *)

Definition sample_address : string := "0x52908400098527886E0F7030069857D2E4169EE7".

(** Ten ether and one wei, in wei. *)
Definition ten_ether : string := "10000000000000000000".
Definition one_wei : string := "1".

(** A transfer to the sample address, whose recipient is in lower case. *)
Definition transfer_to_us (h : string) : record :=
  list_to_map
    [("hash", h);
     ("from", "0xde0b295669a9fd93d5f28d9ec85e40f4cb697bae");
     ("to", "0x52908400098527886e0f7030069857d2e4169ee7");
     ("value", "1500000000000000000");
     ("isError", "0");
     ("tokenName", "Kitty");
     ("tokenSymbol", "KIT");
     ("tokenDecimal", "18");
     ("tokenID", "7")].

(** Transfers that the filter is tried on: to another address, to the
    sample address in upper case, failed, and of no value. *)
Definition transfer_to_other : record :=
  <["to" := "0xde0b295669a9fd93d5f28d9ec85e40f4cb697bae"]> (transfer_to_us "0xb").

Definition transfer_in_capitals : record :=
  <["to" := "0X52908400098527886E0F7030069857D2E4169EE7"]> (transfer_to_us "0xc").

Definition failed_transfer : record :=
  <["isError" := "1"]> (transfer_to_us "0xd").

Definition empty_transfer : record :=
  <["value" := "0"]> (transfer_to_us "0xe").

(** An amount of 4301 digits, one more than [int] accepts, and a
    transfer of it. *)
Definition long_amount : string := PyStr.of_chars (repeat "1"%char 4301).

Definition overlong_transfer : record :=
  <["value" := long_amount]> (transfer_to_us "0xf").

Definition mixed_window : list record :=
  [transfer_to_us "0xa"; transfer_to_other; transfer_in_capitals;
   failed_transfer; empty_transfer].

Definition ok_body (l : list record) : http_outcome :=
  JsonBody
    (list_to_map [("status", JStr "1"); ("message", JStr "OK"); ("result", JList l)]).

Definition nothing_found : http_outcome :=
  JsonBody
    (list_to_map
       [("status", JStr "0"); ("message", JStr "No transactions found");
        ("result", JList [])]).

(** Answers of a round in which only the NFT query returns transfers. *)
Definition nft_answers (window : list record) : answers :=
  {| transfers_of := fun act =>
       if decide (act = "tokennfttx") then ok_body window else nothing_found;
     logs_answer := nothing_found;
     sender_of := no_answer |}.

Definition numbered_hash (n : nat) : string := "0x" +:+ PyInt.str (Z.of_nat n).

(** The [k]-th page of ten transfers with numbered hashes. *)
Definition page (k : nat) : answers :=
  nft_answers ((fun n => transfer_to_us (numbered_hash n)) <$> seq (10 * k) 10).

Definition nft_channel : channel :=
  Transfers "NFT"
    {| action := "tokennfttx"; sound := "/System/Library/Sounds/Funk.aiff" |}.

(** A run that seeds the identifier ["0xa"], then meets a thousand other
    identifiers in a hundred rounds, then meets ["0xa"] again. *)
Definition seeding_run : list answers := [nft_answers [transfer_to_us "0xa"]].
Definition long_run : list answers :=
  (page <$> seq 0 100) ++ [nft_answers [transfer_to_us "0xa"]].

(** A window of three transfers, newest first, and a state in which the
    two oldest have been seen. *)
Definition sample_window : list record :=
  [transfer_to_us "0xc"; transfer_to_us "0xa"; transfer_to_us "0xb"].

Definition nft_config : type_config :=
  {| action := "tokennfttx"; sound := "/System/Library/Sounds/Funk.aiff" |}.

Definition seeded_state : state :=
  {| seen := <["NFT" := {["0xa"; "0xb"]}]> (seen (initial_state false None));
     first_run := false;
     aave_seen := ∅;
     aave_from_block := 0 |}.

(** The state after a seeding round on the sample window. *)
Definition after_seeding : state :=
  {| seen := <["NFT" := {["0xa"; "0xb"; "0xc"]}]> (seen (initial_state false None));
     first_run := false;
     aave_seen := ∅;
     aave_from_block := 0 |}.

(** A transfer whose amount is not a decimal integer, and the answers of
    a round in which the ETH query returns it. *)
Definition hex_amount_transfer : record :=
  <["value" := "0x10"]> (transfer_to_us "0xd").

Definition hex_amount_answers : answers :=
  {| transfers_of := fun act =>
       if decide (act = "txlist") then ok_body [hex_amount_transfer]
       else nothing_found;
     logs_answer := nothing_found;
     sender_of := no_answer |}.

(** A token transfer whose amount is empty, and a transfer without hash. *)
Definition empty_amount_answers : answers :=
  {| transfers_of := fun act =>
       if decide (act = "tokentx")
       then ok_body [<["value" := ""]> (transfer_to_us "0xe")]
       else nothing_found;
     logs_answer := nothing_found;
     sender_of := no_answer |}.

Definition no_hash_answers : answers :=
  {| transfers_of := fun act =>
       if decide (act = "tokennfttx")
       then ok_body [delete "hash" (transfer_to_us "0xf")]
       else nothing_found;
     logs_answer := nothing_found;
     sender_of := no_answer |}.

Definition seeded : result (state * list event) :=
  rounds sample_address false seeding_run (initial_state false None).

(** The sample address in lower case. *)
Definition lowercase_sample_address : string :=
  "0x52908400098527886e0f7030069857d2e4169ee7".

(** A log with both words of the payload: the depositor and the amount
    of one ether and a half. *)
Definition full_log : record :=
  list_to_map
    [("transactionHash", "0xfeed");
     ("blockNumber", "0x10");
     ("data",
      "0x000000000000000000000000d322a49006fc828f9b5b37ab215f99b4e5cab19c"
      +:+ "00000000000000000000000000000000000000000000000014d1120d7b160000")].

(** Answers of a round in which every query fails. *)
Definition failing_answers : answers :=
  {| transfers_of := fun _ => RequestFailed;
     logs_answer := RequestFailed;
     sender_of := no_answer |}.

(** The answers of [nft_answers], with a log that the round does not ask for. *)
Definition nft_answers_with_log (window : list record) : answers :=
  {| transfers_of := transfers_of (nft_answers window);
     logs_answer := ok_body [one_word_log];
     sender_of := no_answer |}.

(** An answer to [eth_blockNumber]: block 20000000. *)
Definition current_block_body : http_outcome :=
  JsonBody (list_to_map [("jsonrpc", JStr "2.0"); ("result", JStr "0x1312d00")]).

(** Answers of a round in which only the log query returns records. *)
Definition supply_answers (logs : list record) : answers :=
  {| transfers_of := fun _ => nothing_found;
     logs_answer := ok_body logs;
     sender_of := no_answer |}.

(** * Properties *)

(** ** Python's conversions on examples *)

Example int_examples :
  PyInt.int " +1_000 " = Ok 1000 /\ PyInt.int "-42" = Ok (-42)
  /\ PyInt.int "0x10" = Raise ValueError /\ PyInt.int "" = Raise ValueError
  /\ PyInt.int "1__0" = Raise ValueError /\ PyInt.int16 "0x1F" = Ok 31
  /\ PyInt.int16 "ff" = Ok 255 /\ PyInt.int16 "0x" = Raise ValueError
  /\ PyInt.str 1203 = "1203"%string /\ PyInt.str 0 = "0"%string
  /\ PyInt.str (-70) = "-70"%string.
Proof. repeat split; reflexivity. Qed.

(** ** Reading results *)

Lemma bind_Ok {A B : Type} (m : result A) (k : A -> result B) (b : B) :
  m ≫= k = Ok b <-> exists a, m = Ok a /\ k a = Ok b.
Proof.
  destruct m as [a|e]; simpl.
  - split; [eauto | intros (a' & [= <-] & H); exact H].
  - split; [discriminate | intros (a' & [=] & _)].
Qed.

Ltac inv_ok :=
  repeat match goal with
  | H : _ ≫= _ = Ok _ |- _ =>
      apply bind_Ok in H; destruct H as (? & ? & H)
  | H : Ok _ = Ok _ |- _ => injection H as H; subst
  | H : Raise _ = Ok _ |- _ => discriminate H
  | H : (let '(_, _) := ?p in _) = Ok _ |- _ => destruct p
  end.

(** ** The filter *)

Lemma eth_condition_Ok tx b :
  eth_condition tx = Ok b -> b = not_failed tx && positive_value tx.
Proof.
  unfold eth_condition, not_failed, positive_value, PyInt.int.
  destruct (decide (tx !! "isError" = Some "1")) as [He|He].
  - intros [= <-]. by rewrite bool_decide_true.
  - rewrite bool_decide_false by done.
    destruct (PyInt.parse10 _); simpl; [|discriminate]. by intros [= <-].
Qed.

Lemma eth_condition_Raise tx e :
  eth_condition tx = Raise e ->
  e = ValueError /\ not_failed tx = true
  /\ PyInt.parse10 (get tx "value" "0") = None.
Proof.
  unfold eth_condition, not_failed, PyInt.int.
  destruct (decide (tx !! "isError" = Some "1")) as [He|He]; [discriminate|].
  rewrite bool_decide_false by done.
  destruct (PyInt.parse10 _); simpl; [discriminate|]. by intros [= <-].
Qed.

(** The second comprehension of [filter_incoming]: its result, and the
    only way it raises. *)
Lemma filter_raising_eth (l : list record) :
  match filter_raising eth_condition l with
  | Ok r => r = List.filter (fun tx => not_failed tx && positive_value tx) l
  | Raise e =>
      e = ValueError
      /\ exists tx, tx ∈ l /\ not_failed tx = true
                   /\ PyInt.parse10 (get tx "value" "0") = None
  end.
Proof.
  induction l as [|tx l IH]; simpl; [reflexivity|].
  destruct (eth_condition tx) as [b|e] eqn:Hc; simpl.
  - apply eth_condition_Ok in Hc as ->.
    destruct (filter_raising eth_condition l) as [r|e]; simpl.
    + rewrite IH. reflexivity.
    + destruct IH as (-> & y & Hy & Hy'). split; [reflexivity|].
      exists y. split; [by apply list_elem_of_further | exact Hy'].
  - apply eth_condition_Raise in Hc as (-> & Hnf & Hv).
    split; [reflexivity|]. exists tx. split; [apply list_elem_of_here | done].
Qed.

Lemma filter_filter_andb {A : Type} (f g : A -> bool) (l : list A) :
  List.filter f (List.filter g l) = List.filter (fun x => g x && f x) l.
Proof.
  induction l as [|x l IH]; simpl; [reflexivity|].
  destruct (g x); simpl; [destruct (f x)|]; by rewrite IH.
Qed.

(** The two comprehensions of [filter_incoming] as one filter, with the
    comparison of the recipient as the code writes it, on the lower-case
    forms. *)
Lemma filter_incoming_outcome
    (transfers : list record) (address transfer_type : string) :
  match filter_incoming transfers address transfer_type with
  | Ok incoming =>
      incoming =
        List.filter
          (fun tx =>
             addressed_to address tx
             && (if decide (transfer_type = "ETH")
                 then not_failed tx && positive_value tx else true))
          transfers
      /\ (transfer_type = "ETH" ->
          forall tx, tx ∈ incoming ->
            tx !! "isError" ≠ Some "1" /\ tx !! "value" ≠ Some "0")
  | Raise e =>
      transfer_type = "ETH" /\ e = ValueError
      /\ exists tx, tx ∈ transfers /\ addressed_to address tx = true
                   /\ not_failed tx = true
                   /\ PyInt.parse10 (get tx "value" "0") = None
  end.
Proof.
  unfold filter_incoming.
  destruct (decide (transfer_type = "ETH")) as [->|Hne].
  - pose proof (filter_raising_eth
                  (List.filter (to_matches (PyStr.lower address)) transfers)) as H.
    destruct (filter_raising _ _) as [r|e].
    + subst r. rewrite filter_filter_andb. split; [reflexivity|].
      intros _ tx Htx. apply list_elem_of_In, filter_In in Htx as [_ Htx].
      apply andb_prop in Htx as [_ Htx]. apply andb_prop in Htx as [Hnf Hpos].
      split.
      * unfold not_failed in Hnf. apply negb_true_iff in Hnf.
        by apply bool_decide_eq_false in Hnf.
      * intros Hv. unfold positive_value, get in Hpos. rewrite Hv in Hpos.
        vm_compute in Hpos. discriminate.
    + destruct H as (-> & tx & Htx & Hnf & Hv). repeat split.
      apply list_elem_of_In, filter_In in Htx as [Htx Hto].
      exists tx. repeat split; [by apply list_elem_of_In | exact Hto | done | done].
  - split; [|done]. apply filter_ext_in. intros tx _.
    unfold to_matches, addressed_to. by rewrite andb_true_r.
Qed.

(** *** Letter case *)

Lemma code_lower_char (c : ascii) :
  PyStr.code (PyStr.lower_char c)
  = if PyStr.is_upper c then PyStr.code c + 32 else PyStr.code c.
Proof.
  unfold PyStr.lower_char. destruct (PyStr.is_upper c) eqn:Hu; [|reflexivity].
  unfold PyStr.is_upper, PyStr.code in *.
  rewrite nat_ascii_embedding by lia. lia.
Qed.

Lemma code_inj (a b : ascii) : PyStr.code a = PyStr.code b -> a = b.
Proof.
  unfold PyStr.code. intros H. apply Nat2Z.inj in H.
  rewrite <- (ascii_nat_embedding a), <- (ascii_nat_embedding b).
  by rewrite H.
Qed.

(** Two characters have the same lower-case form exactly when they are
    the same letter. *)
Lemma lower_char_same_letter (a b : ascii) :
  PyStr.lower_char a = PyStr.lower_char b <-> same_letter a b = true.
Proof.
  split.
  - intros H. apply (f_equal PyStr.code) in H. rewrite !code_lower_char in H.
    unfold same_letter.
    destruct (PyStr.is_upper a) eqn:Ha, (PyStr.is_upper b) eqn:Hb;
      unfold PyStr.is_upper in Ha, Hb; lia.
  - intros H. apply code_inj. rewrite !code_lower_char.
    unfold same_letter in H.
    destruct (PyStr.is_upper a) eqn:Ha, (PyStr.is_upper b) eqn:Hb;
      unfold PyStr.is_upper in Ha, Hb; lia.
Qed.

(** Comparing the lower-case forms, as the code does, is the
    case-insensitive comparison. *)
Lemma lower_eq_ignoring_case (s t : string) :
  PyStr.lower s = PyStr.lower t <-> equal_ignoring_case s t = true.
Proof.
  revert t. induction s as [|a s IH]; intros [|b t]; simpl; try done.
  rewrite andb_true_iff, <- IH, <- lower_char_same_letter.
  split; [intros [= -> ->]; done | intros [-> ->]; done].
Qed.

Lemma addressed_to_ignoring_case (address : string) (tx : record) :
  addressed_to address tx = equal_ignoring_case (get tx "to" "") address.
Proof.
  unfold addressed_to. apply eq_true_iff_eq.
  rewrite bool_decide_eq_true. apply lower_eq_ignoring_case.
Qed.

Lemma mixed_window_filtered :
  filter_incoming mixed_window sample_address "TOKEN"
  = Ok [transfer_to_us "0xa"; transfer_in_capitals; failed_transfer;
        empty_transfer]
  /\ filter_incoming mixed_window sample_address "ETH"
     = Ok [transfer_to_us "0xa"; transfer_in_capitals].
Proof. split; vm_compute; reflexivity. Qed.

(** C9. [filter_incoming] keeps exactly the transfers whose recipient is
    the monitored address under case-insensitive comparison (the same
    characters, an upper-case letter being the same as its lower-case
    form), in the order of the query; for the ETH category it keeps among
    them those that did not fail and whose amount is positive, so that a
    transfer with [isError = "1"] or [value = "0"] is never kept.  It
    raises only in the ETH category, on an addressed transfer whose amount
    is not an integer.  So for the checksummed sample address: a recipient
    written in lower case or in upper case is kept, another recipient is
    dropped, and the ETH category drops the failed and the empty
    transfer, which the other categories keep. *)
Theorem filter_incoming_keeps_incoming
    (transfers : list record) (address transfer_type : string) :
  match filter_incoming transfers address transfer_type with
  | Ok incoming =>
      incoming =
        List.filter
          (fun tx =>
             equal_ignoring_case (get tx "to" "") address
             && (if decide (transfer_type = "ETH")
                 then not_failed tx && positive_value tx else true))
          transfers
      /\ (forall tx, tx ∈ incoming ->
            tx ∈ transfers /\ equal_ignoring_case (get tx "to" "") address = true)
      /\ (transfer_type ≠ "ETH" ->
          forall tx, tx ∈ transfers ->
            equal_ignoring_case (get tx "to" "") address = true ->
            tx ∈ incoming)
      /\ (transfer_type = "ETH" ->
          forall tx, tx ∈ incoming ->
            tx !! "isError" ≠ Some "1" /\ tx !! "value" ≠ Some "0")
  | Raise e =>
      transfer_type = "ETH" /\ e = ValueError
      /\ exists tx, tx ∈ transfers
                   /\ equal_ignoring_case (get tx "to" "") address = true
                   /\ not_failed tx = true
                   /\ PyInt.parse10 (get tx "value" "0") = None
  end
  /\ equal_ignoring_case "0xAbC" "0XaBc" = true
  /\ equal_ignoring_case "0xabc" "0xabd" = false
  /\ equal_ignoring_case "0xabc" "0xabcd" = false
  /\ filter_incoming mixed_window sample_address "TOKEN"
     = Ok [transfer_to_us "0xa"; transfer_in_capitals; failed_transfer;
           empty_transfer]
  /\ filter_incoming mixed_window sample_address "ETH"
     = Ok [transfer_to_us "0xa"; transfer_in_capitals].
Proof.
  split; [|split; [reflexivity|split; [reflexivity|split; [reflexivity|]]];
           exact mixed_window_filtered].
  pose proof (filter_incoming_outcome transfers address transfer_type) as H.
  destruct (filter_incoming transfers address transfer_type) as [incoming|e].
  - destruct H as [Hin Heth].
    assert (incoming =
              List.filter
                (fun tx =>
                   equal_ignoring_case (get tx "to" "") address
                   && (if decide (transfer_type = "ETH")
                       then not_failed tx && positive_value tx else true))
                transfers) as Hfilter.
    { rewrite Hin. apply filter_ext. intros tx.
      by rewrite addressed_to_ignoring_case. }
    split; [exact Hfilter|]. split; [|split; [|exact Heth]].
    + intros tx Htx. rewrite Hfilter in Htx.
      apply list_elem_of_In, filter_In in Htx as [Htx Hc].
      apply andb_prop in Hc as [Hc _]. split; [by apply list_elem_of_In | exact Hc].
    + intros Hne tx Htx Hto. rewrite Hfilter.
      apply list_elem_of_In, filter_In. split; [by apply list_elem_of_In|].
      rewrite Hto. by destruct (decide (transfer_type = "ETH")).
  - destruct H as (Hty & He & tx & Htx & Hto & Hnf & Hv).
    split; [exact Hty|]. split; [exact He|]. exists tx.
    rewrite addressed_to_ignoring_case in Hto. done.
Qed.

(** ** The decoder *)

(** C7, as the claim states it, fails on a payload of 66 characters: the
    beneficiary is read from the first word. *)
Lemma short_payload_names_beneficiary :
  ~ short_payload_claim one_word_log no_answer.
Proof.
  intros H. destruct H as (ev & Hev & _ & Hu); [by vm_compute|].
  vm_compute in Hev. injection Hev as <-. discriminate Hu.
Qed.

(** C7, amended.  A log whose payload is shorter than 130 characters and
    whose block number is a hexadecimal string is decoded without an
    exception: the amount is 0, displayed as "0"; the beneficiary is
    "unknown" when the payload is shorter than 66 characters, and the
    last 40 characters of the first word otherwise. *)
Theorem decode_short_payload
    (log : record) (sender_of : string -> http_outcome) (bn : Z) :
  PyStr.len (get log "data" "0x") < 130 ->
  PyInt.int16 (get log "blockNumber" "0x0") = Ok bn ->
  exists ev,
    decode_supply_event log sender_of = Ok ev
    /\ amount_display ev = "0"
    /\ block_number ev = bn
    /\ user ev =
         if 66 <=? PyStr.len (get log "data" "0x")
         then "0x" +:+ PyStr.slice 26 66 (get log "data" "0x")
         else "unknown".
Proof.
  intros Hlen Hbn. unfold decode_supply_event.
  destruct (130 <=? PyStr.len (get log "data" "0x")) eqn:Hge; [lia|].
  assert (Hfmt : format_token_amount (PyInt.str 0) (AStr "18") = Ok "0")
    by (vm_compute; reflexivity).
  cbn [mbind result_bind]. rewrite Hfmt. cbn [mbind result_bind].
  rewrite Hbn. cbn [mbind result_bind].
  eexists. split; [reflexivity|]. simpl. auto.
Qed.

Lemma decode_short_payload_witness :
  PyStr.len (get one_word_log "data" "0x") < 130
  /\ PyInt.int16 (get one_word_log "blockNumber" "0x0") = Ok 16
  /\ exists ev,
       decode_supply_event one_word_log no_answer = Ok ev
       /\ amount_display ev = "0"
       /\ block_number ev = 16
       /\ user ev =
            if 66 <=? PyStr.len (get one_word_log "data" "0x")
            then "0x" +:+ PyStr.slice 26 66 (get one_word_log "data" "0x")
            else "unknown".
Proof.
  split; [by vm_compute|]. split; [by vm_compute|].
  apply (decode_short_payload one_word_log no_answer 16); by vm_compute.
Defined.

(** ** The loops of a transfer round *)

Lemma has_hash_cons (tx : record) (rest : list record) (h : string) :
  tx !! "hash" = Some h -> Forall has_hash (tx :: rest) <-> Forall has_hash rest.
Proof.
  intros Hh. split; [intros H; by inversion H|].
  intros H. constructor; [by exists h | done].
Qed.

Lemma has_hash_missing (tx : record) (rest : list record) :
  tx !! "hash" = None -> ~ Forall has_hash (tx :: rest).
Proof. intros Hh H. inversion H as [|? ? [h Hh'] ?]. congruence. Qed.

Lemma id_set_cons (tx : record) (rest : list record) (h : string) :
  tx !! "hash" = Some h -> id_set (tx :: rest) = {[h]} ∪ id_set rest.
Proof. intros Hh. unfold id_set, ids. simpl. rewrite Hh. set_solver. Qed.

Lemma id_set_nil : id_set [] = ∅.
Proof. reflexivity. Qed.

Lemma seed_spec (incoming : list record) (seen_t : gset string) :
  seed incoming seen_t =
    if decide (Forall has_hash incoming) then Ok (id_set incoming ∪ seen_t)
    else Raise KeyError.
Proof.
  revert seen_t. induction incoming as [|tx rest IH]; intros seen_t; cbn [seed].
  - case_decide as H; [|by destruct H]. rewrite id_set_nil. f_equal. set_solver.
  - destruct (tx !! "hash") as [h|] eqn:Hh.
    + rewrite IH, (id_set_cons _ _ _ Hh).
      pose proof (has_hash_cons tx rest h Hh) as Hc.
      repeat case_decide; try tauto. f_equal. set_solver.
    + pose proof (has_hash_missing tx rest Hh).
      destruct (decide (Forall has_hash (tx :: rest))); [tauto | reflexivity].
Qed.

Lemma collect_new_spec (incoming : list record) (seen_t : gset string)
    (acc : list record) :
  collect_new incoming seen_t acc =
    if decide (Forall has_hash incoming)
    then Ok (acc ++ fresh incoming seen_t, id_set incoming ∪ seen_t)
    else Raise KeyError.
Proof.
  revert seen_t acc.
  induction incoming as [|tx rest IH]; intros seen_t acc; cbn [collect_new fresh].
  - case_decide as H; [|by destruct H]. rewrite id_set_nil, app_nil_r.
    do 2 f_equal. set_solver.
  - destruct (tx !! "hash") as [h|] eqn:Hh.
    + pose proof (has_hash_cons tx rest h Hh) as Hc.
      rewrite (id_set_cons _ _ _ Hh).
      destruct (decide (h ∈ seen_t)) as [Hin|Hnin]; rewrite IH;
        repeat case_decide; try tauto.
      * do 2 f_equal. set_solver.
      * rewrite <- app_assoc. simpl. do 2 f_equal. set_solver.
    + pose proof (has_hash_missing tx rest Hh).
      destruct (decide (Forall has_hash (tx :: rest))); [tauto | reflexivity].
Qed.

Lemma alert_all_Ok txs transfer_type sound_path out :
  alert_all txs transfer_type sound_path = Ok out <->
  Forall2 (alert_for transfer_type sound_path) txs out.
Proof.
  revert out. induction txs as [|tx rest IH]; intros out; simpl.
  - split; [intros [= <-]; constructor | intros H; by inversion H].
  - split.
    + intros H. inv_ok. constructor; [by eexists | by apply IH].
    + intros H. inversion H as [|? ev ? out' (printed & Hp & ->) Hrest]; subst.
      rewrite Hp. simpl. apply IH in Hrest. rewrite Hrest. reflexivity.
Qed.

(** ** The new records of a window *)

Lemma fresh_ids (incoming : list record) (seen_t : gset string) (h : string) :
  h ∈ ids (fresh incoming seen_t) <-> h ∈ ids incoming /\ h ∉ seen_t.
Proof.
  revert seen_t. induction incoming as [|tx rest IH]; intros seen_t; simpl.
  - unfold ids; simpl. set_solver.
  - unfold ids in *; simpl. destruct (tx !! "hash") as [h'|] eqn:Hh; [|apply IH].
    destruct (decide (h' ∈ seen_t)) as [Hin|Hnin].
    + rewrite IH. set_solver.
    + simpl. rewrite Hh. rewrite elem_of_cons, IH.
      destruct (decide (h = h')); set_solver.
Qed.

Lemma fresh_NoDup (incoming : list record) (seen_t : gset string) :
  NoDup (ids (fresh incoming seen_t)).
Proof.
  revert seen_t. induction incoming as [|tx rest IH]; intros seen_t; simpl.
  - constructor.
  - destruct (tx !! "hash") as [h|] eqn:Hh; [|apply IH].
    destruct (decide (h ∈ seen_t)) as [Hin|Hnin]; [apply IH|].
    unfold ids; simpl. rewrite Hh. constructor; [|apply IH].
    intros Hc. apply fresh_ids in Hc. set_solver.
Qed.

Lemma fresh_sublist (incoming : list record) (seen_t : gset string) :
  sublist (fresh incoming seen_t) incoming.
Proof.
  revert seen_t. induction incoming as [|tx rest IH]; intros seen_t; simpl.
  - constructor.
  - destruct (tx !! "hash") as [h|]; [|by apply sublist_cons].
    destruct (decide (h ∈ seen_t)); [by apply sublist_cons | by apply sublist_skip].
Qed.

Lemma fresh_has_hash (incoming : list record) (seen_t : gset string) :
  Forall has_hash (fresh incoming seen_t).
Proof.
  revert seen_t. induction incoming as [|tx rest IH]; intros seen_t; simpl.
  - constructor.
  - destruct (tx !! "hash") as [h|] eqn:Hh; [|apply IH].
    destruct (decide (h ∈ seen_t)); [apply IH|].
    constructor; [by exists h | apply IH].
Qed.

Lemma ids_length (l : list record) : Forall has_hash l -> length (ids l) = length l.
Proof.
  induction 1 as [|tx l [h Hh] _ IH]; [reflexivity|].
  unfold ids in *; simpl. rewrite Hh. simpl. f_equal. exact IH.
Qed.

(** The number of new records is the number of identifiers of the window
    that are not in the Seen Set. *)
Lemma fresh_length (incoming : list record) (seen_t : gset string) :
  length (fresh incoming seen_t) = size (id_set incoming ∖ seen_t).
Proof.
  rewrite <- (ids_length _ (fresh_has_hash incoming seen_t)).
  assert (H : id_set incoming ∖ seen_t = list_to_set (ids (fresh incoming seen_t))).
  { apply set_eq. intros h. rewrite elem_of_difference, elem_of_list_to_set.
    unfold id_set. rewrite elem_of_list_to_set. symmetry. apply fresh_ids. }
  rewrite H. symmetry. apply size_list_to_set, fresh_NoDup.
Qed.

Lemma alert_all_Raise txs transfer_type sound_path e :
  alert_all txs transfer_type sound_path = Raise e ->
  exists tx, tx ∈ txs /\ print_transfer tx transfer_type = Raise e.
Proof.
  induction txs as [|tx rest IH]; simpl; [discriminate|].
  destruct (print_transfer tx transfer_type) as [printed|e'] eqn:Hp; simpl.
  - destruct (alert_all rest transfer_type sound_path) as [more|e'']; simpl;
      [discriminate|].
    intros [= ->]. destruct IH as (y & Hy & Hpy); [reflexivity|].
    exists y. split; [by apply list_elem_of_further | exact Hpy].
  - intros [= ->]. exists tx. split; [apply list_elem_of_here | exact Hp].
Qed.

(** ** One round of a transfer channel *)

Lemma fetch_transfers_quiet resp act v log :
  fetch_transfers resp act = (Some v, log) -> log = [].
Proof.
  unfold fetch_transfers. destruct resp as [| |data]; try discriminate.
  destruct (negb (status_is_1 data)); [|by intros [= _ <-]].
  destruct (message_contains _ _); [by intros [= _ <-] | discriminate].
Qed.

(** A failed query skips the round. *)
Lemma transfer_round_skipped address transfer_type config first resp seen_t log :
  fetch_transfers resp (action config) = (None, log) ->
  transfer_round address transfer_type config first resp seen_t
    = Ok (seen_t, Logged <$> log).
Proof. intros H. unfold transfer_round. by rewrite H. Qed.

(** A round whose query succeeds, in terms of its surviving results. *)
Lemma transfer_round_success
    address transfer_type config first resp seen_t v log l incoming :
  fetch_transfers resp (action config) = (Some v, log) ->
  as_records v = Ok l ->
  filter_incoming l address transfer_type = Ok incoming ->
  transfer_round address transfer_type config first resp seen_t =
    if decide (Forall has_hash incoming) then
      alerts ← (if first then Ok []
                else alert_all (reverse (fresh incoming seen_t))
                       transfer_type (sound config));
      Ok (bounded (id_set incoming) (id_set incoming ∪ seen_t), alerts)
    else Raise KeyError.
Proof.
  intros Hf Hv Hi. unfold transfer_round.
  rewrite Hf, (fetch_transfers_quiet _ _ _ _ Hf), Hv. cbn [mbind result_bind].
  rewrite Hi. cbn [mbind result_bind].
  unfold hash_set. destruct first.
  - rewrite !seed_spec.
    destruct (decide (Forall has_hash incoming)); [|reflexivity].
    cbn [mbind result_bind]. unfold bounded.
    destruct (decide _); cbn [mbind result_bind fmap list_fmap app];
      [|reflexivity].
    do 2 f_equal. set_solver.
  - rewrite collect_new_spec, seed_spec.
    destruct (decide (Forall has_hash incoming)); [|reflexivity].
    cbn [mbind result_bind app].
    destruct (alert_all _ _ _) as [alerts|e]; [|reflexivity].
    cbn [mbind result_bind]. unfold bounded.
    destruct (decide _); cbn [mbind result_bind fmap list_fmap app];
      [|reflexivity].
    do 2 f_equal. set_solver.
Qed.

(** C1. In a steady-phase round of a transfer channel whose query
    succeeds, the alerts are those of the new records, the records of the
    surviving results that carry an identifier absent from the Seen Set
    for the first time: one alert per new record, as many as there are
    such identifiers, in the reverse of the query order, and every new
    identifier is in the Seen Set after the round.  The round raises only
    on a record without identifier or on a record that cannot be
    printed. *)
Theorem steady_round_alerts
    address transfer_type config resp seen_t v log l incoming :
  fetch_transfers resp (action config) = (Some v, log) ->
  as_records v = Ok l ->
  filter_incoming l address transfer_type = Ok incoming ->
  match transfer_round address transfer_type config false resp seen_t with
  | Ok (seen', alerts) =>
      exists new_transfers,
        Forall2 (alert_for transfer_type (sound config))
          (reverse new_transfers) alerts
        /\ sublist new_transfers incoming
        /\ NoDup (ids new_transfers)
        /\ (forall h, h ∈ ids new_transfers <-> h ∈ ids incoming /\ h ∉ seen_t)
        /\ length alerts = size (id_set incoming ∖ seen_t)
        /\ (forall h, h ∈ ids incoming -> h ∉ seen_t -> h ∈ seen')
  | Raise e =>
      (e = KeyError /\ ~ Forall has_hash incoming)
      \/ exists tx, tx ∈ incoming /\ print_transfer tx transfer_type = Raise e
  end.
Proof.
  intros Hf Hv Hi.
  rewrite (transfer_round_success _ _ _ _ _ _ _ _ _ _ Hf Hv Hi).
  destruct (decide (Forall has_hash incoming)) as [Hh|Hh]; [|by left].
  destruct (alert_all _ _ _) as [alerts|e] eqn:Ha; cbn [mbind result_bind].
  - exists (fresh incoming seen_t). apply alert_all_Ok in Ha.
    split; [exact Ha|]. split; [apply fresh_sublist|].
    split; [apply fresh_NoDup|]. split; [apply fresh_ids|]. split.
    + rewrite <- (Forall2_length _ _ _ Ha), length_reverse. apply fresh_length.
    + intros h Hin Hnin. unfold bounded.
      assert (h ∈ id_set incoming) by (unfold id_set; set_solver).
      destruct (decide _); set_solver.
  - right. apply alert_all_Raise in Ha as (tx & Htx & Hp).
    exists tx. split; [|exact Hp].
    rewrite elem_of_reverse in Htx.
    eapply elem_of_sublist; [exact Htx | apply fresh_sublist].
Qed.

Lemma steady_round_alerts_witness :
  fetch_transfers (ok_body sample_window) (action nft_config)
    = (Some (JList sample_window), [])
  /\ as_records (JList sample_window) = Ok sample_window
  /\ filter_incoming sample_window sample_address "NFT" = Ok sample_window
  /\ match transfer_round sample_address "NFT" nft_config false
             (ok_body sample_window) {["0xa"; "0xb"]} with
     | Ok (seen', alerts) =>
         exists new_transfers,
           Forall2 (alert_for "NFT" (sound nft_config))
             (reverse new_transfers) alerts
           /\ sublist new_transfers sample_window
           /\ NoDup (ids new_transfers)
           /\ (forall h, h ∈ ids new_transfers <->
                          h ∈ ids sample_window /\ h ∉ ({["0xa"; "0xb"]} : gset string))
           /\ length alerts = size (id_set sample_window ∖ {["0xa"; "0xb"]})
           /\ (forall h, h ∈ ids sample_window ->
                          h ∉ ({["0xa"; "0xb"]} : gset string) -> h ∈ seen')
     | Raise e =>
         (e = KeyError /\ ~ Forall has_hash sample_window)
         \/ exists tx, tx ∈ sample_window /\ print_transfer tx "NFT" = Raise e
     end.
Proof.
  assert (Hf : fetch_transfers (ok_body sample_window) (action nft_config)
               = (Some (JList sample_window), []))
    by (vm_cast_no_check (eq_refl (Some (JList sample_window), @nil string))).
  assert (Hi : filter_incoming sample_window sample_address "NFT" = Ok sample_window)
    by (vm_cast_no_check (eq_refl (Ok sample_window))).
  pose proof (steady_round_alerts sample_address "NFT" nft_config
                (ok_body sample_window) {["0xa"; "0xb"]}
                (JList sample_window) [] sample_window sample_window
                Hf eq_refl Hi) as H.
  split; [exact Hf|]. split; [exact eq_refl|]. split; [exact Hi|]. exact H.
Defined.

(** ** One round of the protocol channel *)

Lemma fetch_logs_quiet resp v log :
  fetch_aave_supply_logs resp = (Some v, log) -> log = [].
Proof.
  unfold fetch_aave_supply_logs. destruct resp as [| |data]; try discriminate.
  destruct (negb (status_is_1 data)); [|by intros [= _ <-]].
  destruct (_ || _); [by intros [= _ <-] | discriminate].
Qed.

Lemma collect_events_spec (logs : list record) (seen_a : gset string)
    (acc : list record) :
  collect_events logs seen_a acc =
    (acc ++ fresh_events logs seen_a, (log_hashes logs ∖ {[""]}) ∪ seen_a).
Proof.
  revert seen_a acc.
  induction logs as [|log rest IH]; intros seen_a acc;
    cbn [collect_events fresh_events].
  - rewrite app_nil_r. f_equal. unfold log_hashes. set_solver.
  - fold (log_id log).
    assert (Hids : log_hashes (log :: rest) = {[log_id log]} ∪ log_hashes rest)
      by reflexivity.
    rewrite Hids. destruct (decide _) as [[Hne Hnin]|Hno]; rewrite IH.
    + rewrite <- app_assoc. simpl. f_equal. set_solver.
    + f_equal. apply not_and_l in Hno as [Hno|Hno].
      * apply dec_stable in Hno. rewrite Hno. set_solver.
      * apply dec_stable in Hno. set_solver.
Qed.

Lemma alert_events_Ok logs sender_of out :
  alert_events logs sender_of = Ok out <->
  Forall2 (supply_alert_for sender_of) logs out.
Proof.
  revert out. induction logs as [|log rest IH]; intros out; simpl.
  - split; [intros [= <-]; constructor | intros H; by inversion H].
  - split.
    + intros H. inv_ok. constructor; [by eexists | by apply IH].
    + intros H. inversion H as [|? ev ? out' (decoded & Hd & ->) Hrest]; subst.
      rewrite Hd. simpl. apply IH in Hrest. rewrite Hrest. reflexivity.
Qed.

Lemma alert_events_Raise logs sender_of e :
  alert_events logs sender_of = Raise e ->
  exists log, log ∈ logs /\ decode_supply_event log sender_of = Raise e.
Proof.
  induction logs as [|log rest IH]; simpl; [discriminate|].
  destruct (decode_supply_event log sender_of) as [decoded|e'] eqn:Hd; simpl.
  - destruct (alert_events rest sender_of) as [more|e'']; simpl; [discriminate|].
    intros [= ->]. destruct IH as (y & Hy & Hdy); [reflexivity|].
    exists y. split; [by apply list_elem_of_further | exact Hdy].
  - intros [= ->]. exists log. split; [apply list_elem_of_here | exact Hd].
Qed.

Lemma fresh_events_ids (logs : list record) (seen_a : gset string) (h : string) :
  h ∈ log_id <$> fresh_events logs seen_a <->
  h ∈ log_id <$> logs /\ h ≠ "" /\ h ∉ seen_a.
Proof.
  revert seen_a. induction logs as [|log rest IH]; intros seen_a; simpl.
  - set_solver.
  - destruct (decide _) as [[Hne Hnin]|Hno].
    + rewrite fmap_cons, !elem_of_cons, IH.
      destruct (decide (h = log_id log)) as [->|]; set_solver.
    + rewrite IH, elem_of_cons. apply not_and_l in Hno as [Hno|Hno].
      * apply dec_stable in Hno. split; [tauto|].
        intros ([->|?] & ? & ?); [congruence | tauto].
      * apply dec_stable in Hno. split; [tauto|].
        intros ([->|?] & ? & ?); [tauto | tauto].
Qed.

Lemma fresh_events_sublist (logs : list record) (seen_a : gset string) :
  sublist (fresh_events logs seen_a) logs.
Proof.
  revert seen_a. induction logs as [|log rest IH]; intros seen_a; simpl.
  - constructor.
  - destruct (decide _); [by apply sublist_skip | by apply sublist_cons].
Qed.

Lemma foldr_max_start (bs : list Z) (x b : Z) :
  foldr Z.max (if x <? b then b else x) bs = Z.max b (foldr Z.max x bs).
Proof.
  assert (Hx : (if x <? b then b else x) = Z.max b x)
    by (destruct (x <? b) eqn:E; lia).
  rewrite Hx. clear Hx. induction bs as [|b' bs IH]; cbn [foldr]; [reflexivity|].
  rewrite IH. lia.
Qed.

(** The loop that advances the cursor: the maximum of the cursor and of
    the block numbers, provided each of them is a hexadecimal string. *)
Lemma advance_spec (logs : list record) (from_block : Z) :
  advance logs from_block =
    if decide (Forall has_block logs)
    then Ok (foldr Z.max from_block (blocks logs))
    else Raise ValueError.
Proof.
  revert from_block.
  induction logs as [|log rest IH]; intros from_block; cbn [advance].
  - destruct (decide (Forall has_block [])) as [?|H]; [reflexivity|].
    destruct H. constructor.
  - unfold PyInt.int16. fold (block_of log).
    destruct (block_of log) as [b|] eqn:Hb; cbn [mbind result_bind].
    + rewrite IH.
      destruct (decide (Forall has_block rest)) as [Hr|Hr];
        destruct (decide (Forall has_block (log :: rest))) as [Hl|Hl].
      * f_equal. unfold blocks. cbn [omap list_omap]. rewrite Hb.
        cbn [foldr]. apply foldr_max_start.
      * destruct Hl. constructor; [by exists b | done].
      * destruct Hr. by inversion Hl.
      * reflexivity.
    + destruct (decide (Forall has_block (log :: rest))) as [Hl|Hl];
        [|reflexivity].
      inversion Hl as [|? ? [b Hb'] ?]. congruence.
Qed.

Lemma aave_round_skipped first ans seen_a from_block log :
  fetch_aave_supply_logs (logs_answer ans) = (None, log) ->
  aave_round first ans seen_a from_block = Ok (seen_a, from_block, Logged <$> log).
Proof. intros H. unfold aave_round. by rewrite H. Qed.

Lemma aave_round_success first ans seen_a from_block v log logs :
  fetch_aave_supply_logs (logs_answer ans) = (Some v, log) ->
  as_records v = Ok logs ->
  aave_round first ans seen_a from_block =
    alerts ← (if first then Ok []
              else alert_events (fresh_events logs seen_a) (sender_of ans));
    from_block' ← advance logs from_block;
    Ok (bounded (log_hashes logs)
          ((if first then log_hashes logs else log_hashes logs ∖ {[""]}) ∪ seen_a),
        from_block', alerts).
Proof.
  intros Hf Hv. unfold aave_round.
  rewrite Hf, (fetch_logs_quiet _ _ _ Hf), Hv. cbn [mbind result_bind].
  destruct first; cbn [mbind result_bind].
  - destruct (advance logs from_block); reflexivity.
  - rewrite collect_events_spec. cbn [app].
    destruct (alert_events _ _); cbn [mbind result_bind]; [|reflexivity].
    destruct (advance logs from_block); reflexivity.
Qed.

(** ** One round of the loop *)

Lemma Forall2_impl_elem {A B : Type} (P Q : A -> B -> Prop) (l : list A)
    (k : list B) :
  Forall2 P l k -> (forall x y, x ∈ l -> P x y -> Q x y) -> Forall2 Q l k.
Proof.
  induction 1 as [|x y l k Hxy _ IH]; intros HPQ; constructor.
  - apply HPQ; [apply list_elem_of_here | exact Hxy].
  - apply IH. intros x' y' Hin. apply HPQ. by apply list_elem_of_further.
Qed.

(** The loop over the transfer types runs the round of each type on the
    Seen Set of that type. *)
Lemma poll_transfers_Ok address types first ans seen_all seen_all' out :
  NoDup types.*1 ->
  poll_transfers address types first ans seen_all = Ok (seen_all', out) ->
  (exists outs,
      out = concat outs
      /\ Forall2
           (fun tc o =>
              transfer_round address tc.1 tc.2 first
                (transfers_of ans (action tc.2)) (seen_all !!! tc.1)
              = Ok (seen_all' !!! tc.1, o))
           types outs)
  /\ (forall t, t ∉ types.*1 -> seen_all' !! t = seen_all !! t).
Proof.
  revert seen_all out.
  induction types as [|[t config] rest IH]; intros seen_all out Hnd H;
    cbn [poll_transfers] in H.
  - injection H as <- <-. split; [|done]. exists []. split; [done | constructor].
  - inv_ok.
    lazymatch goal with
    | Hr : transfer_round _ _ _ _ _ _ = Ok (?s, ?o),
      Hp : poll_transfers _ _ _ _ _ = Ok _ |- _ =>
        rename Hr into Hround; rename Hp into Hpoll; rename s into s0;
        rename o into o0
    end.
    apply NoDup_cons in Hnd as [Hnin Hnd].
    destruct (IH _ _ Hnd Hpoll) as ((outs & -> & Hall) & Hrest).
    assert (Ht : seen_all' !!! t = s0).
    { unfold lookup_total, map_lookup_total. rewrite (Hrest t Hnin).
      by rewrite lookup_insert_eq. }
    split.
    + exists (o0 :: outs). split; [reflexivity|]. constructor.
      * cbn. rewrite Ht. exact Hround.
      * eapply Forall2_impl_elem; [exact Hall|].
        intros [t' c'] o' Hin Heq. cbn in *.
        assert (t ≠ t') as Hne.
        { intros ->. apply Hnin. apply list_elem_of_fmap. by exists (t', c'). }
        unfold lookup_total, map_lookup_total in *.
        by rewrite lookup_insert_ne in Heq.
    + intros t' Hnin'. apply not_elem_of_cons in Hnin' as [Hne Hnin'].
      rewrite (Hrest t' Hnin'). by rewrite lookup_insert_ne.
Qed.

(** What a completed round of a transfer channel did. *)
Lemma transfer_round_inv address transfer_type config first resp seen_t seen' out :
  transfer_round address transfer_type config first resp seen_t = Ok (seen', out) ->
  (exists log,
      fetch_transfers resp (action config) = (None, log)
      /\ seen' = seen_t /\ out = Logged <$> log)
  \/ (exists v l incoming,
         fetch_transfers resp (action config) = (Some v, [])
         /\ as_records v = Ok l
         /\ filter_incoming l address transfer_type = Ok incoming
         /\ Forall has_hash incoming
         /\ seen' = bounded (id_set incoming) (id_set incoming ∪ seen_t)
         /\ if first then out = []
            else Forall2 (alert_for transfer_type (sound config))
                   (reverse (fresh incoming seen_t)) out).
Proof.
  intros H.
  destruct (fetch_transfers resp (action config)) as [[v|] log] eqn:Hf.
  - right. pose proof (fetch_transfers_quiet _ _ _ _ Hf) as ->.
    destruct (as_records v) as [l|e] eqn:Hv;
      [|unfold transfer_round in H; rewrite Hf, Hv in H; discriminate].
    destruct (filter_incoming l address transfer_type) as [incoming|e] eqn:Hi;
      [|unfold transfer_round in H; rewrite Hf, Hv in H;
        cbn [mbind result_bind] in H; rewrite Hi in H; discriminate].
    rewrite (transfer_round_success _ _ _ _ _ _ _ _ _ _ Hf Hv Hi) in H.
    destruct (decide (Forall has_hash incoming)) as [Hh|]; [|discriminate].
    exists v, l, incoming. repeat (split; [done|]).
    destruct first; cbn [mbind result_bind] in H.
    + injection H as <- <-. done.
    + destruct (alert_all _ _ _) as [alerts|] eqn:Ha; [|discriminate].
      cbn [mbind result_bind] in H. injection H as <- <-.
      split; [done|]. by apply alert_all_Ok.
  - left. rewrite (transfer_round_skipped _ _ _ _ _ _ _ Hf) in H.
    injection H as <- <-. by exists log.
Qed.

(** What a completed round of the protocol channel did. *)
Lemma aave_round_inv first ans seen_a from_block seen' from_block' out :
  aave_round first ans seen_a from_block = Ok (seen', from_block', out) ->
  (exists log,
      fetch_aave_supply_logs (logs_answer ans) = (None, log)
      /\ seen' = seen_a /\ from_block' = from_block /\ out = Logged <$> log)
  \/ (exists v logs,
         fetch_aave_supply_logs (logs_answer ans) = (Some v, [])
         /\ as_records v = Ok logs
         /\ Forall has_block logs
         /\ from_block' = foldr Z.max from_block (blocks logs)
         /\ seen' =
              bounded (log_hashes logs)
                ((if first then log_hashes logs else log_hashes logs ∖ {[""]})
                 ∪ seen_a)
         /\ if first then out = []
            else Forall2 (supply_alert_for (sender_of ans))
                   (fresh_events logs seen_a) out).
Proof.
  intros H.
  destruct (fetch_aave_supply_logs (logs_answer ans)) as [[v|] log] eqn:Hf.
  - right. pose proof (fetch_logs_quiet _ _ _ Hf) as ->.
    destruct (as_records v) as [logs|e] eqn:Hv;
      [|unfold aave_round in H; rewrite Hf, Hv in H; discriminate].
    rewrite (aave_round_success _ _ _ _ _ _ _ Hf Hv) in H.
    exists v, logs. do 2 (split; [done|]).
    rewrite advance_spec in H.
    destruct first; cbn [mbind result_bind] in H.
    + destruct (decide (Forall has_block logs)) as [Hb|]; [|discriminate].
      cbn [mbind result_bind] in H. simplify_eq. done.
    + destruct (alert_events _ _) as [alerts|] eqn:Ha; [|discriminate].
      cbn [mbind result_bind] in H.
      destruct (decide (Forall has_block logs)) as [Hb|]; [|discriminate].
      cbn [mbind result_bind] in H. simplify_eq.
      do 3 (split; [done|]). by apply alert_events_Ok.
  - left. rewrite (aave_round_skipped _ _ _ _ _ Hf) in H.
    simplify_eq. by exists log.
Qed.

Lemma TRANSFER_TYPES_NoDup : NoDup TRANSFER_TYPES.*1.
Proof. apply (bool_decide_unpack _). by vm_compute. Qed.

(** What a completed round of the loop did. *)
Lemma poll_round_inv address watch_aave ans st st' out :
  poll_round address watch_aave ans st = Ok (st', out) ->
  exists outs out_a,
    out = concat outs ++ out_a
    /\ Forall2
         (fun tc o =>
            transfer_round address tc.1 tc.2 (first_run st)
              (transfers_of ans (action tc.2)) (seen st !!! tc.1)
            = Ok (seen st' !!! tc.1, o))
         TRANSFER_TYPES outs
    /\ (forall t, t ∉ TRANSFER_TYPES.*1 -> seen st' !! t = seen st !! t)
    /\ (if watch_aave then
          aave_round (first_run st) ans (aave_seen st) (aave_from_block st)
          = Ok (aave_seen st', aave_from_block st', out_a)
        else aave_seen st' = aave_seen st
             /\ aave_from_block st' = aave_from_block st /\ out_a = [])
    /\ first_run st' = false.
Proof.
  unfold poll_round. intros H. inv_ok.
  lazymatch goal with
  | Hp : poll_transfers _ _ _ _ _ = Ok _ |- _ =>
      destruct (poll_transfers_Ok _ _ _ _ _ _ _ TRANSFER_TYPES_NoDup Hp)
        as ((outs & -> & Hall) & Hrest)
  end.
  eexists outs, _. split; [reflexivity|]. cbn [seen aave_seen aave_from_block].
  do 2 (split; [done|]). split; [|reflexivity].
  destruct watch_aave; [done|]. inv_ok. done.
Qed.

Lemma transfer_round_seeding_quiet address transfer_type config resp seen_t seen' out :
  transfer_round address transfer_type config true resp seen_t = Ok (seen', out) ->
  Forall (fun ev => is_alert ev = false) out.
Proof.
  intros H. apply transfer_round_inv in H
    as [(log & _ & _ & ->)|(v & l & incoming & _ & _ & _ & _ & _ & ->)].
  - apply Forall_fmap, Forall_true. done.
  - constructor.
Qed.

Lemma aave_round_seeding_quiet ans seen_a from_block seen' from_block' out :
  aave_round true ans seen_a from_block = Ok (seen', from_block', out) ->
  Forall (fun ev => is_alert ev = false) out.
Proof.
  intros H. apply aave_round_inv in H
    as [(log & _ & _ & _ & ->)|(v & logs & _ & _ & _ & _ & _ & ->)].
  - apply Forall_fmap, Forall_true. done.
  - constructor.
Qed.

(** ** The seeding round *)

(** C3. A seeding round of a channel whose query succeeds emits nothing,
    and the identifier of every surviving record (the hash of a filtered
    transfer, the transaction hash of a log) is in the Seen Set of the
    channel after the round.  Such a round raises only on a transfer
    without hash or on a log whose block number is not hexadecimal.  The
    first round of the loop is a seeding round: it emits no alert. *)
Theorem seeding_round_silent :
  (forall address transfer_type config resp seen_t v log l incoming,
      fetch_transfers resp (action config) = (Some v, log) ->
      as_records v = Ok l ->
      filter_incoming l address transfer_type = Ok incoming ->
      match transfer_round address transfer_type config true resp seen_t with
      | Ok (seen', out) =>
          out = []
          /\ Forall (fun tx : record =>
                       exists h, tx !! "hash" = Some h /\ h ∈ seen') incoming
      | Raise e => e = KeyError /\ ~ Forall has_hash incoming
      end)
  /\ (forall ans seen_a from_block v log logs,
        fetch_aave_supply_logs (logs_answer ans) = (Some v, log) ->
        as_records v = Ok logs ->
        match aave_round true ans seen_a from_block with
        | Ok (seen', _, out) =>
            out = [] /\ Forall (fun lg => log_id lg ∈ seen') logs
        | Raise e => e = ValueError /\ ~ Forall has_block logs
        end)
  /\ (forall address watch_aave block ans st' out,
        poll_round address watch_aave ans (initial_state watch_aave block)
          = Ok (st', out) ->
        Forall (fun ev => is_alert ev = false) out).
Proof.
  split; [|split].
  - intros address transfer_type config resp seen_t v log l incoming Hf Hv Hi.
    rewrite (transfer_round_success _ _ _ _ _ _ _ _ _ _ Hf Hv Hi).
    destruct (decide (Forall has_hash incoming)) as [Hh|Hh]; [|done].
    cbn [mbind result_bind]. split; [reflexivity|].
    apply Forall_forall. intros tx Htx.
    rewrite Forall_forall in Hh. destruct (Hh tx Htx) as [h Hh'].
    exists h. split; [exact Hh'|].
    assert (h ∈ id_set incoming).
    { unfold id_set, ids. apply elem_of_list_to_set, list_elem_of_omap. eauto. }
    unfold bounded. destruct (decide _); set_solver.
  - intros ans seen_a from_block v log logs Hf Hv.
    rewrite (aave_round_success _ _ _ _ _ _ _ Hf Hv). cbn [mbind result_bind].
    rewrite advance_spec.
    destruct (decide (Forall has_block logs)) as [Hb|Hb]; [|done].
    cbn [mbind result_bind]. split; [reflexivity|].
    apply Forall_forall. intros lg Hlg.
    assert (log_id lg ∈ log_hashes logs).
    { unfold log_hashes. apply elem_of_list_to_set, list_elem_of_fmap. eauto. }
    unfold bounded. destruct (decide _); set_solver.
  - intros address watch_aave block ans st' out H.
    apply poll_round_inv in H as (outs & out_a & -> & Hall & _ & Ha & _).
    apply Forall_app. split.
    + apply Forall_concat. clear Ha. induction Hall as [|tc o ? ? Ho _ IH];
        constructor; [|exact IH].
      by eapply transfer_round_seeding_quiet.
    + destruct watch_aave.
      * by eapply aave_round_seeding_quiet.
      * destruct Ha as (_ & _ & ->). constructor.
Qed.

(** ** The block cursor *)

Lemma foldr_max_spec (bs : list Z) (x : Z) :
  x <= foldr Z.max x bs
  /\ Forall (fun b => b <= foldr Z.max x bs) bs
  /\ (foldr Z.max x bs = x \/ foldr Z.max x bs ∈ bs).
Proof.
  induction bs as [|b bs (IH1 & IH2 & IH3)]; cbn [foldr].
  - split; [lia|]. split; [constructor | by left].
  - split; [lia|]. split.
    + constructor; [lia|]. eapply Forall_impl; [exact IH2|].
      cbn. intros. lia.
    + destruct (Z.max_spec b (foldr Z.max x bs)) as [[_ ->]|[_ ->]].
      * destruct IH3 as [->|?]; [by left | right; by apply list_elem_of_further].
      * right. apply list_elem_of_here.
Qed.

Lemma poll_round_cursor address watch_aave ans st st' out :
  poll_round address watch_aave ans st = Ok (st', out) ->
  aave_from_block st <= aave_from_block st'.
Proof.
  intros H. apply poll_round_inv in H as (outs & out_a & _ & _ & _ & Ha & _).
  destruct watch_aave.
  - apply aave_round_inv in Ha
      as [(log & _ & _ & -> & _)|(v & logs & _ & _ & _ & -> & _)]; [lia|].
    apply foldr_max_spec.
  - destruct Ha as (_ & -> & _). lia.
Qed.

(** C5. The Block Cursor never decreases along the rounds of the loop.
    A round whose log query fails leaves it unchanged; a round whose log
    query succeeds, in either phase, sets it to the maximum of its value
    and of the block numbers of the round's logs, so that an empty result
    leaves it unchanged as well. *)
Theorem block_cursor_never_decreases :
  (forall address watch_aave inputs st st' out,
      rounds address watch_aave inputs st = Ok (st', out) ->
      aave_from_block st <= aave_from_block st')
  /\ (forall first ans seen_a from_block seen' from_block' out,
        aave_round first ans seen_a from_block = Ok (seen', from_block', out) ->
        match fetch_aave_supply_logs (logs_answer ans) with
        | (None, _) => from_block' = from_block
        | (Some v, _) =>
            exists logs,
              as_records v = Ok logs
              /\ length (blocks logs) = length logs
              /\ from_block <= from_block'
              /\ Forall (fun b => b <= from_block') (blocks logs)
              /\ (from_block' = from_block \/ from_block' ∈ blocks logs)
              /\ (logs = [] -> from_block' = from_block)
        end).
Proof.
  split.
  - intros address watch_aave inputs.
    induction inputs as [|ans rest IH]; intros st st' out H; cbn [rounds] in H.
    + injection H as <- _. lia.
    + inv_ok.
      lazymatch goal with
      | Hp : poll_round _ _ _ _ = Ok (?s, _), Hr : rounds _ _ _ _ = Ok _ |- _ =>
          apply poll_round_cursor in Hp; apply IH in Hr; lia
      end.
  - intros first ans seen_a from_block seen' from_block' out H.
    apply aave_round_inv in H
      as [(log & -> & _ & -> & _)|(v & logs & -> & Hv & Hb & -> & _)];
      [reflexivity|].
    exists logs. split; [exact Hv|].
    destruct (foldr_max_spec (blocks logs) from_block) as (H1 & H2 & H3).
    split; [|split; [exact H1|split; [exact H2|split; [exact H3|]]]].
    + clear -Hb. induction Hb as [|lg logs [b Hb] _ IH]; [reflexivity|].
      unfold blocks in *. cbn. rewrite Hb. cbn. by rewrite IH.
    + intros ->. reflexivity.
Qed.

(** ** The bound on the Seen Sets *)

Lemma size_list_to_set_le (l : list string) :
  (size (list_to_set l : gset string) <= length l)%nat.
Proof.
  induction l as [|x l IH]; cbn [list_to_set length].
  - by rewrite size_empty.
  - rewrite size_union_alt, size_singleton.
    assert (size (list_to_set l ∖ {[x]} : gset string)
            <= size (list_to_set l : gset string))%nat
      by (apply subseteq_size; set_solver).
    lia.
Qed.

Lemma filter_incoming_length transfers address transfer_type incoming :
  filter_incoming transfers address transfer_type = Ok incoming ->
  (length incoming <= length transfers)%nat.
Proof.
  unfold filter_incoming. intros H.
  pose proof (filter_length_le (to_matches (PyStr.lower address)) transfers).
  destruct (decide (transfer_type = "ETH")).
  - pose proof (filter_raising_eth
                  (List.filter (to_matches (PyStr.lower address)) transfers)) as Hr.
    rewrite H in Hr. subst incoming.
    etrans; [apply filter_length_le | done].
  - by injection H as <-.
Qed.

Lemma id_set_size (incoming : list record) :
  (size (id_set incoming) <= length incoming)%nat.
Proof.
  unfold id_set. etrans; [apply size_list_to_set_le|].
  unfold ids. induction incoming as [|tx rest IH]; cbn; [done|].
  destruct (tx !! "hash"); cbn; lia.
Qed.

Lemma log_hashes_size (logs : list record) :
  (size (log_hashes logs) <= length logs)%nat.
Proof.
  unfold log_hashes. etrans; [apply size_list_to_set_le|].
  by rewrite length_fmap.
Qed.

Lemma fetch_transfers_size resp act v log l :
  fetch_transfers resp act = (Some v, log) ->
  as_records v = Ok l ->
  (length l <= response_size resp)%nat.
Proof.
  unfold fetch_transfers, response_size.
  destruct resp as [| |data]; try discriminate.
  destruct (negb (status_is_1 data)).
  - destruct (message_contains _ _); [|discriminate].
    intros [= <- _] [= <-]. cbn. lia.
  - intros [= <- _]. destruct (data !! "result") as [[s|l'|d]|]; cbn.
    + destruct (decide (s = "")); [|discriminate]. intros [= <-]. cbn. lia.
    + by intros [= <-].
    + destruct (decide (d = ∅)); [|discriminate]. intros [= <-]. cbn. lia.
    + intros [= <-]. cbn. lia.
Qed.

Lemma fetch_logs_size resp v log l :
  fetch_aave_supply_logs resp = (Some v, log) ->
  as_records v = Ok l ->
  (length l <= response_size resp)%nat.
Proof.
  unfold fetch_aave_supply_logs, response_size.
  destruct resp as [| |data]; try discriminate.
  destruct (negb (status_is_1 data)).
  - destruct (_ || _); [|discriminate].
    intros [= <- _] [= <-]. cbn. lia.
  - intros [= <- _]. destruct (data !! "result") as [[s|l'|d]|]; cbn.
    + destruct (decide (s = "")); [|discriminate]. intros [= <-]. cbn. lia.
    + by intros [= <-].
    + destruct (decide (d = ∅)); [|discriminate]. intros [= <-]. cbn. lia.
    + intros [= <-]. cbn. lia.
Qed.

Lemma bounded_size (window_ids added : gset string) :
  (size window_ids <= MAX_SEEN_HASHES)%nat ->
  (size (bounded window_ids added) <= MAX_SEEN_HASHES)%nat.
Proof. unfold bounded. destruct (decide _); lia. Qed.

Lemma transfer_round_bounded address transfer_type config first resp seen_t seen' out :
  (response_size resp <= 10)%nat ->
  (size seen_t <= MAX_SEEN_HASHES)%nat ->
  transfer_round address transfer_type config first resp seen_t = Ok (seen', out) ->
  (size seen' <= MAX_SEEN_HASHES)%nat.
Proof.
  intros Hpage Hs H. apply transfer_round_inv in H
    as [(log & _ & -> & _)|(v & l & incoming & Hf & Hv & Hi & _ & -> & _)];
    [done|].
  apply bounded_size.
  pose proof (fetch_transfers_size _ _ _ _ _ Hf Hv).
  pose proof (filter_incoming_length _ _ _ _ Hi).
  pose proof (id_set_size incoming). unfold MAX_SEEN_HASHES. lia.
Qed.

Lemma aave_round_bounded first ans seen_a from_block seen' from_block' out :
  (response_size (logs_answer ans) <= 1000)%nat ->
  (size seen_a <= MAX_SEEN_HASHES)%nat ->
  aave_round first ans seen_a from_block = Ok (seen', from_block', out) ->
  (size seen' <= MAX_SEEN_HASHES)%nat.
Proof.
  intros Hpage Hs H. apply aave_round_inv in H
    as [(log & _ & -> & _)|(v & logs & Hf & Hv & _ & _ & -> & _)]; [done|].
  apply bounded_size.
  pose proof (fetch_logs_size _ _ _ _ Hf Hv).
  pose proof (log_hashes_size logs). unfold MAX_SEEN_HASHES. lia.
Qed.

Lemma poll_round_bounded address watch_aave ans st st' out :
  page_sized ans -> sets_bounded st ->
  poll_round address watch_aave ans st = Ok (st', out) ->
  sets_bounded st'.
Proof.
  intros [Hpt Hpl] [Hst Hsa] H.
  apply poll_round_inv in H as (outs & out_a & _ & Hall & Hrest & Ha & _).
  split.
  - intros t. destruct (decide (t ∈ TRANSFER_TYPES.*1)) as [Hin|Hnin].
    + apply list_elem_of_fmap in Hin as ([t' config] & -> & Hin).
      apply list_elem_of_lookup in Hin as [i Hi].
      destruct (Forall2_lookup_l _ _ _ _ _ Hall Hi) as (o & _ & Ho).
      eapply transfer_round_bounded; [apply Hpt | apply Hst | exact Ho].
    + unfold lookup_total, map_lookup_total. rewrite (Hrest t Hnin). apply Hst.
  - destruct watch_aave.
    + eapply aave_round_bounded; [exact Hpl | exact Hsa | exact Ha].
    + destruct Ha as (-> & _). exact Hsa.
Qed.

Lemma initial_state_bounded watch_aave block :
  sets_bounded (initial_state watch_aave block).
Proof.
  split.
  - intros t. cbn [seen initial_state].
    unfold lookup_total, map_lookup_total.
    destruct (_ !! t) as [s|] eqn:Hs; cbn [default].
    + apply elem_of_list_to_map_2, list_elem_of_fmap in Hs
        as (tc & [= _ ->] & _). unfold id. rewrite size_empty. lia.
    + change (size (∅ : gset string) <= MAX_SEEN_HASHES)%nat.
      rewrite size_empty. lia.
  - cbn [aave_seen initial_state]. rewrite size_empty. lia.
Qed.

(** The bound is an invariant of the loop. *)
Lemma rounds_bounded address watch_aave inputs st st' out :
  Forall page_sized inputs -> sets_bounded st ->
  rounds address watch_aave inputs st = Ok (st', out) ->
  sets_bounded st'.
Proof.
  intros Hp. revert st out.
  induction Hp as [|ans rest Hans _ IH]; intros st out Hst H; cbn [rounds] in H.
  - by injection H as <- _.
  - inv_ok.
    lazymatch goal with
    | Hr : poll_round _ _ _ _ = Ok _, Hrest : rounds _ _ _ _ = Ok _ |- _ =>
        eapply IH; [|exact Hrest]; eapply poll_round_bounded; eauto
    end.
Qed.


(** ** Deduplication *)

Lemma decode_tx_hash log sender_of decoded :
  decode_supply_event log sender_of = Ok decoded -> tx_hash decoded = log_id log.
Proof. unfold decode_supply_event. intros H. inv_ok. reflexivity. Qed.

(** The alerts of a round of a transfer channel are for identifiers that
    were not in the Seen Set. *)
Lemma transfer_round_alerts address t config first resp seen_t seen' out :
  transfer_round address t config first resp seen_t = Ok (seen', out) ->
  Forall (fun ev =>
            match ev with
            | Logged _ => True
            | TransferAlert t' tx _ _ =>
                t' = t /\ exists h, tx !! "hash" = Some h /\ h ∉ seen_t
            | SupplyAlert _ _ _ => False
            end) out.
Proof.
  intros H. apply transfer_round_inv in H
    as [(log & _ & _ & ->)|(v & l & incoming & _ & _ & _ & _ & _ & Hout)].
  - apply Forall_fmap, Forall_true. done.
  - destruct first; [subst; constructor|].
    apply Forall_forall. intros ev Hev.
    apply list_elem_of_lookup in Hev as [i Hi].
    destruct (Forall2_lookup_r _ _ _ _ _ Hout Hi) as (tx & Htx & printed & _ & ->).
    split; [reflexivity|].
    apply list_elem_of_lookup_2 in Htx. rewrite elem_of_reverse in Htx.
    pose proof (fresh_has_hash incoming seen_t) as Hh.
    rewrite Forall_forall in Hh. destruct (Hh tx Htx) as [h Hh'].
    exists h. split; [exact Hh'|].
    assert (h ∈ ids (fresh incoming seen_t))
      by (apply list_elem_of_omap; eauto).
    by apply fresh_ids in H as [_ ?].
Qed.

(** The alerts of a round of the protocol channel are for identifiers
    that were not in the Seen Set. *)
Lemma aave_round_alerts first ans seen_a from_block seen' from_block' out :
  aave_round first ans seen_a from_block = Ok (seen', from_block', out) ->
  Forall (fun ev =>
            match ev with
            | Logged _ => True
            | TransferAlert _ _ _ _ => False
            | SupplyAlert decoded _ _ =>
                tx_hash decoded ≠ "" /\ tx_hash decoded ∉ seen_a
            end) out.
Proof.
  intros H. apply aave_round_inv in H
    as [(log & _ & _ & _ & ->)|(v & logs & _ & _ & _ & _ & _ & Hout)].
  - apply Forall_fmap, Forall_true. done.
  - destruct first; [subst; constructor|].
    apply Forall_forall. intros ev Hev.
    apply list_elem_of_lookup in Hev as [i Hi].
    destruct (Forall2_lookup_r _ _ _ _ _ Hout Hi) as (lg & Hlg & decoded & Hd & ->).
    rewrite (decode_tx_hash _ _ _ Hd).
    apply list_elem_of_lookup_2 in Hlg.
    assert (log_id lg ∈ log_id <$> fresh_events logs seen_a)
      by (apply list_elem_of_fmap; eauto).
    apply fresh_events_ids in H as (_ & ? & ?). done.
Qed.

(** One round: no alert for an identifier of the Seen Set, which stays
    in the set unless the round forgets it. *)
Lemma poll_round_dedup address watch_aave c id ans st st' out :
  polled watch_aave c ->
  id ∈ seen_of c st ->
  poll_round address watch_aave ans st = Ok (st', out) ->
  Forall (fun ev => ~ alerts_on c id ev) out
  /\ (~ forgets address c ans st id -> id ∈ seen_of c st').
Proof.
  intros Hc Hid H.
  apply poll_round_inv in H as (outs & out_a & -> & Hall & _ & Ha & _).
  split.
  - apply Forall_app. split.
    + apply Forall_concat, Forall_forall. intros o Ho.
      apply list_elem_of_lookup in Ho as [i Hi].
      destruct (Forall2_lookup_r _ _ _ _ _ Hall Hi) as ([t' c'] & _ & Hr).
      apply transfer_round_alerts in Hr. eapply Forall_impl; [exact Hr|].
      intros [line|t'' tx printed snd|decoded printed snd]; destruct c; cbn;
        try tauto.
      intros (Ht & h & Hh & Hnin) (Ht' & Hh'). cbn in *. simplify_eq. done.
    + destruct watch_aave.
      * apply aave_round_alerts in Ha. eapply Forall_impl; [exact Ha|].
        intros [line|t'' tx printed snd|decoded printed snd]; destruct c; cbn;
          try tauto.
        intros (_ & Hnin) Heq. cbn in *. simplify_eq. done.
      * destruct Ha as (_ & _ & ->). constructor.
  - intros Hkeep. destruct c as [t config|]; cbn [seen_of polled] in *.
    + apply list_elem_of_lookup in Hc as [i Hi].
      destruct (Forall2_lookup_l _ _ _ _ _ Hall Hi) as (o & _ & Hr).
      cbn in Hr. apply transfer_round_inv in Hr
        as [(log & _ & -> & _)|(v & l & incoming & Hf & Hv & Hin & _ & -> & _)];
        [done|].
      unfold forgets, additions, window_of in Hkeep. cbn [seen_of] in Hkeep.
      rewrite Hf, Hv, Hin in Hkeep. unfold bounded.
      destruct (decide _) as [Hbig|]; [|set_solver].
      apply dec_stable. intros Hnin. apply Hkeep. done.
    + subst watch_aave. apply aave_round_inv in Ha
        as [(log & _ & -> & _)|(v & logs & Hf & Hv & _ & _ & -> & _)]; [done|].
      unfold forgets, additions, window_of in Hkeep. cbn [seen_of] in Hkeep.
      rewrite Hf, Hv in Hkeep. unfold bounded.
      destruct (decide _) as [Hbig|]; [|set_solver].
      apply dec_stable. intros Hnin. apply Hkeep. done.
Qed.

(** C2, amended.  An identifier in the Seen Set of a polled channel
    produces no alert on that channel in any later round, and stays in
    the Seen Set, as long as no round forgets it: a round forgets an
    identifier when its additions push the Seen Set above 1000
    identifiers while its window does not hold the identifier. *)
Theorem dedup_until_forgotten address watch_aave c id inputs st st' out :
  polled watch_aave c ->
  id ∈ seen_of c st ->
  never_forgotten address watch_aave c id inputs st ->
  rounds address watch_aave inputs st = Ok (st', out) ->
  Forall (fun ev => ~ alerts_on c id ev) out /\ id ∈ seen_of c st'.
Proof.
  intros Hc. revert st out.
  induction inputs as [|ans rest IH]; intros st out Hid Hnf H;
    cbn [rounds never_forgotten] in *.
  - injection H as <- <-. split; [constructor | exact Hid].
  - destruct Hnf as [Hkeep Hnf]. inv_ok.
    lazymatch goal with
    | Hr : poll_round _ _ _ _ = Ok _, Hrest : rounds _ _ _ _ = Ok _ |- _ =>
        rewrite Hr in Hnf;
        destruct (poll_round_dedup _ _ _ _ _ _ _ _ Hc Hid Hr) as [Hno Hstay];
        destruct (IH _ _ (Hstay Hkeep) Hnf Hrest) as [Hno' Hid']
    end.
    split; [by apply Forall_app | exact Hid'].
Qed.

(** C2, as the claim states it, fails: after a hundred rounds of ten new
    identifiers each, the Seen Set of the channel is reset to the last
    window, and an identifier seeded before them is alerted on when it
    comes back. *)
Lemma dedup_forgets_after_reset : ~ dedup_claim.
Proof.
  intros H.
  assert (Hrun :
    match seeded with
    | Ok (st, _) =>
        bool_decide ("0xa" ∈ seen_of nft_channel st)
        && match rounds sample_address false long_run st with
           | Ok (_, out) =>
               existsb (fun ev => bool_decide (alerts_on nft_channel "0xa" ev)) out
           | Raise _ => false
           end
    | Raise _ => false
    end = true) by (vm_compute; reflexivity).
  unfold seeded in Hrun.
  destruct (rounds sample_address false seeding_run _) as [[st out0]|] eqn:E0;
    [|discriminate].
  apply andb_prop in Hrun as [Hin Hrun]. apply bool_decide_eq_true in Hin.
  destruct (rounds sample_address false long_run st) as [[st' out]|] eqn:E1;
    [|discriminate].
  apply existsb_exists in Hrun as (ev & Hev & Halert).
  apply bool_decide_eq_true in Halert.
  assert (Hp : polled false nft_channel)
    by (do 2 apply list_elem_of_further; apply list_elem_of_here).
  specialize (H _ _ _ _ _ _ _ _ _ _ _ Hp E0 Hin E1).
  rewrite Forall_forall in H. apply (H ev); [by apply list_elem_of_In | exact Halert].
Qed.

Lemma dedup_until_forgotten_witness :
  polled false nft_channel
  /\ "0xa" ∈ seen_of nft_channel seeded_state
  /\ never_forgotten sample_address false nft_channel "0xa"
       [nft_answers sample_window] seeded_state
  /\ exists st' out,
       rounds sample_address false [nft_answers sample_window] seeded_state
         = Ok (st', out)
       /\ Forall (fun ev => ~ alerts_on nft_channel "0xa" ev) out
       /\ "0xa" ∈ seen_of nft_channel st'.
Proof.
  assert (Hp : polled false nft_channel)
    by (do 2 apply list_elem_of_further; apply list_elem_of_here).
  assert (Hin : "0xa" ∈ seen_of nft_channel seeded_state)
    by (apply (bool_decide_unpack _); vm_compute; exact I).
  assert (Hnf : never_forgotten sample_address false nft_channel "0xa"
                  [nft_answers sample_window] seeded_state).
  { split.
    - intros [Hbig _]. vm_compute in Hbig. lia.
    - destruct (poll_round _ _ _ _) as [[? ?]|]; exact I. }
  do 3 (split; [assumption|]).
  destruct (rounds sample_address false [nft_answers sample_window] seeded_state)
    as [[st' out]|e] eqn:E; [|vm_compute in E; discriminate E].
  exists st', out. split; [reflexivity|].
  exact (dedup_until_forgotten sample_address false nft_channel "0xa"
           [nft_answers sample_window] seeded_state st' out Hp Hin Hnf E).
Defined.

(** ** Empty results and failures *)

Lemma page_sized_nft_answers (window : list record) :
  (length window <= 10)%nat -> page_sized (nft_answers window).
Proof.
  intros Hw. split.
  - intros act. cbn [transfers_of nft_answers].
    destruct (decide (act = "tokennfttx")).
    + change (response_size (ok_body window)) with (length window). exact Hw.
    + change (response_size nothing_found) with 0%nat. lia.
  - change (response_size (logs_answer (nft_answers window))) with 0%nat. lia.
Qed.

(** C6. The query client tells an empty result from a failure: when the
    API reports that no transactions were found it returns the empty
    list and prints nothing, and on a transport or parse failure it
    returns [None] and prints a line.  In every state that the loop
    reaches on page-sized windows, a failed query skips the round of the
    channel, whose Seen Set is unchanged, and a successful query with no
    record completes the round with the Seen Set unchanged and nothing
    emitted. *)
Theorem empty_success_is_not_failure
    address watch_aave block inputs st out0 transfer_type config first resp :
  Forall page_sized inputs ->
  rounds address watch_aave inputs (initial_state watch_aave block) = Ok (st, out0) ->
  (forall data,
      resp = JsonBody data ->
      status_is_1 data = false ->
      message_contains "No transactions found"
        (default (JStr "") (data !! "message")) = true ->
      fetch_transfers resp (action config) = (Some (JList []), []))
  /\ (resp = RequestFailed \/ resp = InvalidJson ->
      exists line, fetch_transfers resp (action config) = (None, [line]))
  /\ match fetch_transfers resp (action config) with
     | (None, log) =>
         log ≠ []
         /\ transfer_round address transfer_type config first resp
              (seen st !!! transfer_type)
            = Ok (seen st !!! transfer_type, Logged <$> log)
     | (Some v, log) =>
         log = []
         /\ (as_records v = Ok [] ->
             transfer_round address transfer_type config first resp
               (seen st !!! transfer_type)
             = Ok (seen st !!! transfer_type, []))
     end.
Proof.
  intros Hp Hrun.
  pose proof (rounds_bounded _ _ _ _ _ _ Hp (initial_state_bounded _ _) Hrun)
    as [Hb _].
  split; [|split].
  - intros data -> Hs Hm. unfold fetch_transfers. by rewrite Hs, Hm.
  - intros [-> | ->]; eexists; reflexivity.
  - destruct (fetch_transfers resp (action config)) as [[v|] log] eqn:Hf.
    + split; [by eapply fetch_transfers_quiet|]. intros Hv.
      rewrite (transfer_round_success _ _ _ _ _ _ _ _ [] [] Hf Hv);
        [|by unfold filter_incoming; cbn; destruct (decide _)].
      destruct (decide (Forall has_hash [])) as [_|Hn];
        [|destruct Hn; constructor].
      assert (Halerts :
        (if first then Ok []
         else alert_all (reverse (fresh [] (seen st !!! transfer_type)))
                transfer_type (sound config)) = Ok [])
        by (destruct first; reflexivity).
      rewrite Halerts. cbn [mbind result_bind]. do 2 f_equal.
      rewrite id_set_nil, (left_id_L ∅ (∪)). unfold bounded.
      specialize (Hb transfer_type).
      destruct (decide _); [lia | reflexivity].
    + split; [|by apply transfer_round_skipped].
      unfold fetch_transfers in Hf. destruct resp as [| |data].
      * by injection Hf as <-.
      * by injection Hf as <-.
      * destruct (negb (status_is_1 data)); [|discriminate].
        destruct (message_contains _ _); [discriminate|]. by injection Hf as <-.
Qed.

Lemma empty_success_is_not_failure_witness :
  Forall page_sized [nft_answers sample_window]
  /\ rounds sample_address false [nft_answers sample_window]
       (initial_state false None) = Ok (after_seeding, [])
  /\ fetch_transfers nothing_found (action nft_config) = (Some (JList []), [])
  /\ transfer_round sample_address "NFT" nft_config false nothing_found
       (seen after_seeding !!! "NFT")
     = Ok (seen after_seeding !!! "NFT", []).
Proof.
  assert (Hp : Forall page_sized [nft_answers sample_window]).
  { constructor; [|constructor]. apply page_sized_nft_answers. cbn. lia. }
  assert (Hrun : rounds sample_address false [nft_answers sample_window]
                   (initial_state false None) = Ok (after_seeding, []))
    by (vm_cast_no_check (eq_refl (Ok (after_seeding, @nil event)))).
  assert (Hf : fetch_transfers nothing_found (action nft_config)
               = (Some (JList []), []))
    by (vm_cast_no_check (eq_refl (Some (JList []), @nil string))).
  pose proof (empty_success_is_not_failure sample_address false None
                [nft_answers sample_window] after_seeding [] "NFT" nft_config
                false nothing_found Hp Hrun) as (_ & _ & H).
  rewrite Hf in H. destruct H as [_ H].
  split; [exact Hp|]. split; [exact Hrun|]. split; [exact Hf|].
  exact (H eq_refl).
Defined.

(** ** Exceptions that reach the top level *)

(** C10 fails on the code: a round raises when a record of a successful
    response is malformed.  The ETH query returns a transfer whose amount
    is the string "0x10": [int] raises ValueError in [filter_incoming],
    outside the handlers of [fetch_transfers].  A token transfer with an
    empty amount raises InvalidOperation in [print_transfer], and a
    transfer without hash raises KeyError in the seeding loop. *)
Theorem round_raises_on_malformed_record :
  poll_round sample_address false hex_amount_answers after_seeding
    = Raise ValueError
  /\ poll_round sample_address false empty_amount_answers after_seeding
     = Raise InvalidOperation
  /\ poll_round sample_address false no_hash_answers
       (initial_state false None)
     = Raise KeyError.
Proof.
  split; [|split].
  - vm_cast_no_check (eq_refl (@Raise (state * list event) ValueError)).
  - vm_cast_no_check (eq_refl (@Raise (state * list event) InvalidOperation)).
  - vm_cast_no_check (eq_refl (@Raise (state * list event) KeyError)).
Qed.

(** ** Decimal digits *)

Section Digits.
Import PyStr PyInt.

Lemma code_digit_char (d : Z) : 0 <= d < 10 -> code (digit_char d) = 48 + d.
Proof.
  intros Hd. unfold code, digit_char.
  rewrite nat_ascii_embedding by lia. lia.
Qed.

Lemma ndigits_go_indep (f1 f2 : nat) (n : Z) :
  0 <= n -> n < 2 ^ (Z.of_nat f1 + 1) -> n < 2 ^ (Z.of_nat f2 + 1) ->
  ndigits_go f1 n = ndigits_go f2 n.
Proof.
  revert f2 n. induction f1 as [|f1 IH]; intros f2 n Hn H1 H2.
  - change (2 ^ (Z.of_nat 0 + 1)) with 2 in H1.
    destruct f2; cbn [ndigits_go]; [reflexivity|].
    destruct (n <? 10) eqn:E; [reflexivity | lia].
  - cbn [ndigits_go]. destruct (n <? 10) eqn:E.
    + destruct f2; cbn [ndigits_go]; [reflexivity | by rewrite E].
    + destruct f2 as [|f2].
      * change (2 ^ (Z.of_nat 0 + 1)) with 2 in H2. lia.
      * cbn [ndigits_go]. rewrite E. f_equal. apply IH.
        -- apply Z.div_pos; lia.
        -- apply Z.div_lt_upper_bound; [lia|].
           replace (Z.of_nat (S f1) + 1) with (Z.succ (Z.of_nat f1 + 1)) in H1
             by lia.
           rewrite Z.pow_succ_r in H1 by lia. lia.
        -- apply Z.div_lt_upper_bound; [lia|].
           replace (Z.of_nat (S f2) + 1) with (Z.succ (Z.of_nat f2 + 1)) in H2
             by lia.
           rewrite Z.pow_succ_r in H2 by lia. lia.
Qed.

Lemma log2_fuel (n : Z) : 0 <= n -> n < 2 ^ (Z.of_nat (Z.to_nat (Z.log2 n)) + 1).
Proof.
  intros Hn. rewrite Z2Nat.id by apply Z.log2_nonneg.
  destruct (decide (n = 0)) as [->|]; [reflexivity|].
  apply (Z.log2_spec n). lia.
Qed.

Lemma ndigits_small (n : Z) : n < 10 -> ndigits n = 1%nat.
Proof.
  intros Hn. unfold ndigits. destruct (Z.to_nat (Z.log2 n)); cbn [ndigits_go];
    [reflexivity|]. destruct (n <? 10) eqn:E; [reflexivity | lia].
Qed.

Lemma ndigits_step (n : Z) : 10 <= n -> ndigits n = S (ndigits (n / 10)).
Proof.
  intros Hn. unfold ndigits.
  pose proof (log2_fuel n ltac:(lia)) as Hf.
  destruct (Z.to_nat (Z.log2 n)) as [|f] eqn:Ef.
  - change (2 ^ (Z.of_nat 0 + 1)) with 2 in Hf. lia.
  - cbn [ndigits_go]. destruct (n <? 10) eqn:E; [lia|]. f_equal.
    assert (0 <= n / 10) by (apply Z.div_pos; lia).
    apply ndigits_go_indep; [done| |by apply log2_fuel].
    apply Z.div_lt_upper_bound; [lia|].
    replace (Z.of_nat (S f) + 1) with (Z.succ (Z.of_nat f + 1)) in Hf by lia.
    rewrite Z.pow_succ_r in Hf by lia. lia.
Qed.

Lemma digits_small (n : Z) : 0 <= n < 10 -> digits n = [digit_char n].
Proof.
  intros Hn. unfold digits. rewrite (ndigits_small n) by lia.
  cbn [low_digits app].
  by rewrite Z.mod_small.
Qed.

Lemma digits_step (n : Z) :
  10 <= n -> digits n = digits (n / 10) ++ [digit_char (n mod 10)].
Proof. intros Hn. unfold digits. by rewrite (ndigits_step n Hn). Qed.

Lemma low_digits_length (k : nat) (n : Z) : length (low_digits k n) = k.
Proof.
  revert n. induction k as [|k IH]; intros n; cbn [low_digits]; [reflexivity|].
  rewrite length_app, IH. cbn. lia.
Qed.

Lemma digits_length (n : Z) : length (digits n) = ndigits n.
Proof. apply low_digits_length. Qed.

Lemma ndigits_pos (n : Z) : (1 <= ndigits n)%nat.
Proof.
  unfold ndigits. destruct (Z.to_nat (Z.log2 n)); cbn [ndigits_go]; [lia|].
  destruct (n <? 10); lia.
Qed.

(** [ndigits n] is the number of decimal digits of [n]. *)
Lemma ndigits_bounds (n : Z) :
  0 <= n ->
  n < 10 ^ Z.of_nat (ndigits n)
  /\ (10 <= n -> 10 ^ (Z.of_nat (ndigits n) - 1) <= n).
Proof.
  intros Hn0. revert n Hn0. apply (Z_lt_induction
    (fun n => n < 10 ^ Z.of_nat (ndigits n)
              /\ (10 <= n -> 10 ^ (Z.of_nat (ndigits n) - 1) <= n))).
  intros n IH. destruct (decide (n < 10)) as [Hs|Hb].
  - rewrite (ndigits_small n) by lia. split; [cbn; lia | lia].
  - rewrite (ndigits_step n) by lia.
    assert (0 <= n / 10 < n) as Hq
      by (split; [apply Z.div_pos; lia | apply Z.div_lt; lia]).
    destruct (IH (n / 10) Hq) as [Hu Hl].
    rewrite Nat2Z.inj_succ, Z.pow_succ_r by lia.
    replace (Z.succ (Z.of_nat (ndigits (n / 10))) - 1)
      with (Z.of_nat (ndigits (n / 10))) by lia.
    pose proof (Z.div_mod n 10 ltac:(lia)) as Hdm.
    pose proof (Z.mod_pos_bound n 10 ltac:(lia)) as Hm.
    split; [lia|]. intros _.
    destruct (decide (n / 10 < 10)) as [Hq10|Hq10].
    + rewrite (ndigits_small (n / 10)) by lia. cbn. lia.
    + specialize (Hl ltac:(lia)).
      pose proof (ndigits_pos (n / 10)).
      replace (Z.of_nat (ndigits (n / 10)))
        with (Z.succ (Z.of_nat (ndigits (n / 10)) - 1)) by lia.
      rewrite Z.pow_succ_r by lia. lia.
Qed.

Lemma low_digits_app (a b : nat) (n : Z) :
  low_digits (a + b) n = low_digits a (n / 10 ^ Z.of_nat b) ++ low_digits b n.
Proof.
  revert n. induction b as [|b IH]; intros n.
  - rewrite Nat.add_0_r. cbn [low_digits Z.of_nat]. rewrite Z.pow_0_r, Z.div_1_r.
    by rewrite app_nil_r.
  - rewrite Nat.add_succ_r. cbn [low_digits]. rewrite IH, app_assoc.
    do 2 f_equal. rewrite Nat2Z.inj_succ, Z.pow_succ_r by lia.
    rewrite Z.div_div by lia. reflexivity.
Qed.

Lemma low_digits_zero (k : nat) : low_digits k 0 = replicate k "0"%char.
Proof.
  induction k as [|k IH]; cbn [low_digits]; [reflexivity|].
  change (0 / 10) with 0. rewrite IH. change (0 mod 10) with 0.
  by rewrite replicate_S_end.
Qed.

Lemma low_digits_mod (b : nat) (n : Z) :
  low_digits b (n mod 10 ^ Z.of_nat b) = low_digits b n.
Proof.
  revert n. induction b as [|b IH]; intros n; cbn [low_digits]; [reflexivity|].
  rewrite Nat2Z.inj_succ, Z.pow_succ_r by lia.
  assert (Hp : 0 < 10 ^ Z.of_nat b) by (apply Z.pow_pos_nonneg; lia).
  pose proof (Z.mod_pos_bound n 10 ltac:(lia)) as Hm.
  assert (Hr : n mod (10 * 10 ^ Z.of_nat b)
               = n mod 10 + 10 * ((n / 10) mod 10 ^ Z.of_nat b))
    by (apply Z.rem_mul_r; lia).
  assert (Hq : (n mod (10 * 10 ^ Z.of_nat b)) / 10 = (n / 10) mod 10 ^ Z.of_nat b).
  { rewrite Hr, (Z.mul_comm 10), Z.div_add by lia.
    rewrite (Z.div_small (n mod 10)) by lia. lia. }
  assert (Hd : (n mod (10 * 10 ^ Z.of_nat b)) mod 10 = n mod 10).
  { rewrite Hr, (Z.mul_comm 10), Z.mod_add by lia.
    apply Z.mod_mod. lia. }
  rewrite Hq, Hd, IH. reflexivity.
Qed.

Lemma digits_split (n : Z) (j : nat) :
  10 ^ Z.of_nat j <= n ->
  digits n = digits (n / 10 ^ Z.of_nat j) ++ low_digits j n.
Proof.
  revert n. induction j as [|j IH]; intros n Hn.
  - cbn [low_digits Z.of_nat]. by rewrite Z.pow_0_r, Z.div_1_r, app_nil_r.
  - rewrite Nat2Z.inj_succ, Z.pow_succ_r in * by lia.
    assert (Hp : 0 < 10 ^ Z.of_nat j) by (apply Z.pow_pos_nonneg; lia).
    rewrite digits_step by lia. cbn [low_digits].
    rewrite (IH (n / 10)), Z.div_div, app_assoc by
      (try lia; apply Z.div_le_lower_bound; lia).
    reflexivity.
Qed.

Lemma low_digits_pad (n : Z) (j : nat) :
  0 <= n -> (ndigits n <= j)%nat ->
  low_digits j n = replicate (j - ndigits n) "0"%char ++ digits n.
Proof.
  intros Hn Hj.
  replace j with ((j - ndigits n) + ndigits n)%nat at 1 by lia.
  rewrite low_digits_app.
  rewrite Z.div_small by (split; [done | by apply ndigits_bounds]).
  by rewrite low_digits_zero.
Qed.

Lemma digits_mul_pow (n : Z) (z : nat) :
  0 < n -> digits (n * 10 ^ Z.of_nat z) = digits n ++ replicate z "0"%char.
Proof.
  intros Hn.
  assert (Hp : 0 < 10 ^ Z.of_nat z) by (apply Z.pow_pos_nonneg; lia).
  rewrite (digits_split _ z) by nia.
  rewrite Z.div_mul by lia. f_equal.
  rewrite <- low_digits_mod, Z.mod_mul by lia. apply low_digits_zero.
Qed.

Lemma of_digits_snoc (l : list ascii) (c : ascii) :
  of_digits (l ++ [c]) = of_digits l * 10 + (code c - 48).
Proof. unfold of_digits. by rewrite fold_left_app. Qed.

Lemma of_digits_digits (n : Z) : 0 <= n -> of_digits (digits n) = n.
Proof.
  intros Hn0.
  refine (Z_lt_induction (fun n => 0 <= n -> of_digits (digits n) = n)
            _ n Hn0 Hn0).
  clear n Hn0. intros n IH Hn. destruct (decide (n < 10)) as [Hs|Hb].
  - rewrite digits_small by lia. unfold of_digits. cbn [fold_left].
    rewrite code_digit_char by lia. lia.
  - rewrite digits_step, of_digits_snoc by lia.
    pose proof (Z.mod_pos_bound n 10 ltac:(lia)) as Hm.
    rewrite code_digit_char by lia.
    assert (0 <= n / 10 < n) as Hq
      by (split; [apply Z.div_pos; lia | apply Z.div_lt; lia]).
    rewrite (IH (n / 10) Hq) by lia.
    pose proof (Z.div_mod n 10 ltac:(lia)). lia.
Qed.

(** The last digit. *)
Lemma digits_last (n : Z) :
  0 <= n -> exists l, digits n = l ++ [digit_char (n mod 10)].
Proof.
  intros Hn. destruct (decide (n < 10)) as [Hs|Hb].
  - exists []. rewrite digits_small by lia. by rewrite Z.mod_small by lia.
  - eexists. by apply digits_step; lia.
Qed.

End Digits.

(** ** Stripping zeros and the point *)

Section Stripping.
Import PyStr PyInt.

Lemma drop_zeros_replicate (z : nat) (l : list ascii) :
  drop_zeros (replicate z "0"%char ++ l) = drop_zeros l.
Proof. induction z as [|z IH]; [reflexivity | exact IH]. Qed.

Lemma rstrip_zeros_digit (A : list ascii) (c : ascii) (z : nat) :
  (code c =? 48) = false ->
  rstrip_zeros (A ++ c :: replicate z "0"%char) = A ++ [c].
Proof.
  intros Hc. unfold rstrip_zeros.
  rewrite reverse_app, reverse_cons, reverse_replicate, <- app_assoc.
  rewrite drop_zeros_replicate. cbn [app drop_zeros]. rewrite Hc.
  by rewrite reverse_cons, reverse_involutive.
Qed.

Lemma rstrip_point_point (A : list ascii) :
  rstrip_point (A ++ ["."%char]) = A.
Proof.
  unfold rstrip_point. rewrite reverse_app. cbn.
  apply reverse_involutive.
Qed.

Lemma rstrip_point_other (A : list ascii) (c : ascii) :
  (code c =? 46) = false -> rstrip_point (A ++ [c]) = A ++ [c].
Proof. intros Hc. unfold rstrip_point. rewrite reverse_app. cbn. by rewrite Hc. Qed.

Lemma digit_char_codes (d : Z) :
  0 <= d < 10 ->
  (code (digit_char d) =? 48) = (d =? 0)
  /\ (code (digit_char d) =? 46) = false.
Proof.
  intros Hd. rewrite code_digit_char by lia.
  split; [destruct (d =? 0) eqn:E; lia | lia].
Qed.

End Stripping.

(** ** The positional rendering, by cases *)

Section Positional.
Import PyStr PyInt.

Lemma pow10_pos (z : nat) : 0 < 10 ^ Z.of_nat z.
Proof. apply Z.pow_pos_nonneg; lia. Qed.

Lemma ndigits_mul_pow (c : Z) (z : nat) :
  0 < c -> ndigits (c * 10 ^ Z.of_nat z) = (ndigits c + z)%nat.
Proof.
  intros Hc. rewrite <- !digits_length, digits_mul_pow by done.
  by rewrite length_app, length_replicate.
Qed.

(** The digits of a number that does not end in 0. *)
Lemma digits_nonzero_end (c : Z) :
  0 < c -> c mod 10 ≠ 0 ->
  exists l d, digits c = l ++ [d]
              /\ (code d =? 48) = false /\ (code d =? 46) = false.
Proof.
  intros Hc Hm. destruct (digits_last c ltac:(lia)) as [l Hl].
  pose proof (Z.mod_pos_bound c 10 ltac:(lia)) as Hb.
  destruct (digit_char_codes (c mod 10) Hb) as [H48 H46].
  exists l, (digit_char (c mod 10)). split; [exact Hl|]. split; [|exact H46].
  rewrite H48. lia.
Qed.

(** Below one: ["0."], the leading zeros of the fraction, the digits. *)
Lemma positional_small (c : Z) (z k : nat) :
  0 < c -> c mod 10 ≠ 0 ->
  (ndigits (c * 10 ^ Z.of_nat z) <= k)%nat ->
  positional (c * 10 ^ Z.of_nat z) (Z.of_nat k) =
    of_chars ("0"%char :: "."%char
              :: replicate (k - ndigits (c * 10 ^ Z.of_nat z)) "0"%char
              ++ digits c).
Proof.
  intros Hc Hm Hk. unfold positional. f_equal.
  pose proof (pow10_pos z). set (n := c * 10 ^ Z.of_nat z) in *.
  assert (Hn : 0 <= n) by (unfold n; nia).
  destruct (ndigits_bounds n Hn) as [Hu _].
  assert (Hlt : n < 10 ^ Z.of_nat k).
  { eapply Z.lt_le_trans; [exact Hu|]. apply Z.pow_le_mono_r; lia. }
  rewrite Z.div_small, Z.mod_small, Nat2Z.id by lia.
  rewrite (digits_small 0) by lia. change (digit_char 0) with "0"%char.
  rewrite low_digits_pad by done. unfold n at 2. rewrite digits_mul_pow by done.
  destruct (digits_nonzero_end c Hc Hm) as (l & d & -> & H48 & H46).
  cbn [app].
  replace ("0"%char :: "."%char
           :: replicate (k - ndigits n) "0"%char ++ (l ++ [d]) ++ replicate z "0"%char)
    with (("0"%char :: "."%char :: replicate (k - ndigits n) "0"%char ++ l)
          ++ d :: replicate z "0"%char)
    by (rewrite <- ?app_assoc; cbn [app]; rewrite <- ?app_assoc; reflexivity).
  rewrite rstrip_zeros_digit, rstrip_point_other by done.
  rewrite <- ?app_assoc. cbn [app]. rewrite <- ?app_assoc. reflexivity.
Qed.

(** An integer that does not end in 0: its digits. *)
Lemma positional_integer (c : Z) (k : nat) :
  0 < c -> c mod 10 ≠ 0 ->
  positional (c * 10 ^ Z.of_nat k) (Z.of_nat k) = of_chars (digits c).
Proof.
  intros Hc Hm. unfold positional. f_equal. pose proof (pow10_pos k).
  rewrite Z.div_mul, Z.mod_mul, Nat2Z.id, low_digits_zero by lia.
  destruct (digits_nonzero_end c Hc Hm) as (l & d & -> & H48 & H46).
  replace ((l ++ [d]) ++ "."%char :: replicate k "0"%char)
    with ((l ++ [d]) ++ "."%char :: replicate k "0"%char) by reflexivity.
  rewrite rstrip_zeros_digit by reflexivity.
  by rewrite rstrip_point_point.
Qed.

(** Otherwise: the digits with the point between them. *)
Lemma positional_mixed (c : Z) (z k : nat) :
  0 < c -> c mod 10 ≠ 0 ->
  (z < k)%nat -> (k < ndigits (c * 10 ^ Z.of_nat z))%nat ->
  positional (c * 10 ^ Z.of_nat z) (Z.of_nat k) =
    of_chars (take (ndigits (c * 10 ^ Z.of_nat z) - k) (digits c)
              ++ "."%char
              :: drop (ndigits (c * 10 ^ Z.of_nat z) - k) (digits c)).
Proof.
  intros Hc Hm Hz Hk. unfold positional. f_equal.
  pose proof (pow10_pos z). pose proof (pow10_pos k).
  rewrite ndigits_mul_pow in * by done.
  set (j := (k - z)%nat).
  assert (Hj : 10 ^ Z.of_nat j <= c).
  { destruct (decide (c < 10)) as [Hs|Hb].
    - rewrite (ndigits_small c) in Hk by lia. lia.
    - destruct (ndigits_bounds c ltac:(lia)) as [_ Hl].
      etrans; [|apply Hl; lia]. apply Z.pow_le_mono_r; lia. }
  assert (Hq : c * 10 ^ Z.of_nat z / 10 ^ Z.of_nat k = c / 10 ^ Z.of_nat j).
  { replace (Z.of_nat k) with (Z.of_nat z + Z.of_nat j) by lia.
    rewrite Z.pow_add_r, Z.mul_comm, Z.div_mul_cancel_l by lia. reflexivity. }
  rewrite Hq, Nat2Z.id, low_digits_mod.
  replace k with (j + z)%nat at 1 by lia.
  rewrite low_digits_app, Z.div_mul by lia.
  rewrite <- (low_digits_mod z), Z.mod_mul, low_digits_zero by lia.
  rewrite (digits_split c j Hj).
  assert (Hlen : length (digits (c / 10 ^ Z.of_nat j)) = (ndigits c + z - k)%nat).
  { pose proof (digits_length c) as Hl. rewrite (digits_split c j Hj) in Hl.
    rewrite length_app, low_digits_length in Hl. lia. }
  rewrite take_app_length', drop_app_length' by done.
  assert (Hjpos : (0 < j)%nat) by lia.
  destruct j as [|j']; [lia|]. cbn [low_digits].
  pose proof (Z.mod_pos_bound c 10 ltac:(lia)) as Hb.
  destruct (digit_char_codes (c mod 10) Hb) as [H48 H46].
  assert (H48' : (code (digit_char (c mod 10)) =? 48) = false)
    by (rewrite H48; lia).
  replace (digits (c / 10 ^ Z.of_nat (S j'))
           ++ "."%char :: (low_digits j' (c / 10) ++ [digit_char (c mod 10)])
                          ++ replicate z "0"%char)
    with ((digits (c / 10 ^ Z.of_nat (S j')) ++ "."%char :: low_digits j' (c / 10))
          ++ digit_char (c mod 10) :: replicate z "0"%char)
    by (rewrite <- ?app_assoc; cbn [app]; rewrite <- ?app_assoc; reflexivity).
  rewrite rstrip_zeros_digit, rstrip_point_other by done.
  rewrite <- ?app_assoc. cbn [app]. rewrite <- ?app_assoc. reflexivity.
Qed.

End Positional.

(** ** [Decimal] on strings of digits *)

Section Pipeline.
Import PyStr PyInt PyDecimal.

Lemma digit_not_space (c : ascii) : is_digit c = true -> is_space c = false.
Proof. unfold is_digit, is_space. lia. Qed.

Lemma digit_not_underscore (c : ascii) : is_digit c = true -> is_underscore c = false.
Proof. unfold is_digit, is_underscore. lia. Qed.

Lemma digit_not_sign (c : ascii) (l : list ascii) :
  is_digit c = true -> split_sign (c :: l) = (false, c :: l).
Proof.
  unfold is_digit, split_sign. intros H.
  destruct (code c =? 45) eqn:E1; [lia|]. destruct (code c =? 43) eqn:E2; [lia|].
  reflexivity.
Qed.

Lemma lstrip_digit (c : ascii) (l : list ascii) :
  is_digit c = true -> lstrip_chars is_space (c :: l) = c :: l.
Proof. intros H. cbn. by rewrite (digit_not_space c H). Qed.

Lemma strip_digits (l : list ascii) :
  Forall (fun c => is_digit c = true) l -> strip_chars is_space l = l.
Proof.
  intros Hl. unfold strip_chars. destruct l as [|c l]; [reflexivity|].
  rewrite lstrip_digit by (by inversion Hl).
  destruct (reverse (c :: l)) as [|c' r] eqn:Hr.
  - apply (f_equal reverse) in Hr. rewrite reverse_involutive in Hr. done.
  - rewrite lstrip_digit.
    + rewrite <- Hr. apply reverse_involutive.
    + rewrite Forall_forall in Hl. apply Hl.
      apply elem_of_reverse. rewrite Hr. apply list_elem_of_here.
Qed.

Lemma filter_digits (l : list ascii) :
  Forall (fun c => is_digit c = true) l ->
  List.filter (fun c => negb (is_underscore c)) l = l.
Proof.
  induction 1 as [|c l Hc _ IH]; cbn; [reflexivity|].
  by rewrite (digit_not_underscore c Hc), IH.
Qed.

Lemma span_digits_all (l : list ascii) :
  Forall (fun c => is_digit c = true) l -> span_digits l = (l, []).
Proof.
  induction 1 as [|c l Hc _ IH]; cbn; [reflexivity|]. by rewrite Hc, IH.
Qed.

(** [Decimal] of a string of digits is the integer it denotes. *)
Lemma Decimal_digit_string (raw : string) (n : Z) :
  digit_string raw n -> Decimal raw = Ok (Finite false (digits n) 0).
Proof.
  intros (Hne & Hd & Hn). unfold Decimal, parse.
  rewrite strip_digits, filter_digits by done.
  destruct (chars raw) as [|c l] eqn:Hl; [done|].
  rewrite digit_not_sign by (by inversion Hd).
  unfold parse_number. rewrite span_digits_all by done.
  rewrite app_nil_r, Hn. reflexivity.
Qed.

Lemma is_zero_digits (c : Z) : 0 < c -> is_zero (digits c) = false.
Proof.
  intros Hc. unfold is_zero. apply bool_decide_eq_false. intros H.
  apply (f_equal of_digits) in H. rewrite of_digits_digits in H by lia.
  vm_compute in H. lia.
Qed.

Lemma ndigits_le (c : Z) (d : nat) :
  0 <= c < 10 ^ Z.of_nat d -> (1 <= d)%nat -> (ndigits c <= d)%nat.
Proof.
  intros [Hc Hu] Hd. destruct (decide (c < 10)) as [Hs|Hb].
  - by rewrite ndigits_small.
  - destruct (ndigits_bounds c Hc) as [_ Hl]. specialize (Hl ltac:(lia)).
    destruct (decide (ndigits c <= d)%nat) as [|Hgt]; [done|].
    assert (10 ^ Z.of_nat d <= 10 ^ (Z.of_nat (ndigits c) - 1))
      by (apply Z.pow_le_mono_r; lia).
    lia.
Qed.

(** A coefficient within the precision and an exponent within the range
    are left as they are. *)
Lemma fix_finite_id (sign : bool) (int_ : list ascii) (exp : Z) :
  is_zero int_ = false ->
  len int_ <= prec -> len int_ + exp - prec <= Etop -> Etiny <= exp ->
  fix_ (Finite sign int_ exp) = Ok (Finite sign int_ exp).
Proof.
  intros Hz Hl Ht He. unfold fix_. rewrite Hz. cbv zeta.
  destruct (Etop <? len int_ + exp - prec) eqn:E1; [lia|].
  destruct (len int_ + exp - prec <? Etiny) eqn:E2.
  - destruct (exp <? Etiny) eqn:E3; [lia | reflexivity].
  - destruct (exp <? len int_ + exp - prec) eqn:E3; [lia | reflexivity].
Qed.

Lemma of_digits_one_zeros (m : nat) :
  of_digits (one_char :: replicate m zero_char) = 10 ^ Z.of_nat m.
Proof.
  induction m as [|m IH]; [reflexivity|].
  rewrite replicate_S_end, app_comm_cons, of_digits_snoc, IH.
  rewrite Nat2Z.inj_succ, Z.pow_succ_r by lia.
  change (code zero_char - 48) with 0. lia.
Qed.

Lemma is_zero_one_zeros (m : nat) :
  is_zero (one_char :: replicate m zero_char) = false.
Proof. unfold is_zero. apply bool_decide_eq_false. intros [= H _]. Qed.

(** [Decimal(10) ** k] for a decimals count within the exponent range:
    the digit 1 followed by at most 27 zeros, and the rest of the power
    in the exponent. *)
Lemma pow_ten_value (k : Z) :
  0 < k < 1000000 ->
  pow_ten k =
    Ok (Finite false (one_char :: replicate (Z.to_nat (Z.min k 27)) zero_char)
          (k - Z.min k 27)).
Proof.
  intros Hk. unfold pow_ten.
  destruct (k =? 0) eqn:E0; [lia|]. destruct (0 <? k) eqn:E1; [|lia].
  destruct (1000000 <=? k) eqn:E2; [lia|]. cbv zeta.
  destruct (decide (k <= 27)) as [Hs|Hb].
  - rewrite !Z.min_l by (unfold prec; lia).
    apply fix_finite_id.
    + apply is_zero_one_zeros.
    + unfold len, prec. cbn [length]. rewrite length_replicate. lia.
    + unfold len, Etop, Emax, prec. cbn [length]. rewrite length_replicate. lia.
    + unfold Etiny, Emin, prec. lia.
  - rewrite (Z.min_r k prec), (Z.min_r k 27) by (unfold prec; lia).
    change (Z.to_nat prec) with 28%nat. change (Z.to_nat 27) with 27%nat.
    unfold fix_. rewrite is_zero_one_zeros. cbv zeta.
    change (len (one_char :: replicate 28 zero_char)) with 29.
    assert (Hr : round_half_even (one_char :: replicate 28 zero_char) 28 = 0)
      by (vm_compute; reflexivity).
    assert (Ht : take 28 (one_char :: replicate 28 zero_char)
                 = one_char :: replicate 27 zero_char) by reflexivity.
    unfold Etop, Etiny, Emax, Emin, prec.
    destruct (999999 - 28 + 1 <? 29 + (k - 28) - 28) eqn:E3; [lia|].
    destruct (29 + (k - 28) - 28 <? -999999 - 28 + 1) eqn:E4; [lia|].
    destruct (k - 28 <? 29 + (k - 28) - 28) eqn:E5; [|lia].
    replace (29 + (k - 28) - (29 + (k - 28) - 28)) with 28 by lia.
    change (28 <? 0) with false. cbv iota. change (Z.to_nat 28) with 28%nat.
    rewrite Hr, Ht. change (0 <? 0) with false. cbv iota. cbn [replicate].
    rewrite E3. do 2 f_equal. lia.
Qed.

End Pipeline.
(** ** The quotient and its normal form *)

Section Quotient.
Import PyStr PyInt PyDecimal.

(** The loop of [truediv] removes [j] trailing zeros. *)
Lemma to_ideal_spec (fuel : nat) (c e : Z) :
  0 < c ->
  exists j : nat,
    (j <= fuel)%nat
    /\ to_ideal fuel c e = (c / 10 ^ Z.of_nat j, e + Z.of_nat j)
    /\ c = c / 10 ^ Z.of_nat j * 10 ^ Z.of_nat j
    /\ (j = fuel \/ (c / 10 ^ Z.of_nat j) mod 10 ≠ 0).
Proof.
  revert c e. induction fuel as [|fuel IH]; intros c e Hc.
  - exists 0%nat. cbn [to_ideal Z.of_nat]. rewrite Z.pow_0_r, Z.div_1_r.
    split; [lia|]. split; [f_equal; lia|]. split; [lia | by left].
  - cbn [to_ideal]. destruct (c mod 10 =? 0) eqn:Em.
    + pose proof (Z.div_mod c 10 ltac:(lia)) as Hdm.
      assert (Hq : 0 < c / 10) by lia.
      destruct (IH (c / 10) (e + 1) Hq) as (j & Hj & Hti & Hval & Hstop).
      exists (S j). rewrite Nat2Z.inj_succ, Z.pow_succ_r by lia.
      rewrite <- Z.div_div by (try lia; apply pow10_pos).
      split; [lia|]. split; [rewrite Hti; f_equal; lia|].
      split; [lia|]. destruct Hstop as [->|?]; [by left | by right].
    + exists 0%nat. cbn [Z.of_nat]. rewrite Z.pow_0_r, Z.div_1_r.
      split; [lia|]. split; [f_equal; lia|]. split; [lia | right; lia].
Qed.

(** The quotient of a positive integer below [10^28] by a power of ten:
    the same value, exactly. *)
Lemma truediv_exact (n k : Z) (m : nat) :
  0 < n < 10 ^ 28 -> (m <= 27)%nat -> 0 < k < 1000000 ->
  exists (c : Z) (t : nat),
    truediv (Finite false (digits n) 0)
      (Finite false (one_char :: replicate m zero_char) (k - Z.of_nat m))
    = Ok (Finite false (digits c) (Z.of_nat t - k))
    /\ 0 < c /\ n = c * 10 ^ Z.of_nat t.
Proof.
  intros Hn Hm Hk. unfold truediv. cbn [xorb].
  rewrite is_zero_one_zeros, is_zero_digits by lia. cbv zeta.
  assert (HL : (ndigits n <= 28)%nat) by (apply ndigits_le; lia).
  pose proof (ndigits_pos n) as HL1.
  assert (Hlen1 : len (digits n) = Z.of_nat (ndigits n))
    by (unfold len; by rewrite digits_length).
  assert (Hlen2 : len (one_char :: replicate m zero_char) = Z.of_nat (S m))
    by (unfold len; cbn [length]; by rewrite length_replicate).
  rewrite !Hlen1, !Hlen2, !of_digits_digits, !of_digits_one_zeros by lia.
  set (shift := Z.of_nat (S m) - Z.of_nat (ndigits n) + prec + 1).
  assert (Hshift : Z.of_nat m + 2 <= shift) by (unfold shift, prec; lia).
  destruct (0 <=? shift) eqn:E0; [|lia].
  set (s := shift - Z.of_nat m).
  assert (Hpm : 0 < 10 ^ Z.of_nat m) by apply pow10_pos.
  assert (Hps : 0 < 10 ^ s) by (apply Z.pow_pos_nonneg; lia).
  assert (Hcoef : n * 10 ^ shift = (n * 10 ^ s) * 10 ^ Z.of_nat m).
  { replace shift with (s + Z.of_nat m) by (unfold s; lia).
    rewrite Z.pow_add_r by lia. lia. }
  rewrite Hcoef, Z.div_mul, Z.mod_mul by lia. change (0 =? 0) with true.
  cbv iota.
  replace (Z.to_nat (0 - (k - Z.of_nat m) - (0 - (k - Z.of_nat m) - shift)))
    with (Z.to_nat shift) by (f_equal; lia).
  destruct (to_ideal_spec (Z.to_nat shift) (n * 10 ^ s)
              (0 - (k - Z.of_nat m) - shift) ltac:(nia))
    as (j & Hj & -> & Hval & Hstop).
  set (c := n * 10 ^ s / 10 ^ Z.of_nat j) in *.
  assert (Hpj : 0 < 10 ^ Z.of_nat j) by apply pow10_pos.
  assert (Hc : 0 < c) by nia.
  (* the loop went past the zeros that the shift added *)
  assert (Hjs : s <= Z.of_nat j).
  { destruct Hstop as [->|Hmod]; [unfold s; lia|].
    destruct (decide (s <= Z.of_nat j)) as [|Hlt]; [done|]. exfalso.
    apply Hmod. unfold c.
    replace s with (Z.of_nat j + (s - Z.of_nat j - 1) + 1) by lia.
    rewrite !Z.pow_add_r by lia. change (10 ^ 1) with 10.
    replace (n * (10 ^ Z.of_nat j * 10 ^ (s - Z.of_nat j - 1) * 10))
      with ((n * 10 ^ (s - Z.of_nat j - 1) * 10) * 10 ^ Z.of_nat j) by lia.
    rewrite Z.div_mul by lia. apply Z.mod_mul. lia. }
  set (t := Z.to_nat (Z.of_nat j - s)).
  assert (Hnt : n = c * 10 ^ Z.of_nat t).
  { unfold t. rewrite Z2Nat.id by lia.
    assert (Hsplit : 10 ^ Z.of_nat j = 10 ^ (Z.of_nat j - s) * 10 ^ s)
      by (rewrite <- Z.pow_add_r by lia; f_equal; lia).
    rewrite Hsplit in Hval. nia. }
  exists c, t. split; [|done].
  assert (Hcn : c <= n).
  { assert (0 < 10 ^ Z.of_nat t) by apply pow10_pos. nia. }
  replace (0 - (k - Z.of_nat m) - shift + Z.of_nat j) with (Z.of_nat t - k)
    by (unfold t, s; lia).
  assert (Hlc : (ndigits c <= 28)%nat) by (apply ndigits_le; lia).
  apply fix_finite_id.
  - by apply is_zero_digits.
  - unfold len, prec. rewrite digits_length. lia.
  - unfold len, Etop, Emax, prec. rewrite digits_length.
    assert (Z.of_nat t <= 28); [|lia].
    destruct (decide (Z.of_nat t <= 28)) as [|Hbig]; [done|]. exfalso.
    assert (10 ^ 28 <= 10 ^ Z.of_nat t) by (apply Z.pow_le_mono_r; lia). nia.
  - unfold Etiny, Emin, prec. lia.
Qed.

(** The number of trailing zeros. *)
Lemma trailing_zeros (c : Z) :
  0 < c -> exists (c' : Z) (z : nat),
    c = c' * 10 ^ Z.of_nat z /\ 0 < c' /\ c' mod 10 ≠ 0.
Proof.
  intros Hc0.
  refine (Z_lt_induction
            (fun c => 0 < c -> exists (c' : Z) (z : nat),
                 c = c' * 10 ^ Z.of_nat z /\ 0 < c' /\ c' mod 10 ≠ 0)
            _ c ltac:(lia) Hc0).
  clear c Hc0. intros c IH Hc.
  destruct (decide (c mod 10 = 0)) as [Hm|Hm].
  - pose proof (Z.div_mod c 10 ltac:(lia)) as Hdm.
    destruct (IH (c / 10) ltac:(lia) ltac:(lia)) as (c' & z & Hv & Hc' & Hm').
    exists c', (S z). rewrite Nat2Z.inj_succ, Z.pow_succ_r by lia.
    split; [lia | done].
  - exists c, 0%nat. cbn [Z.of_nat]. rewrite Z.pow_0_r. split; [lia | done].
Qed.

Lemma strip_zeros_spec (c : Z) (z : nat) (e : Z) :
  0 < c -> c mod 10 ≠ 0 -> e + Z.of_nat z <= Emax ->
  strip_zeros (reverse (digits (c * 10 ^ Z.of_nat z))) e
    = (reverse (digits c), e + Z.of_nat z).
Proof.
  intros Hc Hm He. rewrite digits_mul_pow, reverse_app, reverse_replicate by done.
  revert e He. induction z as [|z IH]; intros e He.
  - cbn [replicate app Z.of_nat].
    destruct (digits_nonzero_end c Hc Hm) as (l & d & -> & H48 & _).
    rewrite reverse_app. cbn [reverse rev_append app strip_zeros].
    change (reverse [d]) with [d]. cbn [app strip_zeros]. rewrite H48.
    cbn [andb]. f_equal. lia.
  - cbn [replicate app strip_zeros].
    change (code "0"%char =? 48) with true. cbn [andb].
    destruct (e <? Emax) eqn:E; [|lia].
    rewrite IH by lia. f_equal. lia.
Qed.

(** [normalize] strips the trailing zeros of the coefficient. *)
Lemma normalize_exact (c : Z) (z : nat) (e : Z) :
  0 < c -> c mod 10 ≠ 0 -> c * 10 ^ Z.of_nat z < 10 ^ 28 ->
  -1000000 <= e -> e + Z.of_nat z <= 1000 ->
  normalize (Finite false (digits (c * 10 ^ Z.of_nat z)) e)
    = Ok (Finite false (digits c) (e + Z.of_nat z)).
Proof.
  intros Hc Hm Hlt He1 He2. pose proof (pow10_pos z) as Hp.
  assert (Hcz : 0 < c * 10 ^ Z.of_nat z) by nia.
  assert (Hl : (ndigits (c * 10 ^ Z.of_nat z) <= 28)%nat)
    by (apply ndigits_le; lia).
  unfold normalize. rewrite fix_finite_id.
  - cbn [mbind result_bind]. rewrite is_zero_digits by done.
    rewrite strip_zeros_spec by (unfold Emax; lia || done).
    by rewrite reverse_involutive.
  - by apply is_zero_digits.
  - unfold len, prec. rewrite digits_length. lia.
  - unfold len, Etop, Emax, prec. rewrite digits_length. lia.
  - unfold Etiny, Emin, prec. lia.
Qed.

End Quotient.

(** ** The amount formatter *)

Section Formatter.
Import PyStr PyInt PyDecimal.

(** [str] of a normalized coefficient with a non-positive exponent, not
    below [10^-6]: positional notation. *)
Lemma to_str_positional (c : Z) (z k : nat) :
  0 < c -> c mod 10 ≠ 0 ->
  (z <= k)%nat -> (k < ndigits (c * 10 ^ Z.of_nat z) + 6)%nat ->
  to_str (Finite false (digits c) (Z.of_nat z - Z.of_nat k))
    = positional (c * 10 ^ Z.of_nat z) (Z.of_nat k).
Proof.
  intros Hc Hm Hz Hk. pose proof (ndigits_mul_pow c z Hc) as Hnd.
  pose proof (ndigits_pos c) as Hc1.
  unfold to_str. cbn [sign_chars app].
  assert (Hlen : len (digits c) = Z.of_nat (ndigits c))
    by (unfold len; by rewrite digits_length).
  rewrite !Hlen.
  set (p := Z.of_nat z - Z.of_nat k + Z.of_nat (ndigits c)).
  assert (Hcond : (Z.of_nat z - Z.of_nat k <=? 0) && (-6 <? p) = true)
    by (unfold p; lia).
  rewrite Hcond, Z.eqb_refl.
  destruct (p <=? 0) eqn:E1.
  - assert (ndigits (c * 10 ^ Z.of_nat z) <= k)%nat by (unfold p in *; lia).
    rewrite positional_small by done. f_equal.
    rewrite app_nil_r. cbn [app].
    replace (Z.to_nat (- p)) with (k - ndigits (c * 10 ^ Z.of_nat z))%nat
      by (unfold p; lia).
    reflexivity.
  - destruct (Z.of_nat (ndigits c) <=? p) eqn:E2.
    + assert (z = k) as -> by (unfold p in *; lia).
      rewrite positional_integer by done. f_equal.
      replace (Z.to_nat (p - Z.of_nat (ndigits c))) with 0%nat
        by (unfold p; lia).
      cbn [replicate app]. by rewrite !app_nil_r.
    + assert (z < k)%nat by (unfold p in *; lia).
      assert (k < ndigits (c * 10 ^ Z.of_nat z))%nat by (unfold p in *; lia).
      rewrite positional_mixed by done.
      replace (Z.to_nat p) with (ndigits (c * 10 ^ Z.of_nat z) - k)%nat
        by (unfold p; lia).
      by rewrite app_nil_r.
Qed.

Lemma positional_zero (k : nat) : positional 0 (Z.of_nat k) = "0".
Proof.
  unfold positional. pose proof (pow10_pos k).
  rewrite Z.div_0_l, Z.mod_0_l, Nat2Z.id, low_digits_zero by lia.
  change (digits 0) with ["0"%char].
  rewrite (rstrip_zeros_digit ["0"%char] "."%char k) by reflexivity.
  by rewrite (rstrip_point_point ["0"%char]).
Qed.

(** The quotient of zero. *)
Lemma truediv_zero (m : nat) (e : Z) :
  truediv (Finite false [zero_char] 0)
    (Finite false (one_char :: replicate m zero_char) e)
  = Ok (Finite false [zero_char] (Z.min (Z.max (0 - e) Etiny) Emax)).
Proof.
  unfold truediv. cbn [xorb]. rewrite is_zero_one_zeros.
  change (is_zero [zero_char]) with true. cbv iota.
  unfold fix_. change (is_zero [zero_char]) with true. reflexivity.
Qed.

Lemma normalize_zero (e : Z) :
  normalize (Finite false [zero_char] e) = Ok (Finite false [zero_char] 0).
Proof.
  unfold normalize, fix_. change (is_zero [zero_char]) with true. cbv iota.
  cbn [mbind result_bind]. change (is_zero [zero_char]) with true.
  reflexivity.
Qed.

Lemma of_digits_nonneg (l : list ascii) :
  Forall (fun c => is_digit c = true) l -> 0 <= of_digits l.
Proof.
  induction l as [|c l IH] using rev_ind; intros Hl; [reflexivity|].
  apply Forall_app in Hl as [Hl Hc]. rewrite of_digits_snoc.
  specialize (IH Hl). inversion Hc as [|? ? Hd _]; subst.
  unfold is_digit in Hd. lia.
Qed.

(** The body of [format_token_amount] for a decimals count that is not
    zero, on a positive integer below [10^28] whose quotient is written
    positionally. *)
Lemma format_pipeline (raw : string) (n : Z) (k : nat) :
  digit_string raw n ->
  0 < n < 10 ^ 28 -> (0 < k)%nat ->
  n mod 10 ^ (Z.of_nat k + 1) ≠ 0 ->
  10 ^ Z.of_nat k <= n * 10 ^ 6 ->
  (value ← Decimal raw;
   scale ← pow_ten (Z.of_nat k);
   amount ← truediv value scale;
   normalized ← normalize amount;
   Ok (to_str normalized))
  = Ok (positional n (Z.of_nat k)).
Proof.
  intros Hraw Hn Hk Hmult Hsmall.
  (* the decimals count is small *)
  assert (Hk34 : Z.of_nat k < 34).
  { destruct (decide (Z.of_nat k < 34)) as [|Hbig]; [done|]. exfalso.
    assert (10 ^ 34 <= 10 ^ Z.of_nat k) by (apply Z.pow_le_mono_r; lia).
    lia. }
  rewrite (Decimal_digit_string raw n Hraw). cbn [mbind result_bind].
  rewrite pow_ten_value by lia. cbn [mbind result_bind].
  set (m := Z.to_nat (Z.min (Z.of_nat k) 27)).
  replace (Z.min (Z.of_nat k) 27) with (Z.of_nat m) by (unfold m; lia).
  destruct (truediv_exact n (Z.of_nat k) m Hn ltac:(unfold m; lia) ltac:(lia))
    as (c & t & -> & Hc & Hnc).
  cbn [mbind result_bind].
  destruct (trailing_zeros c Hc) as (c' & z & Hcz & Hc' & Hm').
  pose proof (pow10_pos t) as Hpt. pose proof (pow10_pos z) as Hpz.
  assert (Hn' : n = c' * 10 ^ Z.of_nat (z + t)).
  { rewrite Nat2Z.inj_add, Z.pow_add_r by lia. rewrite Hnc, Hcz. lia. }
  (* the trailing zeros do not go past the point *)
  assert (Hzt : (z + t <= k)%nat).
  { destruct (decide (z + t <= k)%nat) as [|Hgt]; [done|]. exfalso.
    apply Hmult. rewrite Hn'.
    replace (Z.of_nat (z + t))
      with ((Z.of_nat (z + t) - (Z.of_nat k + 1)) + (Z.of_nat k + 1)) by lia.
    rewrite Z.pow_add_r, Z.mul_assoc by lia. apply Z.mod_mul.
    apply Z.pow_nonzero; lia. }
  (* the quotient is at least 10^-6 *)
  assert (Hnd : (k < ndigits n + 6)%nat).
  { destruct (ndigits_bounds n ltac:(lia)) as [Hu _].
    destruct (decide (k < ndigits n + 6)%nat) as [|Hge]; [done|]. exfalso.
    assert (10 ^ (Z.of_nat (ndigits n) + 6) <= 10 ^ Z.of_nat k)
      by (apply Z.pow_le_mono_r; lia).
    rewrite Z.pow_add_r in * by lia. lia. }
  rewrite Hcz, normalize_exact by (done || nia || lia).
  cbn [mbind result_bind]. f_equal.
  replace (Z.of_nat t - Z.of_nat k + Z.of_nat z)
    with (Z.of_nat (z + t) - Z.of_nat k) by lia.
  rewrite Hn'. apply to_str_positional; try done. by rewrite <- Hn'.
Qed.

(** C8 does not hold of the code, which misses what its docstring
    announces, a human-readable string: [normalize] strips the trailing
    zeros of the coefficient into the exponent, and [str] writes a
    positive exponent, or a value below [10^-6], in scientific notation.
    Ten ether (raw [10^19], 18 decimals) is rendered "1E+1" where the
    value with trailing zeros stripped is "10"; 100 units of a token of 6
    decimals are rendered "1E+2", and one wei "1E-18".  The division
    moreover rounds to the 28 digits of the default context: an amount of
    29 significant digits loses its last digit and is rendered as its
    neighbour is. *)
Theorem format_token_amount_exponent_notation :
  digit_string ten_ether 10000000000000000000
  /\ format_token_amount ten_ether (AStr "18") = Ok "1E+1"
  /\ positional 10000000000000000000 18 = "10"
  /\ ~ rendering_claim ten_ether (AStr "18")
  /\ format_token_amount "100000000" (AStr "6") = Ok "1E+2"
  /\ positional 100000000 6 = "100"
  /\ format_token_amount one_wei (AStr "18") = Ok "1E-18"
  /\ positional 1 18 = "0.000000000000000001"
  /\ format_token_amount twenty_nine_digits (AStr "18")
     = Ok "12345678901.23456789012345679"
  /\ positional 12345678901234567890123456789 18
     = "12345678901.234567890123456789"
  /\ format_token_amount its_neighbour (AStr "18")
     = format_token_amount twenty_nine_digits (AStr "18").
Proof.
  assert (Hd : digit_string ten_ether 10000000000000000000).
  { split; [done|]. split; [|reflexivity].
    apply (bool_decide_unpack _). by vm_compute. }
  split; [exact Hd|].
  split; [vm_compute; reflexivity|]. split; [vm_compute; reflexivity|].
  split.
  { intros H. specialize (H 10000000000000000000 Hd).
    vm_compute in H. discriminate H. }
  repeat split; vm_compute; reflexivity.
Qed.

(** Where the formatter does return the positional notation.  For a raw
    amount that is a string of decimal digits denoting [n], and a
    decimals count [k] (the integer that the argument denotes, 18 when it
    denotes none): when [k] is 0 the raw string is returned unchanged;
    when [k] is positive and [n] is below [10^28], the result is
    [n / 10^k] in positional notation, with trailing zeros and a trailing
    point stripped, provided that [n] is 0, or that the quotient is not a
    multiple of 10 and is at least [10^-6].  So one ether is "1", one and
    a half is "1.5", and 5 with no decimals is "5". *)
Lemma format_token_amount_positional (raw : string) (d : pyarg) (n : Z) :
  digit_string raw n ->
  (decimals_of d = 0 -> format_token_amount raw d = Ok raw)
  /\ (0 < decimals_of d -> n < 10 ^ 28 ->
      (n = 0 /\ decimals_of d < 1000000)
      \/ (n mod 10 ^ (decimals_of d + 1) ≠ 0
          /\ 10 ^ decimals_of d <= n * 10 ^ 6) ->
      format_token_amount raw d = Ok (positional n (decimals_of d)))
  /\ (forall e, int_of_arg d = Raise e -> decimals_of d = 18)
  /\ format_token_amount one_ether (AStr "18") = Ok "1"
  /\ format_token_amount one_and_a_half_ether (AInt 18) = Ok "1.5"
  /\ format_token_amount "5" (AInt 0) = Ok "5".
Proof.
  intros Hraw. split; [|split; [|split; [|split; [|split]]]].
  - intros Hk. unfold format_token_amount. fold (decimals_of d).
    by rewrite Hk.
  - intros Hk Hn Hcases. unfold format_token_amount. fold (decimals_of d).
    destruct (decimals_of d =? 0) eqn:E; [lia|].
    assert (Hn0 : 0 <= n).
    { destruct Hraw as (_ & Hd & <-). by apply of_digits_nonneg. }
    set (k := decimals_of d) in *.
    destruct Hcases as [[-> Hk6]|[Hmult Hsmall]].
    + rewrite (Decimal_digit_string raw 0 Hraw). cbn [mbind result_bind].
      rewrite pow_ten_value by lia. cbn [mbind result_bind].
      change (digits 0) with [zero_char]. rewrite truediv_zero.
      cbn [mbind result_bind]. rewrite normalize_zero.
      cbn [mbind result_bind]. f_equal.
      rewrite <- (Z2Nat.id k) by lia. by rewrite positional_zero.
    + assert (n ≠ 0) by (intros ->; apply Hmult; apply Z.mod_0_l;
                         apply Z.pow_nonzero; lia).
      rewrite <- (Z2Nat.id k) in * by lia.
      apply format_pipeline; try done; lia.
  - intros e He. unfold decimals_of. by rewrite He.
  - vm_compute. reflexivity.
  - vm_compute. reflexivity.
  - vm_compute. reflexivity.
Qed.

Lemma format_token_amount_positional_witness :
  digit_string one_and_a_half_ether 1500000000000000000
  /\ format_token_amount one_and_a_half_ether (AStr "18")
     = Ok (positional 1500000000000000000 18)
  /\ positional 1500000000000000000 18 = "1.5".
Proof.
  assert (Hd : digit_string one_and_a_half_ether 1500000000000000000).
  { split; [done|]. split; [|reflexivity].
    apply (bool_decide_unpack _). by vm_compute. }
  split; [exact Hd|]. split; [|by vm_compute].
  pose proof (format_token_amount_positional one_and_a_half_ether (AStr "18")
                1500000000000000000 Hd) as (_ & H & _).
  apply H.
  - by vm_compute.
  - by vm_compute.
  - right. split; by vm_compute.
Defined.

End Formatter.

(** * Further properties of the code *)

(** ** Rounding never fails within the exponent range *)

Section Rounding.
Import PyStr PyInt PyDecimal.

Lemma is_digit_digit_char (d : Z) : 0 <= d < 10 -> is_digit (digit_char d) = true.
Proof. intros Hd. unfold is_digit. rewrite code_digit_char by done. lia. Qed.

Lemma low_digits_all_digits (k : nat) (n : Z) : all_digits (low_digits k n).
Proof.
  revert n. induction k as [|k IH]; intros n; cbn [low_digits]; [constructor|].
  apply Forall_app. split; [apply IH|]. constructor; [|constructor].
  apply is_digit_digit_char. apply Z.mod_pos_bound. lia.
Qed.

Lemma digits_all_digits (n : Z) : all_digits (digits n).
Proof. apply low_digits_all_digits. Qed.

Lemma of_digits_bound (l : list ascii) :
  all_digits l -> 0 <= of_digits l < 10 ^ Z.of_nat (length l).
Proof.
  induction l as [|c l IH] using rev_ind; intros Hl; [cbn; lia|].
  apply Forall_app in Hl as [Hl Hc]. rewrite of_digits_snoc, length_app.
  specialize (IH Hl). inversion Hc as [|? ? Hd _]; subst.
  cbn [length]. rewrite Nat2Z.inj_add, Z.pow_add_r by lia.
  change (10 ^ Z.of_nat 1) with 10. unfold is_digit in Hd. lia.
Qed.

(** The length of a coefficient that rounding has incremented. *)
Lemma incremented_length (l : list ascii) :
  all_digits l -> (length (digits (of_digits l + 1)) <= length l + 1)%nat.
Proof.
  intros Hl. pose proof (of_digits_bound l Hl) as Hb.
  rewrite digits_length. apply ndigits_le; [|lia].
  rewrite Nat2Z.inj_add, Z.pow_add_r by lia. change (10 ^ Z.of_nat 1) with 10.
  lia.
Qed.

Lemma length_removelast {A : Type} (l : list A) :
  length (removelast l) = (length l - 1)%nat.
Proof.
  induction l as [|x l IH]; [reflexivity|].
  destruct l as [|y l]; [reflexivity|].
  change (removelast (x :: y :: l)) with (x :: removelast (y :: l)).
  cbn [length] in *. lia.
Qed.

(** [_fix] succeeds on a number whose adjusted exponent is below the
    largest one, and its result is within the context. *)
Lemma fix_in_range (sign : bool) (int_ : list ascii) (exp : Z) :
  all_digits int_ ->
  len int_ + exp - prec < Etop ->
  exists int' exp',
    fix_ (Finite sign int_ exp) = Ok (Finite sign int' exp')
    /\ in_context int' exp'.
Proof.
  intros Hd Hlt. unfold fix_. destruct (is_zero int_) eqn:Hz.
  - eexists _, _. split; [reflexivity|].
    unfold in_context, len, Etiny, Etop, Emin, Emax, prec. cbn [length]. lia.
  - cbv zeta.
    destruct (Etop <? len int_ + exp - prec) eqn:E1; [lia|].
    set (exp_min := if len int_ + exp - prec <? Etiny then Etiny
                    else len int_ + exp - prec).
    assert (Hmin : len int_ + exp - prec <= exp_min /\ Etiny <= exp_min
                   /\ exp_min < Etop).
    { unfold exp_min. destruct (_ <? Etiny) eqn:E; [|lia].
      unfold Etiny, Etop, Emin, Emax, prec in *. lia. }
    destruct (exp <? exp_min) eqn:E2.
    + set (digits0 := len int_ + exp - exp_min).
      set (pair := if digits0 <? 0 then ([one_char], 0%nat)
                   else (int_, Z.to_nat digits0)).
      assert (Hpair : all_digits pair.1 /\ Z.of_nat pair.2 <= prec).
      { unfold pair. destruct (digits0 <? 0) eqn:E; cbn [fst snd].
        - split; [by repeat constructor | unfold prec; lia].
        - split; [exact Hd | unfold digits0 in *; lia]. }
      destruct pair as [int1 ndig]. cbn [fst snd] in Hpair.
      destruct Hpair as [Hd1 Hnd].
      set (coeff := match take ndig int1 with [] => [zero_char] | c => c end).
      assert (Hcoeff : all_digits coeff /\ len coeff <= prec).
      { unfold coeff. destruct (take ndig int1) as [|c r] eqn:Et.
        - split; [by repeat constructor | unfold len, prec; cbn; lia].
        - rewrite <- Et. split; [by apply Forall_take|].
          unfold len. rewrite length_take. lia. }
      destruct Hcoeff as [Hdc Hlc].
      destruct (0 <? round_half_even int1 ndig).
      * pose proof (incremented_length coeff Hdc) as Hinc.
        destruct (prec <? len (digits (of_digits coeff + 1))) eqn:E3.
        -- destruct (Etop <? exp_min + 1) eqn:E4; [lia|].
           eexists _, _. split; [reflexivity|].
           unfold in_context, len in *. rewrite length_removelast. lia.
        -- destruct (Etop <? exp_min) eqn:E4; [lia|].
           eexists _, _. split; [reflexivity|]. unfold in_context. lia.
      * destruct (Etop <? exp_min) eqn:E4; [lia|].
        eexists _, _. split; [reflexivity|]. unfold in_context. lia.
    + eexists _, _. split; [reflexivity|]. unfold in_context. lia.
Qed.

(** [_fix] leaves a number within the context finite. *)
Lemma fix_in_context (sign : bool) (int_ : list ascii) (exp : Z) :
  in_context int_ exp ->
  exists int' exp', fix_ (Finite sign int_ exp) = Ok (Finite sign int' exp').
Proof.
  intros (Hl & He & Ht). destruct (is_zero int_) eqn:Hz.
  - unfold fix_. rewrite Hz. eauto.
  - rewrite fix_finite_id by done. eauto.
Qed.

(** [normalize] succeeds whenever [_fix] does. *)
Lemma normalize_in_context (sign : bool) (int_ : list ascii) (exp : Z) :
  in_context int_ exp ->
  exists int' exp', normalize (Finite sign int_ exp) = Ok (Finite sign int' exp').
Proof.
  intros Hc. destruct (fix_in_context sign int_ exp Hc) as (i & e & Hf).
  unfold normalize. rewrite Hf. cbn [mbind result_bind].
  destruct (is_zero i); [eauto|].
  destruct (strip_zeros (reverse i) e) as [r e']. eauto.
Qed.

End Rounding.

(** ** The quotient by a power of ten never fails *)

Section Division.
Import PyStr PyInt PyDecimal.

Lemma ndigits_low (c : Z) : 0 < c -> 10 ^ (Z.of_nat (ndigits c) - 1) <= c.
Proof.
  intros Hc. destruct (decide (c < 10)) as [Hs|Hb].
  - rewrite ndigits_small by done. change (10 ^ (Z.of_nat 1 - 1)) with 1. lia.
  - apply ndigits_bounds; lia.
Qed.

(** The quotient of a positive integer of at most a million digits by a
    power of ten is computed without overflow. *)
Lemma truediv_in_range (s : bool) (c k : Z) (m : nat) :
  0 < c -> Z.of_nat (ndigits c) <= 1000000 -> 0 < k < 1000000 ->
  Z.of_nat m <= k ->
  exists int' exp',
    truediv (Finite s (digits c) 0)
      (Finite false (one_char :: replicate m zero_char) (k - Z.of_nat m))
    = Ok (Finite s int' exp')
    /\ in_context int' exp'.
Proof.
  intros Hc Hl Hk Hm. unfold truediv. rewrite xorb_false_r.
  rewrite is_zero_one_zeros, is_zero_digits by lia. cbv zeta.
  pose proof (ndigits_pos c) as HL1.
  assert (Hlen1 : len (digits c) = Z.of_nat (ndigits c))
    by (unfold len; by rewrite digits_length).
  assert (Hlen2 : len (one_char :: replicate m zero_char) = Z.of_nat (S m))
    by (unfold len; cbn [length]; by rewrite length_replicate).
  rewrite !Hlen1, !Hlen2, !of_digits_digits, !of_digits_one_zeros by lia.
  destruct (ndigits_bounds c ltac:(lia)) as [Hup _].
  pose proof (ndigits_low c Hc) as Hlow.
  set (l1 := Z.of_nat (ndigits c)) in *.
  set (shift := Z.of_nat (S m) - l1 + prec + 1).
  set (e0 := 0 - (k - Z.of_nat m) - shift).
  assert (He0 : e0 = l1 - k - 30) by (unfold e0, shift, prec; lia).
  assert (Hpm : 0 < 10 ^ Z.of_nat m) by apply pow10_pos.
  set (qr := if 0 <=? shift
             then (c * 10 ^ shift / 10 ^ Z.of_nat m,
                   (c * 10 ^ shift) mod 10 ^ Z.of_nat m)
             else (c / (10 ^ Z.of_nat m * 10 ^ (- shift)),
                   c mod (10 ^ Z.of_nat m * 10 ^ (- shift)))).
  assert (Hq : 10 ^ 29 <= qr.1 < 10 ^ 30).
  { unfold qr. destruct (0 <=? shift) eqn:E0; cbn [fst].
    - assert (H1 : 10 ^ (l1 - 1) * 10 ^ shift = 10 ^ 29 * 10 ^ Z.of_nat m).
      { rewrite <- !Z.pow_add_r by lia. f_equal. unfold shift, prec. lia. }
      assert (H2 : 10 ^ l1 * 10 ^ shift = 10 ^ 30 * 10 ^ Z.of_nat m).
      { rewrite <- !Z.pow_add_r by lia. f_equal. unfold shift, prec. lia. }
      assert (Hps : 0 < 10 ^ shift) by (apply Z.pow_pos_nonneg; lia).
      split.
      + apply Z.div_le_lower_bound; [done|]. nia.
      + apply Z.div_lt_upper_bound; [done|]. nia.
    - set (D := 10 ^ Z.of_nat m * 10 ^ (- shift)).
      assert (HD : 0 < D).
      { unfold D. apply Z.mul_pos_pos; [done|]. apply Z.pow_pos_nonneg; lia. }
      assert (H1 : 10 ^ (l1 - 1) = D * 10 ^ 29).
      { unfold D. rewrite <- !Z.pow_add_r by lia. f_equal.
        unfold shift, prec. lia. }
      assert (H2 : 10 ^ l1 = D * 10 ^ 30).
      { unfold D. rewrite <- !Z.pow_add_r by lia. f_equal.
        unfold shift, prec. lia. }
      split.
      + apply Z.div_le_lower_bound; [done|]. lia.
      + apply Z.div_lt_upper_bound; [done|]. lia. }
  destruct qr as [q r]. cbn [fst] in Hq.
  set (fuel := Z.to_nat (0 - (k - Z.of_nat m) - e0)).
  set (ce := if r =? 0 then to_ideal fuel q e0
             else (if q mod 5 =? 0 then q + 1 else q, e0)).
  assert (Hce : 0 < ce.1 /\ Z.of_nat (ndigits ce.1) + ce.2 <= 30 + e0).
  { unfold ce. destruct (r =? 0).
    - destruct (to_ideal_spec fuel q e0 ltac:(lia)) as (j & _ & -> & Hval & _).
      cbn [fst snd]. set (c' := q / 10 ^ Z.of_nat j) in *.
      pose proof (pow10_pos j) as Hpj.
      assert (Hc' : 0 < c') by nia.
      split; [done|].
      assert (ndigits q <= 30)%nat by (apply ndigits_le; lia).
      rewrite Hval, ndigits_mul_pow in * by done. lia.
    - cbn [fst snd]. change (10 ^ 30) with 1000000000000000000000000000000 in Hq.
      change (10 ^ 29) with 100000000000000000000000000000 in Hq.
      destruct (q mod 5 =? 0) eqn:E5.
      + split; [lia|].
        assert (ndigits (q + 1) <= 30)%nat; [|lia].
        apply ndigits_le; [|lia].
        change (10 ^ Z.of_nat 30) with 1000000000000000000000000000000.
        apply Z.eqb_eq in E5.
        pose proof (Z.div_mod q 5 ltac:(lia)) as Hdm. rewrite E5 in Hdm. lia.
      + split; [lia|].
        assert (ndigits q <= 30)%nat; [|lia].
        apply ndigits_le; [|lia].
        change (10 ^ Z.of_nat 30) with 1000000000000000000000000000000. lia. }
  destruct ce as [coeff exp]. cbn [fst snd] in Hce. destruct Hce as [Hpos Hsum].
  apply fix_in_range; [apply digits_all_digits|].
  unfold len. rewrite digits_length. unfold Etop, Emax, prec. lia.
Qed.

(** The quotient of zero. *)
Lemma truediv_zero_in_range (s : bool) (m : nat) (e : Z) :
  exists int' exp',
    truediv (Finite s [zero_char] 0)
      (Finite false (one_char :: replicate m zero_char) e)
    = Ok (Finite s int' exp')
    /\ in_context int' exp'.
Proof.
  unfold truediv. rewrite xorb_false_r, is_zero_one_zeros.
  change (is_zero [zero_char]) with true. cbv iota.
  unfold fix_. change (is_zero [zero_char]) with true. cbv iota.
  eexists _, _. split; [reflexivity|].
  unfold in_context, len, Etiny, Etop, Emin, Emax, prec. cbn [length]. lia.
Qed.

(** The arithmetic of [format_token_amount] on an integer of at most a
    million digits and a decimals count within the exponent range. *)
Lemma quotient_total (s : bool) (c k : Z) :
  0 <= c -> Z.of_nat (ndigits c) <= 1000000 -> 0 < k < 1000000 ->
  exists text,
    (scale ← pow_ten k;
     amount ← truediv (Finite s (digits c) 0) scale;
     normalized ← normalize amount;
     Ok (to_str normalized)) = Ok text.
Proof.
  intros Hc Hl Hk. rewrite pow_ten_value by done. cbn [mbind result_bind].
  set (m := Z.to_nat (Z.min k 27)).
  replace (Z.min k 27) with (Z.of_nat m) by (unfold m; lia).
  assert (Hm : Z.of_nat m <= k) by (unfold m; lia).
  assert (Hq : exists int' exp',
    truediv (Finite s (digits c) 0)
      (Finite false (one_char :: replicate m zero_char) (k - Z.of_nat m))
    = Ok (Finite s int' exp') /\ in_context int' exp').
  { destruct (decide (c = 0)) as [->|Hne].
    - change (digits 0) with [zero_char]. apply truediv_zero_in_range.
    - apply truediv_in_range; lia || done. }
  destruct Hq as (i & e & -> & Hctx). cbn [mbind result_bind].
  destruct (normalize_in_context s i e Hctx) as (i' & e' & ->).
  cbn [mbind result_bind]. eauto.
Qed.

End Division.

(** ** The formatter never fails on an amount *)

Section Amounts.
Import PyStr PyInt PyDecimal.

Lemma chars_of_chars (l : list ascii) : chars (of_chars l) = l.
Proof. apply list_ascii_of_string_of_list_ascii. Qed.

Lemma of_chars_chars (s : string) : of_chars (chars s) = s.
Proof. apply string_of_list_ascii_of_string. Qed.

(** Stripping leaves a string that neither starts nor ends with
    whitespace as it is. *)
Lemma strip_chars_unchanged (space : ascii -> bool) (l : list ascii) :
  (forall c, head l = Some c -> space c = false) ->
  (forall c, last l = Some c -> space c = false) ->
  strip_chars space l = l.
Proof.
  intros Hh Hl. unfold strip_chars. destruct l as [|c l]; [reflexivity|].
  cbn [lstrip_chars]. rewrite (Hh c eq_refl).
  destruct (reverse (c :: l)) as [|c' r] eqn:Hr.
  - apply (f_equal reverse) in Hr. rewrite reverse_involutive in Hr. done.
  - cbn [lstrip_chars]. rewrite (Hl c').
    + rewrite <- Hr. apply reverse_involutive.
    + rewrite <- (reverse_involutive (c :: l)), Hr, reverse_cons.
      apply last_snoc.
Qed.

Lemma ndigits_of_digits (l : list ascii) :
  l <> [] -> all_digits l -> (ndigits (of_digits l) <= length l)%nat.
Proof.
  intros Hne Hl. apply ndigits_le; [by apply of_digits_bound|].
  destruct l; [done | cbn; lia].
Qed.

Lemma length_chars (s : string) : length (chars s) = String.length s.
Proof. unfold chars. induction s; cbn; [done | by f_equal]. Qed.

Lemma format_digits_total (raw : string) (d : pyarg) (n : Z) :
  digit_string raw n ->
  len (chars raw) <= 1000000 ->
  0 <= decimals_of d < 1000000 ->
  exists text, format_token_amount raw d = Ok text.
Proof.
  intros Hraw Hlen Hd. unfold format_token_amount. fold (decimals_of d).
  destruct (decimals_of d =? 0) eqn:E; [eauto|].
  rewrite (Decimal_digit_string raw n Hraw). cbn [mbind result_bind].
  destruct Hraw as (Hne & Hdig & <-).
  apply quotient_total; [by apply of_digits_bound | | lia].
  pose proof (ndigits_of_digits _ Hne Hdig). unfold len in Hlen. lia.
Qed.

(** [Decimal(str(n))] is the integer [n]. *)
Lemma Decimal_str (n : Z) :
  Decimal (str n) = Ok (Finite (n <? 0) (digits (Z.abs n)) 0).
Proof.
  unfold str. destruct (n <? 0) eqn:En.
  - replace (Z.abs n) with (- n) by lia.
    pose proof (digits_all_digits (- n)) as Hd.
    pose proof (ndigits_pos (- n)) as Hp. rewrite <- digits_length in Hp.
    unfold Decimal, parse.
    change (chars (String "-" (of_chars (digits (- n)))))
      with ("-"%char :: chars (of_chars (digits (- n)))).
    rewrite chars_of_chars.
    rewrite strip_chars_unchanged.
    + cbn [List.filter]. change (negb (is_underscore "-")) with true. cbv iota.
      rewrite filter_digits by done.
      change (split_sign ("-"%char :: digits (- n))) with (true, digits (- n)).
      cbv iota beta. unfold parse_number. rewrite span_digits_all by done.
      destruct (digits (- n)) as [|c l] eqn:Hl; [cbn in Hp; lia|].
      rewrite app_nil_r, <- Hl, of_digits_digits by lia. reflexivity.
    + intros c [= <-]. reflexivity.
    + intros c Hc. destruct (digits (- n)) as [|c0 l] eqn:Hl using rev_ind;
        [cbn in Hp; lia|].
      rewrite app_comm_cons, last_snoc in Hc. injection Hc as <-.
      apply Forall_app in Hd as [_ Hd]. inversion Hd; subst.
      by apply digit_not_space.
  - replace (Z.abs n) with n by lia.
    apply Decimal_digit_string. split; [|split].
    + rewrite chars_of_chars. pose proof (ndigits_pos n) as Hp.
      rewrite <- digits_length in Hp. destruct (digits n); [cbn in Hp; lia | done].
    + rewrite chars_of_chars. apply digits_all_digits.
    + rewrite chars_of_chars. apply of_digits_digits. lia.
Qed.

(** The amount of an event is formatted without failure. *)
Lemma format_str_total (n : Z) :
  Z.of_nat (ndigits (Z.abs n)) <= 1000000 ->
  exists text, format_token_amount (str n) (AStr "18") = Ok text.
Proof.
  intros Hn. unfold format_token_amount.
  change (int_of_arg (AStr "18")) with (@Ok Z 18). cbv iota.
  change (18 =? 0) with false. cbv iota.
  rewrite Decimal_str. cbn [mbind result_bind].
  apply quotient_total; [lia | done | lia].
Qed.

(** X1. [format_token_amount] returns a string, and raises nothing, on
    every raw amount that is a string of at most a million decimal
    digits, whatever its number of significant digits, and every decimals
    count from 0 to 999999 (the integer that the argument denotes, 18
    when it denotes none): the division and the normalisation stay within
    the exponent range of the default context, so that neither Overflow
    nor InvalidOperation is signalled. *)
Theorem format_token_amount_total (raw : string) (d : pyarg) (n : Z) :
  digit_string raw n ->
  PyStr.len raw <= 1000000 ->
  0 <= decimals_of d < 1000000 ->
  exists text, format_token_amount raw d = Ok text.
Proof.
  intros Hraw Hlen Hd. apply (format_digits_total raw d n); [done | | done].
  unfold len. rewrite length_chars. exact Hlen.
Qed.

Lemma format_token_amount_total_witness :
  digit_string twenty_nine_digits 12345678901234567890123456789
  /\ exists text, format_token_amount twenty_nine_digits (AStr "18") = Ok text.
Proof.
  assert (Hd : digit_string twenty_nine_digits 12345678901234567890123456789).
  { split; [done|]. split; [|reflexivity].
    apply (bool_decide_unpack _). by vm_compute. }
  split; [exact Hd|].
  apply (format_token_amount_total twenty_nine_digits (AStr "18")
           12345678901234567890123456789 Hd); by vm_compute.
Defined.

End Amounts.

(** ** [int] on digits *)

Section Integers.
Import PyStr PyInt.

Lemma digit_not_c_space (c : ascii) : is_digit c = true -> is_c_space c = false.
Proof. unfold is_digit, is_c_space. lia. Qed.

Lemma digit10_digit (c : ascii) : is_digit c = true -> digit10 c = Some (code c - 48).
Proof. intros H. unfold digit10. by rewrite H. Qed.

Lemma more_digits_digits (l : list ascii) (acc : Z) :
  all_digits l ->
  more_digits 10 digit10 l acc
  = Some (fold_left (fun a c => a * 10 + (code c - 48)) l acc).
Proof.
  intros Hl. revert acc. induction Hl as [|c l Hc _ IH]; intros acc;
    cbn [more_digits fold_left]; [reflexivity|].
  rewrite (digit_not_underscore c Hc), (digit10_digit c Hc). apply IH.
Qed.

(** [int] reads a string of at most 4300 digits as the integer it
    denotes. *)
Lemma parse10_digit_string (raw : string) (n : Z) :
  digit_string raw n -> PyStr.len raw <= max_str_digits -> parse10 raw = Some n.
Proof.
  intros (Hne & Hd & Hn) Hlen. unfold parse10.
  rewrite strip_chars_unchanged.
  - assert (Hcount : count_digits (chars raw) = PyStr.len raw).
    { unfold count_digits, PyStr.len. by rewrite filter_digits, length_chars. }
    destruct (chars raw) as [|c l] eqn:Hl; [done|].
    rewrite digit_not_sign by (by inversion Hd).
    rewrite Hcount. destruct (max_str_digits <? PyStr.len raw) eqn:E; [lia|].
    inversion Hd as [|? ? Hc Hd']; subst. cbn [digits_value].
    rewrite (digit10_digit c Hc), more_digits_digits by done.
    cbn [fmap option_fmap option_map apply_sign]. f_equal.
  - intros c Hc. apply digit_not_c_space.
    destruct (chars raw); [done|]. injection Hc as <-. by inversion Hd.
  - intros c Hc. apply digit_not_c_space.
    rewrite Forall_forall in Hd. apply Hd. apply last_Some in Hc as [l' ->].
    apply elem_of_app. right. apply list_elem_of_here.
Qed.

(** Past the limit [int] raises, whatever the digits. *)
Lemma parse10_over_limit (raw : string) :
  all_digits (chars raw) -> max_str_digits < PyStr.len raw -> parse10 raw = None.
Proof.
  intros Hd Hlen. unfold all_digits in Hd. unfold parse10.
  rewrite strip_chars_unchanged.
  - assert (Hcount : count_digits (chars raw) = PyStr.len raw).
    { unfold count_digits, PyStr.len. by rewrite filter_digits, length_chars. }
    destruct (chars raw) as [|c l] eqn:Hl.
    { unfold count_digits in Hcount. cbn in Hcount.
      unfold max_str_digits in Hlen. lia. }
    rewrite digit_not_sign by (by inversion Hd).
    rewrite Hcount. by destruct (max_str_digits <? PyStr.len raw) eqn:E; [|lia].
  - intros c Hc. apply digit_not_c_space.
    destruct (chars raw); [done|]. injection Hc as <-. by inversion Hd.
  - intros c Hc. apply digit_not_c_space.
    rewrite Forall_forall in Hd. apply Hd. apply last_Some in Hc as [l' ->].
    apply elem_of_app. right. apply list_elem_of_here.
Qed.

(** So a transfer of ether whose amount has more than 4300 digits, and
    which did not fail, stops the filter with [ValueError]. *)
Lemma eth_condition_over_limit (tx : record) :
  tx !! "isError" ≠ Some "1" ->
  all_digits (chars (get tx "value" "0")) ->
  max_str_digits < PyStr.len (get tx "value" "0") ->
  eth_condition tx = Raise ValueError.
Proof.
  intros He Hd Hlen. unfold eth_condition, PyInt.int.
  rewrite decide_False by done. by rewrite (parse10_over_limit _ Hd Hlen).
Qed.

Lemma long_amount_digits :
  all_digits (chars long_amount) /\ PyStr.len long_amount = 4301.
Proof.
  unfold long_amount. split.
  - rewrite chars_of_chars. apply Forall_forall.
    intros c Hc. apply list_elem_of_In, repeat_spec in Hc. by subst c.
  - unfold PyStr.len. by rewrite <- length_chars, chars_of_chars, repeat_length.
Qed.

(** The amount of 4301 digits is refused, the transfer that carries it
    stops the filter, and it is not well formed. *)
Lemma int_digit_limit :
  PyInt.int long_amount = Raise ValueError
  /\ eth_condition overlong_transfer = Raise ValueError
  /\ ~ well_formed_transfer overlong_transfer.
Proof.
  destruct long_amount_digits as [Hd Hlen].
  assert (Hv : get overlong_transfer "value" "0" = long_amount).
  { unfold get, overlong_transfer. by rewrite lookup_insert. }
  split; [|split].
  - unfold PyInt.int. rewrite parse10_over_limit; [done | done |].
    rewrite Hlen. unfold max_str_digits. lia.
  - apply eth_condition_over_limit.
    + unfold overlong_transfer. rewrite lookup_insert_ne by done.
      by vm_compute.
    + by rewrite Hv.
    + rewrite Hv, Hlen. unfold max_str_digits. lia.
  - intros (_ & _ & Hl & _). rewrite Hv, Hlen in Hl.
    unfold max_str_digits in Hl. lia.
Qed.

Lemma digit16_range (c : ascii) (v : Z) : digit16 c = Some v -> 0 <= v < 16.
Proof.
  unfold digit16. destruct (is_digit c) eqn:E1.
  - intros [= <-]. unfold is_digit in E1. lia.
  - destruct ((97 <=? code c) && (code c <=? 102)) eqn:E2.
    + intros [= <-]. lia.
    + destruct ((65 <=? code c) && (code c <=? 70)) eqn:E3; [|discriminate].
      intros [= <-]. lia.
Qed.

(** The value of hexadecimal digits is bounded by their number. *)
Lemma more_digits_bound (n : nat) (l : list ascii) (acc v a : Z) :
  (length l <= n)%nat ->
  more_digits 16 digit16 l acc = Some v ->
  0 <= a -> 0 <= acc < 16 ^ a ->
  0 <= v < 16 ^ (a + Z.of_nat (length l)).
Proof.
  revert l acc a. induction n as [|n IH]; intros l acc a Hn Hv Ha Hacc.
  - destruct l; [|cbn in Hn; lia]. cbn in Hv. injection Hv as <-.
    cbn [length Z.of_nat]. by rewrite Z.add_0_r.
  - destruct l as [|c l]; cbn [more_digits] in Hv.
    + injection Hv as <-. cbn [length Z.of_nat]. by rewrite Z.add_0_r.
    + assert (Hstep : forall d l' (k : Z),
          (length l' <= n)%nat -> 1 <= k ->
          (forall x, digit16 d = Some x ->
             more_digits 16 digit16 l' (acc * 16 + x) = Some v) ->
          is_Some (digit16 d) ->
          0 <= v < 16 ^ (a + k + Z.of_nat (length l'))).
      { intros d l' k Hl' Hk Hm [x Hx]. specialize (Hm x Hx).
        pose proof (digit16_range d x Hx) as Hr.
        assert (H16 : 16 ^ (a + 1) = 16 ^ a * 16)
          by (rewrite Z.pow_add_r by lia; reflexivity).
        pose proof (IH l' (acc * 16 + x) (a + 1) Hl' Hm ltac:(lia) ltac:(lia))
          as [Hv0 Hv1].
        split; [done|]. eapply Z.lt_le_trans; [exact Hv1|].
        apply Z.pow_le_mono_r; lia. }
      cbn [length] in Hn. destruct (is_underscore c).
      * destruct l as [|d l'']; [discriminate|].
        destruct (digit16 d) as [x|] eqn:Hx; [|discriminate].
        cbn [length] in *.
        pose proof (Hstep d l'' 2 ltac:(lia) ltac:(lia)) as H.
        rewrite Hx in H. specialize (H ltac:(by intros ? [= <-]) ltac:(eauto)).
        replace (a + Z.of_nat (S (S (length l''))))
          with (a + 2 + Z.of_nat (length l'')) by lia. exact H.
      * destruct (digit16 c) as [x|] eqn:Hx; [|discriminate].
        pose proof (Hstep c l 1 ltac:(lia) ltac:(lia)) as H.
        rewrite Hx in H. specialize (H ltac:(by intros ? [= <-]) ltac:(eauto)).
        cbn [length].
        replace (a + Z.of_nat (S (length l)))
          with (a + 1 + Z.of_nat (length l)) by lia. exact H.
Qed.

Lemma digits_value_bound (l : list ascii) (v : Z) :
  digits_value 16 digit16 l = Some v -> 0 <= v < 16 ^ Z.of_nat (length l).
Proof.
  destruct l as [|d l]; [discriminate|]. cbn [digits_value].
  destruct (digit16 d) as [x|] eqn:Hx; [|discriminate]. intros Hv.
  pose proof (digit16_range d x Hx) as Hr.
  pose proof (more_digits_bound (length l) l x v 1 ltac:(lia) Hv ltac:(lia)
                ltac:(change (16 ^ 1) with 16; lia)) as H.
  cbn [length]. replace (Z.of_nat (S (length l))) with (1 + Z.of_nat (length l))
    by lia. exact H.
Qed.

Lemma lstrip_chars_length (space : ascii -> bool) (l : list ascii) :
  (length (lstrip_chars space l) <= length l)%nat.
Proof.
  induction l as [|c l IH]; cbn [lstrip_chars]; [done|].
  destruct (space c); cbn [length]; lia.
Qed.

Lemma strip_chars_length (space : ascii -> bool) (l : list ascii) :
  (length (strip_chars space l) <= length l)%nat.
Proof.
  unfold strip_chars. rewrite length_reverse.
  etransitivity; [apply lstrip_chars_length|]. rewrite length_reverse.
  apply lstrip_chars_length.
Qed.

Lemma split_sign_length (l : list ascii) :
  (length (split_sign l).2 <= length l)%nat.
Proof.
  destruct l as [|c l]; [done|]. unfold split_sign.
  destruct (code c =? 45); [cbn; lia|]. destruct (code c =? 43); cbn; lia.
Qed.

Lemma skip_0x_length (l : list ascii) : (length (skip_0x l) <= length l)%nat.
Proof.
  destruct l as [|z [|x l]]; [done..|]. cbn [skip_0x].
  destruct ((code z =? 48) && ((code x =? 120) || (code x =? 88))); [|done].
  destruct l as [|u l]; [cbn; lia|]. destruct (is_underscore u); cbn; lia.
Qed.

(** [int(s, 16)] is bounded by the length of [s]. *)
Lemma parse16_bound (s : string) (n : Z) :
  parse16 s = Some n -> Z.abs n < 16 ^ Z.of_nat (String.length s).
Proof.
  unfold parse16.
  pose proof (strip_chars_length is_c_space (chars s)) as H1.
  pose proof (split_sign_length (strip_chars is_c_space (chars s))) as H2.
  destruct (split_sign _) as [neg l]. cbn [snd] in H2.
  pose proof (skip_0x_length l) as H3.
  destruct (digits_value 16 digit16 (skip_0x l)) as [v|] eqn:Hv; [|discriminate].
  intros [= <-]. apply digits_value_bound in Hv.
  assert (Hlen : length (chars s) = String.length s).
  { unfold chars. clear. induction s; cbn; [done | by f_equal]. }
  assert (16 ^ Z.of_nat (length (skip_0x l)) <= 16 ^ Z.of_nat (String.length s))
    by (apply Z.pow_le_mono_r; lia).
  destruct neg; cbn [apply_sign]; lia.
Qed.

End Integers.

(** ** Sample data is well formed *)

Section Samples.

Lemma fetch_transfers_ok_body (l : list record) (act : string) :
  fetch_transfers (ok_body l) act = (Some (JList l), []).
Proof. vm_compute. reflexivity. Qed.

Lemma fetch_transfers_nothing_found (act : string) :
  fetch_transfers nothing_found act = (Some (JList []), []).
Proof. vm_compute. reflexivity. Qed.

Lemma fetch_logs_nothing_found :
  fetch_aave_supply_logs nothing_found = (Some (JList []), []).
Proof. vm_compute. reflexivity. Qed.

Lemma well_formed_transfer_to_us (h : string) :
  well_formed_transfer (transfer_to_us h).
Proof.
  assert (Hv : get (transfer_to_us h) "value" "0" = "1500000000000000000")
    by (vm_compute; reflexivity).
  assert (Hd : get (transfer_to_us h) "tokenDecimal" "18" = "18")
    by (vm_compute; reflexivity).
  split; [|split; [|split]].
  - exists h. vm_compute. reflexivity.
  - exists 1500000000000000000. rewrite Hv. split; [done|].
    split; [|reflexivity]. apply (bool_decide_unpack _). by vm_compute.
  - rewrite Hv. by vm_compute.
  - rewrite Hd. by vm_compute.
Qed.

Lemma well_formed_nft_answers (window : list record) :
  Forall well_formed_transfer window -> well_formed_answers (nft_answers window).
Proof.
  intros Hw. split.
  - intros act. cbn [transfers_of nft_answers].
    destruct (decide (act = "tokennfttx")).
    + rewrite fetch_transfers_ok_body. eauto.
    + rewrite fetch_transfers_nothing_found. exists []. split; [reflexivity|].
      constructor.
  - cbn [logs_answer nft_answers]. rewrite fetch_logs_nothing_found.
    exists []. split; [reflexivity | constructor].
Qed.

Lemma well_formed_sample_window : Forall well_formed_transfer sample_window.
Proof. repeat constructor; apply well_formed_transfer_to_us. Qed.

Lemma well_formed_failing_answers : well_formed_answers failing_answers.
Proof. split; [intros act|]; exact I. Qed.

Lemma nft_polled : ("NFT", nft_config) ∈ TRANSFER_TYPES.
Proof. do 2 apply list_elem_of_further. apply list_elem_of_here. Qed.

End Samples.

(** ** Rounds on well-formed records *)

Section NoFailure.

Lemma sublist_Forall {A : Type} (P : A -> Prop) (r l : list A) :
  sublist r l -> Forall P l -> Forall P r.
Proof.
  intros Hs Hl. rewrite Forall_forall in *. intros x Hx. apply Hl.
  eapply elem_of_sublist; [exact Hx | exact Hs].
Qed.

Lemma format_amount_total (tx : record) (d : pyarg) :
  well_formed_transfer tx ->
  0 <= decimals_of d < 1000000 ->
  exists text, format_token_amount (get tx "value" "0") d = Ok text.
Proof.
  intros (_ & [n Hn] & Hlen & _) Hd.
  apply (format_digits_total _ _ n); try done.
  unfold PyDecimal.len. rewrite length_chars.
  unfold PyInt.max_str_digits, PyStr.len in Hlen. lia.
Qed.

Lemma eth_condition_total (tx : record) :
  well_formed_transfer tx -> exists b, eth_condition tx = Ok b.
Proof.
  intros (_ & [n Hn] & Hlen & _). unfold eth_condition.
  destruct (decide _); [eauto|]. unfold PyInt.int.
  rewrite (parse10_digit_string _ _ Hn Hlen). cbn [mbind result_bind]. eauto.
Qed.

Lemma filter_raising_sublist {A : Type} (p : A -> result bool) (l r : list A) :
  filter_raising p l = Ok r -> sublist r l.
Proof.
  revert r. induction l as [|x l IH]; intros r H; cbn [filter_raising] in H.
  - injection H as <-. constructor.
  - inv_ok. lazymatch goal with b : bool |- _ => destruct b end.
    + apply sublist_skip. by apply IH.
    + apply sublist_cons. by apply IH.
Qed.

Lemma filter_raising_total {A : Type} (p : A -> result bool) (l : list A) :
  Forall (fun x => exists b, p x = Ok b) l -> exists r, filter_raising p l = Ok r.
Proof.
  induction 1 as [|x l [b Hb] _ [r IH]]; cbn [filter_raising]; [eauto|].
  rewrite Hb, IH. cbn [mbind result_bind]. eauto.
Qed.

Lemma filter_sublist {A : Type} (f : A -> bool) (l : list A) :
  sublist (List.filter f l) l.
Proof.
  induction l as [|x l IH]; cbn [List.filter]; [constructor|].
  destruct (f x); [by apply sublist_skip | by apply sublist_cons].
Qed.

(** The filter returns some of the transfers, in their order. *)
Lemma filter_incoming_sublist transfers address transfer_type incoming :
  filter_incoming transfers address transfer_type = Ok incoming ->
  sublist incoming transfers.
Proof.
  unfold filter_incoming. destruct (decide _).
  - intros H. apply filter_raising_sublist in H.
    etransitivity; [exact H | apply filter_sublist].
  - intros [= <-]. apply filter_sublist.
Qed.

Lemma filter_incoming_total transfers address transfer_type :
  Forall well_formed_transfer transfers ->
  exists incoming,
    filter_incoming transfers address transfer_type = Ok incoming
    /\ Forall well_formed_transfer incoming.
Proof.
  intros Hwf.
  assert (exists incoming,
             filter_incoming transfers address transfer_type = Ok incoming)
    as [incoming Hi].
  { unfold filter_incoming. destruct (decide _); [|eauto].
    apply filter_raising_total.
    eapply Forall_impl; [|intros tx; apply eth_condition_total].
    eapply sublist_Forall; [apply filter_sublist | exact Hwf]. }
  exists incoming. split; [exact Hi|].
  eapply sublist_Forall; [by eapply filter_incoming_sublist | exact Hwf].
Qed.

Lemma print_transfer_total (tx : record) (transfer_type : string) :
  well_formed_transfer tx ->
  exists printed, print_transfer tx transfer_type = Ok printed.
Proof.
  intros Hwf. unfold print_transfer.
  destruct (decide (transfer_type = "ETH")).
  - destruct (format_amount_total tx (AStr "18") Hwf) as [text ->];
      [by vm_compute|]. cbn [mbind result_bind]. eauto.
  - destruct (decide (transfer_type = "TOKEN")).
    + destruct (format_amount_total tx (AStr (get tx "tokenDecimal" "18")) Hwf)
        as [text ->]; [apply Hwf|]. cbn [mbind result_bind]. eauto.
    + destruct (decide (transfer_type = "NFT")); cbn [mbind result_bind]; eauto.
Qed.

Lemma alert_all_total txs transfer_type sound_path :
  Forall well_formed_transfer txs ->
  exists out, alert_all txs transfer_type sound_path = Ok out.
Proof.
  induction 1 as [|tx txs Htx _ [out IH]]; cbn [alert_all]; [eauto|].
  destruct (print_transfer_total tx transfer_type Htx) as [printed ->].
  rewrite IH. cbn [mbind result_bind]. eauto.
Qed.

Lemma transfer_round_total address transfer_type config first resp seen_t :
  match fetch_transfers resp (action config) with
  | (Some v, _) => exists l, as_records v = Ok l /\ Forall well_formed_transfer l
  | (None, _) => True
  end ->
  exists seen' out,
    transfer_round address transfer_type config first resp seen_t
    = Ok (seen', out).
Proof.
  destruct (fetch_transfers resp (action config)) as [[v|] log] eqn:Hf.
  - intros (l & Hv & Hwf).
    destruct (filter_incoming_total l address transfer_type Hwf)
      as (incoming & Hi & Hwf').
    rewrite (transfer_round_success _ _ _ _ _ _ _ _ _ _ Hf Hv Hi).
    destruct (decide (Forall has_hash incoming)) as [_|Hn].
    + destruct first; cbn [mbind result_bind]; [eauto|].
      destruct (alert_all_total (reverse (fresh incoming seen_t)) transfer_type
                  (sound config)) as [out ->].
      * apply Forall_reverse.
        eapply sublist_Forall; [apply fresh_sublist | exact Hwf'].
      * cbn [mbind result_bind]. eauto.
    + destruct Hn. eapply Forall_impl; [exact Hwf'|]. intros tx Htx. apply Htx.
  - intros _. rewrite (transfer_round_skipped _ _ _ _ _ _ _ Hf). eauto.
Qed.

Lemma poll_transfers_total address types first ans seen_all :
  well_formed_answers ans ->
  exists seen_all' out,
    poll_transfers address types first ans seen_all = Ok (seen_all', out).
Proof.
  intros [Hwf _]. revert seen_all.
  induction types as [|[t config] rest IH]; intros seen_all;
    cbn [poll_transfers]; [eauto|].
  destruct (transfer_round_total address t config first
              (transfers_of ans (action config)) (seen_all !!! t)
              (Hwf (action config))) as (s & out & ->).
  cbn [mbind result_bind].
  destruct (IH (<[t := s]> seen_all)) as (seen' & more & ->).
  cbn [mbind result_bind]. eauto.
Qed.

Lemma slice_length (a b : nat) (s : string) :
  (String.length (PyStr.slice a b s) <= b - a)%nat.
Proof.
  unfold PyStr.slice. rewrite <- length_chars, chars_of_chars, length_take. lia.
Qed.

Lemma decode_supply_event_total log sender_of :
  well_formed_log log -> exists ev, decode_supply_event log sender_of = Ok ev.
Proof.
  intros [[b Hb] Hdata]. unfold decode_supply_event.
  set (data := get log "data" "0x") in *.
  assert (Hamount : exists n,
    (if 130 <=? PyStr.len data then PyInt.int16 (PyStr.slice 66 130 data)
     else Ok 0) = Ok n
    /\ Z.of_nat (PyInt.ndigits (Z.abs n)) <= 1000000).
  { destruct (130 <=? PyStr.len data) eqn:E.
    - destruct Hdata as [Hlt|[n Hn]]; [lia|]. exists n.
      unfold PyInt.int16. rewrite Hn. split; [reflexivity|].
      apply parse16_bound in Hn.
      pose proof (slice_length 66 130 data) as Hl.
      assert (16 ^ Z.of_nat (String.length (PyStr.slice 66 130 data))
              <= 16 ^ 64) by (apply Z.pow_le_mono_r; lia).
      assert (PyInt.ndigits (Z.abs n) <= 78)%nat; [|lia].
      apply ndigits_le; [|lia].
      assert (16 ^ 64 < 10 ^ Z.of_nat 78) by (by vm_compute). lia.
    - exists 0. split; [reflexivity|]. by vm_compute. }
  destruct Hamount as (n & -> & Hn). cbn [mbind result_bind].
  destruct (format_str_total n Hn) as [text ->]. cbn [mbind result_bind].
  unfold block_of in Hb. unfold PyInt.int16. rewrite Hb.
  cbn [mbind result_bind]. eauto.
Qed.

Lemma alert_events_total logs sender_of :
  Forall well_formed_log logs ->
  exists out, alert_events logs sender_of = Ok out.
Proof.
  induction 1 as [|log logs Hlog _ [out IH]]; cbn [alert_events]; [eauto|].
  destruct (decode_supply_event_total log sender_of Hlog) as [ev ->].
  rewrite IH. cbn [mbind result_bind]. eauto.
Qed.

Lemma aave_round_total first ans seen_a from_block :
  well_formed_answers ans ->
  exists seen' from_block' out,
    aave_round first ans seen_a from_block = Ok (seen', from_block', out).
Proof.
  intros [_ Hwf].
  destruct (fetch_aave_supply_logs (logs_answer ans)) as [[v|] log] eqn:Hf.
  - destruct Hwf as (logs & Hv & Hwf).
    rewrite (aave_round_success _ _ _ _ _ _ _ Hf Hv).
    assert (exists alerts,
      (if first then Ok []
       else alert_events (fresh_events logs seen_a) (sender_of ans)) = Ok alerts)
      as [alerts ->].
    { destruct first; [eauto|]. apply alert_events_total.
      eapply sublist_Forall; [apply fresh_events_sublist | exact Hwf]. }
    cbn [mbind result_bind]. rewrite advance_spec.
    destruct (decide (Forall has_block logs)) as [_|Hn].
    + cbn [mbind result_bind]. eauto.
    + destruct Hn. eapply Forall_impl; [exact Hwf|]. intros lg Hlg. apply Hlg.
  - rewrite (aave_round_skipped _ _ _ _ _ Hf). eauto.
Qed.

Lemma poll_round_total address watch_aave ans st :
  well_formed_answers ans ->
  exists st' out, poll_round address watch_aave ans st = Ok (st', out).
Proof.
  intros Hwf. unfold poll_round.
  destruct (poll_transfers_total address TRANSFER_TYPES (first_run st) ans
              (seen st) Hwf) as (seen' & out & ->).
  cbn [mbind result_bind]. destruct watch_aave.
  - destruct (aave_round_total (first_run st) ans (aave_seen st)
                (aave_from_block st) Hwf) as (sa & fb & oa & ->).
    cbn [mbind result_bind]. eauto.
  - cbn [mbind result_bind]. eauto.
Qed.

Lemma rounds_total address watch_aave inputs st :
  Forall well_formed_answers inputs ->
  exists st' out, rounds address watch_aave inputs st = Ok (st', out).
Proof.
  intros Hwf. revert st.
  induction Hwf as [|ans rest Hans _ IH]; intros st; cbn [rounds]; [eauto|].
  destruct (poll_round_total address watch_aave ans st Hans) as (st1 & out & ->).
  cbn [mbind result_bind]. destruct (IH st1) as (st' & more & ->).
  cbn [mbind result_bind]. eauto.
Qed.



End NoFailure.

(** ** A round repeated *)

Section Repeated.

Lemma fresh_seen (incoming : list record) (seen_t : gset string) :
  id_set incoming ⊆ seen_t -> fresh incoming seen_t = [].
Proof.
  induction incoming as [|tx rest IH]; intros Hs; cbn [fresh]; [reflexivity|].
  destruct (tx !! "hash") as [h|] eqn:Hh.
  - rewrite (id_set_cons _ _ _ Hh) in Hs.
    rewrite decide_True by set_solver. apply IH. set_solver.
  - apply IH. unfold id_set, ids in *. cbn [omap list_omap] in Hs.
    by rewrite Hh in Hs.
Qed.

Lemma fresh_events_seen (logs : list record) (seen_a : gset string) :
  log_hashes logs ∖ {[""]} ⊆ seen_a -> fresh_events logs seen_a = [].
Proof.
  induction logs as [|log rest IH]; intros Hs; cbn [fresh_events]; [reflexivity|].
  assert (Hids : log_hashes (log :: rest) = {[log_id log]} ∪ log_hashes rest)
    by reflexivity.
  rewrite Hids in Hs. destruct (decide _) as [[Hne Hnin]|_].
  - destruct Hnin. apply Hs. set_solver.
  - apply IH. set_solver.
Qed.

Lemma bounded_again (w a : gset string) :
  w ⊆ a -> bounded w (w ∪ bounded w a) = bounded w a.
Proof.
  intros Hwa. unfold bounded. destruct (decide (MAX_SEEN_HASHES < size a)%nat).
  - assert (w ∪ w = w) as -> by set_solver. by destruct (decide _).
  - assert (w ∪ a = a) as -> by set_solver. by rewrite decide_False.
Qed.

Lemma bounded_again_sub (w w' a : gset string) :
  w' ⊆ w -> w' ⊆ a -> bounded w (w' ∪ bounded w a) = bounded w a.
Proof.
  intros Hw Hwa. unfold bounded. destruct (decide (MAX_SEEN_HASHES < size a)%nat).
  - assert (w' ∪ w = w) as -> by set_solver. by destruct (decide _).
  - assert (w' ∪ a = a) as -> by set_solver. by rewrite decide_False.
Qed.

Lemma window_in_bounded (w w' a : gset string) :
  w' ⊆ w -> w' ⊆ a -> w' ⊆ bounded w a.
Proof. intros Hw Ha. unfold bounded. by destruct (decide _). Qed.

Lemma quiet_logged (log : list string) : quiet (Logged <$> log).
Proof. apply Forall_fmap, Forall_true. done. Qed.

(** A round of a transfer channel on the window of the round before. *)
Lemma transfer_round_again address transfer_type config first resp seen_t seen' out :
  transfer_round address transfer_type config first resp seen_t = Ok (seen', out) ->
  exists out',
    transfer_round address transfer_type config false resp seen' = Ok (seen', out')
    /\ quiet out'.
Proof.
  intros H. apply transfer_round_inv in H
    as [(log & Hf & -> & _)|(v & l & incoming & Hf & Hv & Hi & Hh & -> & _)].
  - rewrite (transfer_round_skipped _ _ _ _ _ _ _ Hf).
    eexists. split; [reflexivity | apply quiet_logged].
  - rewrite (transfer_round_success _ _ _ _ _ _ _ _ _ _ Hf Hv Hi).
    rewrite decide_True by done.
    rewrite fresh_seen by (apply window_in_bounded; set_solver).
    cbn [reverse rev_append alert_all mbind result_bind].
    rewrite bounded_again by set_solver.
    eexists. split; [reflexivity | constructor].
Qed.

Lemma foldr_max_again (bs : list Z) (x : Z) :
  foldr Z.max (foldr Z.max x bs) bs = foldr Z.max x bs.
Proof.
  destruct (foldr_max_spec bs x) as (_ & Hall & _).
  set (m := foldr Z.max x bs) in *. clearbody m.
  induction Hall as [|b bs Hb _ IH]; cbn [foldr]; [reflexivity|].
  rewrite IH. lia.
Qed.

(** A round of the protocol channel on the window of the round before. *)
Lemma aave_round_again first ans seen_a from_block seen' from_block' out :
  aave_round first ans seen_a from_block = Ok (seen', from_block', out) ->
  exists out',
    aave_round false ans seen' from_block' = Ok (seen', from_block', out')
    /\ quiet out'.
Proof.
  intros H. apply aave_round_inv in H
    as [(log & Hf & -> & -> & _)|(v & logs & Hf & Hv & Hb & -> & -> & _)].
  - rewrite (aave_round_skipped _ _ _ _ _ Hf).
    eexists. split; [reflexivity | apply quiet_logged].
  - rewrite (aave_round_success _ _ _ _ _ _ _ Hf Hv).
    set (w := log_hashes logs).
    set (a := (if first then w else w ∖ {[""]}) ∪ seen_a).
    assert (Hwa : w ∖ {[""]} ⊆ a) by (unfold a; destruct first; set_solver).
    rewrite fresh_events_seen by (apply window_in_bounded; set_solver).
    cbn [alert_events mbind result_bind].
    rewrite advance_spec, decide_True by done. cbn [mbind result_bind].
    rewrite foldr_max_again, bounded_again_sub by set_solver.
    eexists. split; [reflexivity | constructor].
Qed.

(** The loop over the transfer types keeps the types of the state and
    adds those it visits. *)
Lemma poll_transfers_keys address types first ans seen_all seen_all' out t :
  poll_transfers address types first ans seen_all = Ok (seen_all', out) ->
  t ∈ types.*1 \/ is_Some (seen_all !! t) -> is_Some (seen_all' !! t).
Proof.
  revert seen_all out.
  induction types as [|[t0 config] rest IH]; intros seen_all out H Ht;
    cbn [poll_transfers] in H.
  - injection H as <- _. destruct Ht as [Ht|Ht]; [|done].
    by apply elem_of_nil in Ht.
  - inv_ok.
    lazymatch goal with
    | Hp : poll_transfers _ _ _ _ _ = Ok _ |- _ => eapply IH; [exact Hp|]
    end.
    destruct (decide (t = t0)) as [->|Hne].
    + right. rewrite lookup_insert_eq. eauto.
    + destruct Ht as [Ht|Ht].
      * left. cbn in Ht. apply elem_of_cons in Ht as [?|?]; [done|done].
      * right. by rewrite lookup_insert_ne.
Qed.

Lemma poll_transfers_again address types first ans seen_all seen_all' out :
  NoDup types.*1 ->
  poll_transfers address types first ans seen_all = Ok (seen_all', out) ->
  forall seen2 : gmap string (gset string),
    (forall t, t ∈ types.*1 -> seen2 !! t = Some (seen_all' !!! t)) ->
    exists out',
      poll_transfers address types false ans seen2 = Ok (seen2, out')
      /\ quiet out'.
Proof.
  revert seen_all out.
  induction types as [|[t config] rest IH]; intros seen_all out Hnd H seen2 Hk;
    cbn [poll_transfers] in *.
  - eexists. split; [reflexivity | constructor].
  - inv_ok.
    lazymatch goal with
    | Hr : transfer_round _ _ _ _ _ _ = Ok (?s, ?o),
      Hp : poll_transfers _ _ _ _ _ = Ok _ |- _ =>
        rename Hr into Hround; rename Hp into Hpoll; rename s into s0;
        rename o into o0
    end.
    apply NoDup_cons in Hnd as [Hnin Hnd].
    destruct (poll_transfers_Ok _ _ _ _ _ _ _ Hnd Hpoll) as [_ Hrest].
    assert (Ht : seen_all' !!! t = s0).
    { unfold lookup_total, map_lookup_total. rewrite (Hrest t Hnin).
      by rewrite lookup_insert_eq. }
    assert (H2 : seen2 !! t = Some s0).
    { rewrite <- Ht. apply Hk. cbn. apply list_elem_of_here. }
    rewrite (lookup_total_correct _ _ _ H2).
    destruct (transfer_round_again _ _ _ _ _ _ _ _ Hround) as (o' & -> & Hq).
    cbn [mbind result_bind]. rewrite (insert_id _ _ _ H2).
    destruct (IH _ _ Hnd Hpoll seen2) as (more & -> & Hq').
    { intros t' Ht'. apply Hk. cbn. by apply list_elem_of_further. }
    cbn [mbind result_bind]. eexists. split; [reflexivity|].
    by apply Forall_app.
Qed.

(** X3. A round that receives the answers of the round before it, which
    completed, completes as well, emits no alert and leaves the state of
    the loop as it is: every identifier of a window is in its Seen Set
    after the round, whether or not the round reset the set, and the
    block cursor is already the maximum of the window. *)
Theorem repeated_round_is_quiet address watch_aave ans st st' out :
  poll_round address watch_aave ans st = Ok (st', out) ->
  exists out',
    poll_round address watch_aave ans st' = Ok (st', out') /\ quiet out'.
Proof.
  unfold poll_round. intros H. inv_ok.
  lazymatch goal with
  | Hp : poll_transfers _ _ _ _ _ = Ok (?s, _) |- _ =>
      rename Hp into Hpoll; rename s into seen1
  end.
  cbn [seen first_run aave_seen aave_from_block].
  destruct (poll_transfers_again _ _ _ _ _ _ _ TRANSFER_TYPES_NoDup Hpoll seen1)
    as (o1 & -> & Hq1).
  { intros t Ht. pose proof (poll_transfers_keys _ _ _ _ _ _ _ t Hpoll (or_introl Ht))
      as [s Hs].
    rewrite Hs. f_equal. symmetry. by apply lookup_total_correct. }
  cbn [mbind result_bind]. destruct watch_aave.
  - lazymatch goal with
    | Ha : aave_round _ _ _ _ = Ok _ |- _ =>
        destruct (aave_round_again _ _ _ _ _ _ _ Ha) as (o2 & -> & Hq2)
    end.
    cbn [mbind result_bind]. eexists. split; [reflexivity|]. by apply Forall_app.
  - inv_ok. cbn [mbind result_bind]. eexists. split; [reflexivity|].
    apply Forall_app. split; [done | constructor].
Qed.

Lemma repeated_round_is_quiet_witness :
  exists st' out out',
    poll_round sample_address false (nft_answers sample_window) seeded_state
      = Ok (st', out)
    /\ poll_round sample_address false (nft_answers sample_window) st'
       = Ok (st', out')
    /\ quiet out'.
Proof.
  destruct (poll_round_total sample_address false (nft_answers sample_window)
              seeded_state
              (well_formed_nft_answers _ well_formed_sample_window))
    as (st' & out & H).
  exists st', out.
  destruct (repeated_round_is_quiet _ _ _ _ _ _ H) as (out' & H' & Hq).
  exists out'. split; [exact H|]. split; [exact H' | exact Hq].
Defined.

End Repeated.

(** ** The letter case of the address *)

Section LetterCase.

Lemma filter_incoming_case (transfers : list record) (a b t : string) :
  PyStr.lower a = PyStr.lower b ->
  filter_incoming transfers a t = filter_incoming transfers b t.
Proof. intros H. unfold filter_incoming. by rewrite H. Qed.

Lemma transfer_round_case a b t config first resp seen_t :
  PyStr.lower a = PyStr.lower b ->
  transfer_round a t config first resp seen_t
  = transfer_round b t config first resp seen_t.
Proof.
  intros H. unfold transfer_round.
  destruct (fetch_transfers resp (action config)) as [[v|] log]; [|reflexivity].
  destruct (as_records v) as [l|e]; [|reflexivity]. cbn [mbind result_bind].
  by rewrite (filter_incoming_case l a b t H).
Qed.

Lemma poll_transfers_case a b types first ans seen_all :
  PyStr.lower a = PyStr.lower b ->
  poll_transfers a types first ans seen_all
  = poll_transfers b types first ans seen_all.
Proof.
  intros H. revert seen_all.
  induction types as [|[t config] rest IH]; intros seen_all;
    cbn [poll_transfers]; [reflexivity|].
  rewrite (transfer_round_case a b t config first _ _ H).
  destruct (transfer_round b t config first _ _) as [[s out]|e]; [|reflexivity].
  cbn [mbind result_bind]. by rewrite IH.
Qed.

(** X4. The letter case of the monitored address is immaterial: two
    addresses that are equal once lower-cased give the same rounds, with
    the same alerts, the same state and the same failures. *)
Theorem address_case_is_immaterial (a b : string) watch_aave inputs st :
  PyStr.lower a = PyStr.lower b ->
  rounds a watch_aave inputs st = rounds b watch_aave inputs st.
Proof.
  intros H. revert st.
  induction inputs as [|ans rest IH]; intros st; cbn [rounds]; [reflexivity|].
  unfold poll_round. rewrite (poll_transfers_case a b _ _ _ _ H).
  destruct (poll_transfers b _ _ _ _) as [[s out]|e]; [|reflexivity].
  cbn [mbind result_bind].
  destruct (if watch_aave then _ else _) as [[[sa fb] oa]|e]; [|reflexivity].
  cbn [mbind result_bind]. by rewrite IH.
Qed.

Lemma address_case_is_immaterial_witness :
  PyStr.lower sample_address = PyStr.lower lowercase_sample_address
  /\ rounds sample_address false [nft_answers sample_window] seeded_state
     = rounds lowercase_sample_address false [nft_answers sample_window]
         seeded_state.
Proof.
  assert (H : PyStr.lower sample_address = PyStr.lower lowercase_sample_address)
    by (vm_compute; reflexivity).
  split; [exact H|].
  exact (address_case_is_immaterial sample_address lowercase_sample_address
           false [nft_answers sample_window] seeded_state H).
Defined.

End LetterCase.

(** ** What an alert is for *)

Section Justified.

Lemma filter_incoming_elem transfers address transfer_type incoming tx :
  filter_incoming transfers address transfer_type = Ok incoming ->
  tx ∈ incoming ->
  addressed_to address tx = true
  /\ (transfer_type = "ETH" -> not_failed tx = true /\ positive_value tx = true).
Proof.
  unfold filter_incoming. intros H Htx.
  destruct (decide (transfer_type = "ETH")) as [->|Hne].
  - pose proof (filter_raising_eth
                  (List.filter (to_matches (PyStr.lower address)) transfers)) as Hr.
    rewrite H in Hr. subst incoming.
    apply list_elem_of_In, filter_In in Htx as [Htx Hc].
    apply filter_In in Htx as [_ Hto]. apply andb_prop in Hc. done.
  - injection H as <-. apply list_elem_of_In, filter_In in Htx as [_ Hto]. done.
Qed.

Lemma Forall2_Forall_r {A B : Type} (P : A -> B -> Prop) (Q : B -> Prop)
    (l : list A) (k : list B) :
  Forall2 P l k -> (forall x y, x ∈ l -> P x y -> Q y) -> Forall Q k.
Proof.
  induction 1 as [|x y l k Hxy _ IH]; intros HPQ; constructor.
  - eapply HPQ; [apply list_elem_of_here | exact Hxy].
  - apply IH. intros x' y' Hin. apply HPQ. by apply list_elem_of_further.
Qed.

Lemma transfer_round_justified address watch_aave t config first resp seen_t
    seen' out :
  (t, config) ∈ TRANSFER_TYPES ->
  transfer_round address t config first resp seen_t = Ok (seen', out) ->
  Forall (justified address watch_aave) out.
Proof.
  intros Hin H. apply transfer_round_inv in H
    as [(log & _ & _ & ->)|(v & l & incoming & _ & _ & Hi & Hh & _ & Hout)].
  - apply Forall_fmap, Forall_true. done.
  - destruct first; [subst; constructor|].
    eapply Forall2_Forall_r; [exact Hout|].
    intros tx ev Htx (printed & Hp & ->). cbn [justified].
    rewrite elem_of_reverse in Htx.
    assert (Htx' : tx ∈ incoming)
      by (eapply elem_of_sublist; [exact Htx | apply fresh_sublist]).
    destruct (filter_incoming_elem _ _ _ _ _ Hi Htx') as [Hto Heth].
    split; [by exists config|]. split; [done|]. split; [done|].
    split; [|done]. rewrite Forall_forall in Hh. by apply Hh.
Qed.

Lemma aave_round_justified address first ans seen_a from_block seen' from_block'
    out :
  aave_round first ans seen_a from_block = Ok (seen', from_block', out) ->
  Forall (justified address true) out.
Proof.
  intros H. apply aave_round_inv in H
    as [(log & _ & _ & _ & ->)|(v & logs & _ & _ & _ & _ & _ & Hout)].
  - apply Forall_fmap, Forall_true. done.
  - destruct first; [subst; constructor|].
    eapply Forall2_Forall_r; [exact Hout|].
    intros log ev Hlog (decoded & Hd & ->). cbn [justified].
    do 3 (split; [reflexivity|]).
    rewrite (decode_tx_hash _ _ _ Hd).
    assert (Hid : log_id log ∈ log_id <$> fresh_events logs seen_a)
      by (apply list_elem_of_fmap; eauto).
    apply fresh_events_ids in Hid. tauto.
Qed.

Lemma poll_round_justified address watch_aave ans st st' out :
  poll_round address watch_aave ans st = Ok (st', out) ->
  Forall (justified address watch_aave) out.
Proof.
  intros H. apply poll_round_inv in H as (outs & out_a & -> & Hall & _ & Ha & _).
  apply Forall_app. split.
  - apply Forall_concat, Forall_forall. intros o Ho.
    apply list_elem_of_lookup in Ho as [i Hi].
    destruct (Forall2_lookup_r _ _ _ _ _ Hall Hi) as ([t config] & Htc & Hround).
    eapply transfer_round_justified; [|exact Hround].
    by eapply list_elem_of_lookup_2.
  - destruct watch_aave.
    + by eapply aave_round_justified.
    + destruct Ha as (_ & _ & ->). constructor.
Qed.

Lemma rounds_justified address watch_aave inputs st st' out :
  rounds address watch_aave inputs st = Ok (st', out) ->
  Forall (justified address watch_aave) out.
Proof.
  revert st out. induction inputs as [|ans rest IH]; intros st out H;
    cbn [rounds] in H.
  - injection H as _ <-. constructor.
  - inv_ok. apply Forall_app. split.
    + by eapply poll_round_justified.
    + by eapply IH.
Qed.

(** X5. Every alert of a run is justified.  A transfer alert is for a
    transfer whose recipient is the monitored address, letter case apart,
    which carries a hash and, in the ETH category, did not fail and has a
    positive amount; it carries the text of [print_transfer] for that
    transfer and the sound configured for its type.  An alert of the
    protocol channel is emitted only when the channel is watched, for a
    log with a transaction hash, with the text of [print_supply_event]
    and the protocol sound. *)
Theorem alerts_are_justified address watch_aave inputs st st' out :
  rounds address watch_aave inputs st = Ok (st', out) ->
  Forall (justified address watch_aave) out.
Proof. apply rounds_justified. Qed.

Lemma alerts_are_justified_witness :
  exists st' out,
    rounds sample_address false [nft_answers sample_window] seeded_state
      = Ok (st', out)
    /\ Forall (justified sample_address false) out.
Proof.
  destruct (rounds_total sample_address false
              [nft_answers sample_window] seeded_state)
    as (st' & out & H).
  { constructor; [|constructor].
    apply well_formed_nft_answers, well_formed_sample_window. }
  exists st', out. split; [exact H|].
  exact (alerts_are_justified _ _ _ _ _ _ H).
Defined.

End Justified.

(** ** The protocol channel switched off *)

Section SwitchedOff.

Lemma poll_transfers_same address types first (a b : answers) seen_all :
  same_transfers a b ->
  poll_transfers address types first a seen_all
  = poll_transfers address types first b seen_all.
Proof.
  intros H. revert seen_all.
  induction types as [|[t config] rest IH]; intros seen_all;
    cbn [poll_transfers]; [reflexivity|].
  rewrite (H (action config)).
  destruct (transfer_round _ _ _ _ _ _) as [[s out]|e]; [|reflexivity].
  cbn [mbind result_bind]. by rewrite IH.
Qed.

Lemma rounds_same address inputs inputs' st :
  Forall2 same_transfers inputs inputs' ->
  rounds address false inputs st = rounds address false inputs' st.
Proof.
  intros Hsame. revert st.
  induction Hsame as [|a b inputs inputs' Hab _ IH]; intros st; cbn [rounds];
    [reflexivity|].
  unfold poll_round. rewrite (poll_transfers_same _ _ _ a b _ Hab).
  destruct (poll_transfers _ _ _ b _) as [[s o]|e]; cbn [mbind result_bind];
    [|reflexivity].
  by rewrite IH.
Qed.

Lemma rounds_unwatched address inputs st st' out :
  rounds address false inputs st = Ok (st', out) ->
  aave_seen st' = aave_seen st /\ aave_from_block st' = aave_from_block st.
Proof.
  revert st out. induction inputs as [|ans rest IH]; intros st out H;
    cbn [rounds] in H.
  - by injection H as <- _.
  - inv_ok.
    lazymatch goal with
    | Hp : poll_round _ _ _ _ = Ok _, Hr : rounds _ _ _ _ = Ok _ |- _ =>
        apply poll_round_inv in Hp as (_ & _ & _ & _ & _ & (Hs & Hb & _) & _);
        apply IH in Hr as [Hs' Hb']
    end.
    split; congruence.
Qed.

(** X6. Without [--watch-aave] the loop does not depend on the protocol
    channel: two runs that receive the same answers to their transfer
    queries are equal, whatever the log query and the sender lookups
    would answer, and a run leaves the Seen Set and the block cursor of
    the protocol channel as they were. *)
Theorem unwatched_protocol_is_untouched address inputs inputs' st :
  Forall2 same_transfers inputs inputs' ->
  rounds address false inputs st = rounds address false inputs' st
  /\ forall st' out,
       rounds address false inputs st = Ok (st', out) ->
       aave_seen st' = aave_seen st
       /\ aave_from_block st' = aave_from_block st.
Proof.
  intros Hsame. split; [by apply rounds_same|].
  intros st' out. apply rounds_unwatched.
Qed.

Lemma unwatched_protocol_is_untouched_witness :
  Forall2 same_transfers [nft_answers sample_window]
    [nft_answers_with_log sample_window]
  /\ rounds sample_address false [nft_answers sample_window] seeded_state
     = rounds sample_address false [nft_answers_with_log sample_window]
         seeded_state.
Proof.
  assert (H : Forall2 same_transfers [nft_answers sample_window]
                [nft_answers_with_log sample_window]).
  { constructor; [|constructor]. intros act. reflexivity. }
  split; [exact H|].
  exact (proj1 (unwatched_protocol_is_untouched sample_address _ _ seeded_state H)).
Defined.

End SwitchedOff.

(** ** The command line *)

Section CommandLine.

Lemma monitor_complete address watch_aave block_answer inputs :
  (watch_aave = true -> is_ok (get_current_block block_answer) = true) ->
  Forall well_formed_answers inputs ->
  exists st out,
    monitor address watch_aave block_answer inputs = Ok (st, out)
    /\ Forall (justified address watch_aave) out.
Proof.
  intros Hb Hwf. unfold monitor.
  assert (exists block log,
    (if watch_aave then
       block ← get_current_block block_answer;
       Ok (block,
           get_current_block_log block_answer
           ++ match block with
              | Some _ => []
              | None =>
                  ["Warning: Could not fetch current block. Aave monitoring starts from block 0."]
              end)
     else Ok (None, [])) = Ok (block, log)) as (block & log & ->).
  { destruct watch_aave; [|eauto]. specialize (Hb eq_refl).
    destruct (get_current_block block_answer); [|discriminate].
    cbn [mbind result_bind]. eauto. }
  cbn [mbind result_bind].
  destruct (rounds_total address watch_aave inputs
              (initial_state watch_aave block) Hwf) as (st & out & Hrun).
  rewrite Hrun. cbn [mbind result_bind].
  eexists _, _. split; [reflexivity|]. apply Forall_app. split.
  - apply Forall_fmap, Forall_true. done.
  - by eapply rounds_justified.
Qed.


End CommandLine.

(** ** The block from which the logs are read *)

Section Cursor.
Import PyStr PyInt.

Lemma lstrip_chars_snoc (space : ascii -> bool) (l : list ascii) (c : ascii) :
  space c = false -> exists l', lstrip_chars space (l ++ [c]) = l' ++ [c].
Proof.
  intros Hc. induction l as [|x l [l' IH]]; cbn [app lstrip_chars].
  - rewrite Hc. by exists [].
  - destruct (space x); [by exists l'|]. by exists (x :: l).
Qed.

Lemma strip_chars_head (space : ascii -> bool) (c : ascii) (l : list ascii) :
  space c = false -> exists l', strip_chars space (c :: l) = c :: l'.
Proof.
  intros Hc. unfold strip_chars. cbn [lstrip_chars]. rewrite Hc.
  rewrite reverse_cons.
  destruct (lstrip_chars_snoc space (reverse l) c Hc) as [l' ->].
  rewrite reverse_app. by exists (reverse l').
Qed.

(** A hexadecimal string that starts with the digit 0 is not negative. *)
Lemma parse16_prefixed (s : string) (n : Z) :
  startswith "0x" s = true -> parse16 s = Some n -> 0 <= n.
Proof.
  destruct s as [|c s]; [discriminate|]. cbn [startswith].
  destruct (decide ("0"%char = c)) as [<-|]; [|discriminate]. intros _.
  unfold parse16. change (chars (String "0" s)) with ("0"%char :: chars s).
  destruct (strip_chars_head is_c_space "0"%char (chars s) eq_refl) as [l' ->].
  change (split_sign ("0"%char :: l')) with (false, "0"%char :: l').
  cbv iota beta.
  destruct (digits_value 16 digit16 _) as [v|] eqn:Hv; [|discriminate].
  intros [= <-]. apply digits_value_bound in Hv. cbn [apply_sign]. lia.
Qed.

Lemma get_current_block_nonneg (resp : http_outcome) (b : Z) :
  get_current_block resp = Ok (Some b) -> 0 <= b.
Proof.
  unfold get_current_block. destruct resp as [| |data]; try discriminate.
  destruct (data !! "result") as [[r|l|d]|]; try discriminate.
  - destruct (negb _ && startswith "0x" r) eqn:E; [|discriminate].
    apply andb_prop in E as [_ Hp]. unfold int16.
    destruct (parse16 r) as [n|] eqn:Hn; [|discriminate].
    intros [= <-]. by eapply parse16_prefixed.
  - destruct (decide (l = [])); discriminate.
  - destruct (decide (d = ∅)); discriminate.
Qed.

Lemma rounds_cursor address watch_aave inputs st st' out :
  rounds address watch_aave inputs st = Ok (st', out) ->
  aave_from_block st <= aave_from_block st'.
Proof.
  revert st out. induction inputs as [|ans rest IH]; intros st out H;
    cbn [rounds] in H.
  - injection H as <- _. lia.
  - inv_ok.
    lazymatch goal with
    | Hp : poll_round _ _ _ _ = Ok _, Hr : rounds _ _ _ _ = Ok _ |- _ =>
        apply poll_round_cursor in Hp; apply IH in Hr; lia
    end.
Qed.

(** X8. The block from which the monitor reads the logs is never
    negative, also when a log carries a negative block number.  Without
    [--watch-aave] it stays 0.  With it, the current block that
    [get_current_block] returns is not negative, the cursor never falls
    more than 200 blocks behind it, and before the first round the cursor
    is at most the current block. *)
Theorem monitor_looks_back_200_blocks
    address watch_aave block_answer inputs st out :
  monitor address watch_aave block_answer inputs = Ok (st, out) ->
  0 <= aave_from_block st
  /\ (watch_aave = false -> aave_from_block st = 0)
  /\ (forall b,
        watch_aave = true -> get_current_block block_answer = Ok (Some b) ->
        0 <= b /\ b - AAVE_LOOKBACK_BLOCKS <= aave_from_block st
        /\ (inputs = [] -> aave_from_block st <= b)).
Proof.
  unfold monitor. intros H. destruct watch_aave.
  - destruct (get_current_block block_answer) as [block|e] eqn:Hb;
      cbn [mbind result_bind] in H; [|discriminate].
    inv_ok.
    lazymatch goal with
    | Hr : rounds _ _ _ _ = Ok _ |- _ => rename Hr into Hrun
    end.
    pose proof (rounds_cursor _ _ _ _ _ _ Hrun) as Hc.
    cbn [aave_from_block initial_state] in Hc.
    split; [destruct block; lia|]. split; [discriminate|].
    intros b _ [= ->]. pose proof (get_current_block_nonneg _ _ Hb).
    split; [done|]. split; [lia|].
    intros ->. cbn [rounds] in Hrun. injection Hrun as <- _.
    cbn [aave_from_block initial_state]. unfold AAVE_LOOKBACK_BLOCKS. lia.
  - cbn [mbind result_bind] in H. inv_ok.
    lazymatch goal with
    | Hr : rounds _ _ _ _ = Ok _ |- _ =>
        apply rounds_unwatched in Hr as [_ Hr]; cbn [aave_from_block initial_state] in Hr
    end.
    split; [lia|]. split; [done | discriminate].
Qed.

Lemma monitor_looks_back_200_blocks_witness :
  exists st out,
    monitor sample_address true current_block_body [] = Ok (st, out)
    /\ 0 <= aave_from_block st
    /\ 20000000 - AAVE_LOOKBACK_BLOCKS <= aave_from_block st <= 20000000.
Proof.
  destruct (monitor_complete sample_address true current_block_body [])
    as (st & out & H & _).
  { intros _. vm_compute. reflexivity. }
  { constructor. }
  exists st, out. split; [exact H|].
  destruct (monitor_looks_back_200_blocks _ _ _ _ _ _ H) as (H0 & _ & Hb).
  split; [exact H0|].
  assert (Hblock : get_current_block current_block_body = Ok (Some 20000000))
    by (vm_compute; reflexivity).
  destruct (Hb 20000000 eq_refl Hblock) as (_ & Hlow & Hup).
  split; [exact Hlow | exact (Hup eq_refl)].
Defined.

End Cursor.

(** ** The decoder on any log *)

Section Decoder.
Import PyStr PyInt.

Lemma length_slice (a b : nat) (s : string) :
  (b <= String.length s)%nat -> String.length (slice a b s) = (b - a)%nat.
Proof.
  intros Hb. unfold slice.
  rewrite <- length_chars, chars_of_chars, length_take, length_drop, length_chars.
  lia.
Qed.

Lemma length_append (s t : string) :
  String.length (s +:+ t) = (String.length s + String.length t)%nat.
Proof. induction s as [|c s IH]; simpl; [done | by rewrite IH]. Qed.

(** The beneficiary is "unknown" or has the shape of an address. *)
Lemma decode_user log sender_of ev :
  decode_supply_event log sender_of = Ok ev ->
  user ev =
    (if 66 <=? PyStr.len (get log "data" "0x")
     then "0x" +:+ slice 26 66 (get log "data" "0x") else "unknown")
  /\ (user ev = "unknown"
      \/ (PyStr.len (user ev) = 42 /\ startswith "0x" (user ev) = true)).
Proof.
  unfold decode_supply_event. intros H. inv_ok. cbn [user].
  split; [reflexivity|].
  destruct (66 <=? PyStr.len (get log "data" "0x")) eqn:E; [|by left].
  right. split; [|reflexivity]. unfold PyStr.len in *.
  rewrite length_append, length_slice by lia. reflexivity.
Qed.

Lemma decode_fields log sender_of ev :
  decode_supply_event log sender_of = Ok ev ->
  tx_hash ev = log_id log
  /\ block_of log = Some (block_number ev)
  /\ sender ev =
       (if decide (log_id log = "") then None
        else get_tx_sender (sender_of (log_id log))).
Proof.
  unfold decode_supply_event. intros H. inv_ok.
  cbn [tx_hash block_number sender]. split; [reflexivity|]. split; [|reflexivity].
  unfold block_of.
  lazymatch goal with
  | Hb : int16 (get log "blockNumber" "0x0") = Ok _ |- _ =>
      unfold int16 in Hb; destruct (parse16 _); [by injection Hb as -> | discriminate]
  end.
Qed.

Lemma decode_supply_event_Raise log sender_of e :
  decode_supply_event log sender_of = Raise e ->
  e = ValueError /\ ~ well_formed_log log.
Proof.
  intros H. split.
  - unfold decode_supply_event in H.
    set (data := get log "data" "0x") in *.
    destruct (130 <=? PyStr.len data) eqn:E.
    + unfold int16 in H.
      destruct (parse16 (slice 66 130 data)) as [n|] eqn:Hn;
        cbn [mbind result_bind] in H; [|by injection H as <-].
      destruct (format_str_total n) as [text Ht].
      { apply parse16_bound in Hn.
        pose proof (slice_length 66 130 data) as Hl.
        assert (16 ^ Z.of_nat (String.length (slice 66 130 data)) <= 16 ^ 64)
          by (apply Z.pow_le_mono_r; lia).
        assert (ndigits (Z.abs n) <= 78)%nat; [|lia].
        apply ndigits_le; [|lia].
        assert (16 ^ 64 < 10 ^ Z.of_nat 78) by (by vm_compute). lia. }
      rewrite Ht in H. cbn [mbind result_bind] in H.
      destruct (parse16 (get log "blockNumber" "0x0")); cbn [mbind result_bind] in H;
        [discriminate | by injection H as <-].
    + cbn [mbind result_bind] in H.
      change (format_token_amount (str 0) (AStr "18")) with (@Ok string "0") in H.
      cbn [mbind result_bind] in H. unfold int16 in H.
      destruct (parse16 (get log "blockNumber" "0x0")); cbn [mbind result_bind] in H;
        [discriminate | by injection H as <-].
  - intros Hwf. destruct (decode_supply_event_total log sender_of Hwf) as [ev Hev].
    congruence.
Qed.

End Decoder.

Section DecoderOutcome.
Import PyStr PyInt.

Lemma decode_supply_event_Ok log sender_of ev :
  decode_supply_event log sender_of = Ok ev -> well_formed_log log.
Proof.
  intros H. pose proof (decode_fields _ _ _ H) as (_ & Hb & _).
  split; [by eexists|].
  unfold decode_supply_event in H. set (data := get log "data" "0x") in *.
  destruct (130 <=? PyStr.len data) eqn:E; [|left; lia].
  right. unfold int16 in H.
  destruct (parse16 (slice 66 130 data)); [eauto | discriminate].
Qed.

Lemma digit_string_str (n : Z) : 0 <= n -> digit_string (str n) n.
Proof.
  intros Hn. unfold str. destruct (n <? 0) eqn:E; [lia|].
  unfold digit_string. rewrite chars_of_chars.
  split; [|split].
  - pose proof (ndigits_pos n) as Hp. rewrite <- digits_length in Hp.
    destruct (digits n); [cbn in Hp; lia | done].
  - apply digits_all_digits.
  - by apply of_digits_digits.
Qed.

(** X9. What [decode_supply_event] does on any log.  It raises only
    ValueError, and exactly on a log that is not well formed: its block
    number is not hexadecimal, or its payload holds a second word that is
    not.  Otherwise the event carries the transaction hash of the log and
    its block number; its sender is looked up only for a non-empty hash;
    and its beneficiary is "unknown" or has the shape of an address, 42
    characters that start with "0x". *)
Theorem decode_supply_event_outcome log sender_of :
  match decode_supply_event log sender_of with
  | Ok ev =>
      well_formed_log log
      /\ tx_hash ev = log_id log
      /\ block_of log = Some (block_number ev)
      /\ sender ev =
           (if decide (log_id log = "") then None
            else get_tx_sender (sender_of (log_id log)))
      /\ (user ev = "unknown"
          \/ (PyStr.len (user ev) = 42 /\ PyStr.startswith "0x" (user ev) = true))
  | Raise e => e = ValueError /\ ~ well_formed_log log
  end.
Proof.
  destruct (decode_supply_event log sender_of) as [ev|e] eqn:H.
  - split; [by eapply decode_supply_event_Ok|].
    destruct (decode_fields _ _ _ H) as (H1 & H2 & H3).
    destruct (decode_user _ _ _ H) as [_ H4]. done.
  - by apply decode_supply_event_Raise in H.
Qed.

(** X10. The amount of a full payload.  When the payload holds both
    words (130 characters or more), the second word reads as the
    hexadecimal integer [n] and the block number is hexadecimal, the
    event is decoded, its beneficiary is "0x" followed by characters 26
    to 65 of the payload, and its amount is [n / 10^18] in positional
    notation, for [n] below [10^28] that is not a multiple of [10^19] and
    is at least [10^12] wei. *)
Theorem decoded_amount_of_full_payload log sender_of n :
  130 <= PyStr.len (get log "data" "0x") ->
  parse16 (slice 66 130 (get log "data" "0x")) = Some n ->
  has_block log ->
  0 < n < 10 ^ 28 -> n mod 10 ^ 19 <> 0 -> 10 ^ 18 <= n * 10 ^ 6 ->
  exists ev,
    decode_supply_event log sender_of = Ok ev
    /\ amount_display ev = positional n 18
    /\ user ev = "0x" +:+ slice 26 66 (get log "data" "0x").
Proof.
  intros Hlen Hn [b Hb] Hrange Hmult Hsmall. unfold decode_supply_event.
  set (data := get log "data" "0x") in *.
  destruct (130 <=? PyStr.len data) eqn:E; [|lia].
  destruct (66 <=? PyStr.len data) eqn:E'; [|lia].
  unfold int16. rewrite Hn. cbn [mbind result_bind].
  assert (Hf : format_token_amount (str n) (AStr "18") = Ok (positional n 18)).
  { unfold format_token_amount.
    change (int_of_arg (AStr "18")) with (@Ok Z 18). cbv iota.
    change (18 =? 0) with false. cbv iota.
    change 18 with (Z.of_nat 18).
    apply format_pipeline; [apply digit_string_str; lia | done | lia | |].
    - exact Hmult.
    - exact Hsmall. }
  rewrite Hf. cbn [mbind result_bind].
  unfold block_of in Hb. rewrite Hb. cbn [mbind result_bind].
  eexists. split; [reflexivity|]. split; reflexivity.
Qed.

Lemma decoded_amount_of_full_payload_witness :
  exists ev,
    decode_supply_event full_log no_answer = Ok ev
    /\ amount_display ev = positional 1500000000000000000 18
    /\ user ev = "0x" +:+ PyStr.slice 26 66 (get full_log "data" "0x").
Proof.
  apply (decoded_amount_of_full_payload full_log no_answer 1500000000000000000).
  - by vm_compute.
  - vm_compute. reflexivity.
  - exists 16. vm_compute. reflexivity.
  - by vm_compute.
  - by vm_compute.
  - by vm_compute.
Defined.

End DecoderOutcome.

(** ** A steady round of the protocol channel *)

Section SteadySupplies.

Lemma fresh_events_NoDup (logs : list record) (seen_a : gset string) :
  NoDup (log_id <$> fresh_events logs seen_a).
Proof.
  revert seen_a. induction logs as [|log rest IH]; intros seen_a;
    cbn [fresh_events]; [constructor|].
  destruct (decide _) as [[Hne Hnin]|_]; [|apply IH].
  rewrite fmap_cons. constructor; [|apply IH].
  intros Hc. apply fresh_events_ids in Hc. set_solver.
Qed.

Lemma fresh_events_length (logs : list record) (seen_a : gset string) :
  length (fresh_events logs seen_a) = size ((log_hashes logs ∖ {[""]}) ∖ seen_a).
Proof.
  rewrite <- (length_fmap log_id).
  assert (H : (log_hashes logs ∖ {[""]}) ∖ seen_a
              = list_to_set (log_id <$> fresh_events logs seen_a)).
  { apply set_eq. intros h. rewrite elem_of_list_to_set, fresh_events_ids.
    unfold log_hashes. rewrite !elem_of_difference, elem_of_list_to_set.
    rewrite elem_of_singleton. fold log_id. tauto. }
  rewrite H. symmetry. apply size_list_to_set, fresh_events_NoDup.
Qed.

(** X11. In a steady-phase round of the protocol channel whose query
    succeeds, the alerts are those of the new logs, the logs that carry a
    non-empty transaction hash absent from the Seen Set for the first
    time: one alert per new log, as many as there are such hashes, in the
    order of the query (not reversed, unlike the transfers), and every
    such hash is in the Seen Set after the round.  The round raises only
    ValueError, on a log that is not well formed. *)
Theorem steady_supply_round_alerts ans seen_a from_block v log logs :
  fetch_aave_supply_logs (logs_answer ans) = (Some v, log) ->
  as_records v = Ok logs ->
  match aave_round false ans seen_a from_block with
  | Ok (seen', _, alerts) =>
      exists new_events,
        Forall2 (supply_alert_for (sender_of ans)) new_events alerts
        /\ sublist new_events logs
        /\ NoDup (log_id <$> new_events)
        /\ (forall h, h ∈ log_id <$> new_events <->
                      h ∈ log_id <$> logs /\ h <> "" /\ h ∉ seen_a)
        /\ length alerts = size ((log_hashes logs ∖ {[""]}) ∖ seen_a)
        /\ (forall h, h ∈ log_id <$> logs -> h <> "" -> h ∈ seen')
  | Raise e => e = ValueError /\ ~ Forall well_formed_log logs
  end.
Proof.
  intros Hf Hv. rewrite (aave_round_success _ _ _ _ _ _ _ Hf Hv).
  destruct (alert_events _ _) as [alerts|e] eqn:Ha; cbn [mbind result_bind].
  - rewrite advance_spec.
    destruct (decide (Forall has_block logs)) as [Hb|Hb]; cbn [mbind result_bind].
    + exists (fresh_events logs seen_a). apply alert_events_Ok in Ha.
      split; [exact Ha|]. split; [apply fresh_events_sublist|].
      split; [apply fresh_events_NoDup|]. split; [apply fresh_events_ids|].
      split.
      * rewrite <- (Forall2_length _ _ _ Ha). apply fresh_events_length.
      * intros h Hin Hne.
        assert (h ∈ log_hashes logs ∖ {[""]}).
        { unfold log_hashes. apply elem_of_difference.
          split; [by apply elem_of_list_to_set | set_solver]. }
        apply (window_in_bounded (log_hashes logs)
                 (log_hashes logs ∖ {[""]})); set_solver.
    + split; [reflexivity|]. intros Hwf. apply Hb.
      eapply Forall_impl; [exact Hwf|]. intros lg Hlg. apply Hlg.
  - apply alert_events_Raise in Ha as (lg & Hlg & Hd).
    apply decode_supply_event_Raise in Hd as [-> Hn]. split; [reflexivity|].
    intros Hwf. apply Hn. rewrite Forall_forall in Hwf. apply Hwf.
    eapply elem_of_sublist; [exact Hlg | apply fresh_events_sublist].
Qed.

Lemma steady_supply_round_alerts_witness :
  match aave_round false (supply_answers [full_log]) ∅ 0 with
  | Ok (seen', _, alerts) =>
      exists new_events,
        Forall2 (supply_alert_for (sender_of (supply_answers [full_log])))
          new_events alerts
        /\ sublist new_events [full_log]
        /\ NoDup (log_id <$> new_events)
        /\ (forall h, h ∈ log_id <$> new_events <->
                      h ∈ log_id <$> [full_log] /\ h <> "" /\ h ∉ (∅ : gset string))
        /\ length alerts = size ((log_hashes [full_log] ∖ {[""]}) ∖ ∅)
        /\ (forall h, h ∈ log_id <$> [full_log] -> h <> "" -> h ∈ seen')
  | Raise e => e = ValueError /\ ~ Forall well_formed_log [full_log]
  end.
Proof.
  assert (Hf : fetch_aave_supply_logs (logs_answer (supply_answers [full_log]))
               = (Some (JList [full_log]), []))
    by (vm_cast_no_check (eq_refl (Some (JList [full_log]), @nil string))).
  pose proof (steady_supply_round_alerts (supply_answers [full_log]) ∅ 0
                (JList [full_log]) [] [full_log] Hf eq_refl) as H.
  exact H.
Defined.

End SteadySupplies.

(** ** An empty result of the log query *)

Section EmptyLogs.

Lemma fetch_logs_empty data :
  status_is_1 data = false ->
  message_contains "No records found" (default (JStr "") (data !! "message"))
  || message_contains "No transactions found" (default (JStr "") (data !! "message"))
  = true ->
  fetch_aave_supply_logs (JsonBody data) = (Some (JList []), []).
Proof. intros Hs Hm. unfold fetch_aave_supply_logs. by rewrite Hs, Hm. Qed.

Lemma fetch_logs_failure resp log :
  fetch_aave_supply_logs resp = (None, log) -> exists line, log = [line].
Proof.
  unfold fetch_aave_supply_logs. destruct resp as [| |data].
  - intros [= <-]. eauto.
  - intros [= <-]. eauto.
  - destruct (negb (status_is_1 data)); [|discriminate].
    destruct (_ || _); [discriminate|]. intros [= <-]. eauto.
Qed.

Lemma aave_round_empty first ans seen_a from_block v log :
  (size seen_a <= MAX_SEEN_HASHES)%nat ->
  fetch_aave_supply_logs (logs_answer ans) = (Some v, log) ->
  as_records v = Ok [] ->
  aave_round first ans seen_a from_block = Ok (seen_a, from_block, []).
Proof.
  intros Hs Hf Hv. rewrite (aave_round_success _ _ _ _ _ _ _ Hf Hv).
  assert ((if first then Ok []
           else alert_events (fresh_events [] seen_a) (sender_of ans)) = Ok [])
    as -> by (by destruct first).
  cbn [mbind result_bind advance]. do 2 f_equal. f_equal.
  assert (log_hashes [] = (∅ : gset string)) as -> by reflexivity.
  assert ((if first then (∅ : gset string) else ∅ ∖ {[""]}) ∪ seen_a = seen_a)
    as -> by (destruct first; set_solver).
  unfold bounded. destruct (decide _); [lia | reflexivity].
Qed.

(** X12. The log query tells an empty result from a failure, like the
    transfer queries: when the API reports "No records found" or "No
    transactions found" it returns the empty list and prints nothing,
    and on a failure it returns [None] and prints one line.  In every
    state that the loop reaches on page-sized windows, a failed log query
    and a successful one with no record both leave the Seen Set and the
    block cursor of the protocol channel unchanged, the first with a log
    line and the second with nothing emitted. *)
Theorem empty_log_result_is_not_failure
    address block inputs st out0 first ans :
  Forall page_sized inputs ->
  rounds address true inputs (initial_state true block) = Ok (st, out0) ->
  (forall data,
      logs_answer ans = JsonBody data ->
      status_is_1 data = false ->
      message_contains "No records found" (default (JStr "") (data !! "message"))
      || message_contains "No transactions found"
           (default (JStr "") (data !! "message")) = true ->
      fetch_aave_supply_logs (logs_answer ans) = (Some (JList []), []))
  /\ match fetch_aave_supply_logs (logs_answer ans) with
     | (None, log) =>
         (exists line, log = [line])
         /\ aave_round first ans (aave_seen st) (aave_from_block st)
            = Ok (aave_seen st, aave_from_block st, Logged <$> log)
     | (Some v, log) =>
         log = []
         /\ (as_records v = Ok [] ->
             aave_round first ans (aave_seen st) (aave_from_block st)
             = Ok (aave_seen st, aave_from_block st, []))
     end.
Proof.
  intros Hp Hrun.
  pose proof (rounds_bounded _ _ _ _ _ _ Hp (initial_state_bounded _ _) Hrun)
    as [_ Hb].
  split.
  - intros data -> Hs Hm. by apply fetch_logs_empty.
  - destruct (fetch_aave_supply_logs (logs_answer ans)) as [[v|] log] eqn:Hf.
    + split; [by eapply fetch_logs_quiet|]. intros Hv.
      by eapply aave_round_empty.
    + split; [by eapply fetch_logs_failure|]. by apply aave_round_skipped.
Qed.

Lemma empty_log_result_is_not_failure_witness :
  Forall page_sized [nft_answers sample_window]
  /\ exists st out0,
       rounds sample_address true [nft_answers sample_window]
         (initial_state true None) = Ok (st, out0)
       /\ aave_round false (nft_answers sample_window) (aave_seen st)
            (aave_from_block st)
          = Ok (aave_seen st, aave_from_block st, []).
Proof.
  assert (Hp : Forall page_sized [nft_answers sample_window]).
  { constructor; [|constructor]. apply page_sized_nft_answers. cbn. lia. }
  split; [exact Hp|].
  destruct (rounds_total sample_address true
              [nft_answers sample_window] (initial_state true None))
    as (st & out0 & Hrun).
  { constructor; [|constructor].
    apply well_formed_nft_answers, well_formed_sample_window. }
  exists st, out0. split; [exact Hrun|].
  pose proof (empty_log_result_is_not_failure sample_address None
                [nft_answers sample_window] st out0 false
                (nft_answers sample_window) Hp Hrun) as [_ H].
  change (logs_answer (nft_answers sample_window)) with nothing_found in H.
  rewrite fetch_logs_nothing_found in H. destruct H as [_ H].
  exact (H eq_refl).
Defined.

End EmptyLogs.

(** ** The filter applied twice *)

Section FilterTwice.

Lemma filter_all {A : Type} (f : A -> bool) (l : list A) :
  Forall (fun x => f x = true) l -> List.filter f l = l.
Proof.
  induction 1 as [|x l Hx _ IH]; cbn [List.filter]; [reflexivity|].
  by rewrite Hx, IH.
Qed.

Lemma filter_raising_all {A : Type} (p : A -> result bool) (l : list A) :
  Forall (fun x => p x = Ok true) l -> filter_raising p l = Ok l.
Proof.
  induction 1 as [|x l Hx _ IH]; cbn [filter_raising]; [reflexivity|].
  by rewrite Hx, IH.
Qed.

Lemma eth_condition_true (tx : record) :
  not_failed tx = true -> positive_value tx = true -> eth_condition tx = Ok true.
Proof.
  unfold not_failed, positive_value, eth_condition, PyInt.int.
  intros Hnf Hpos. apply negb_true_iff, bool_decide_eq_false in Hnf.
  rewrite decide_False by done.
  destruct (PyInt.parse10 _) as [v|]; [|discriminate].
  cbn [mbind result_bind]. by rewrite Hpos.
Qed.

Lemma filter_incoming_again transfers address transfer_type incoming :
  filter_incoming transfers address transfer_type = Ok incoming ->
  filter_incoming incoming address transfer_type = Ok incoming.
Proof.
  intros H.
  assert (Hall : forall tx, tx ∈ incoming ->
            addressed_to address tx = true
            /\ (transfer_type = "ETH" ->
                not_failed tx = true /\ positive_value tx = true))
    by (intros tx; by apply filter_incoming_elem with (transfers := transfers)).
  unfold filter_incoming. rewrite filter_all.
  - destruct (decide (transfer_type = "ETH")) as [He|]; [|reflexivity].
    apply filter_raising_all, Forall_forall. intros tx Htx.
    destruct (Hall tx Htx) as [_ Heth]. destruct (Heth He).
    by apply eth_condition_true.
  - apply Forall_forall. intros tx Htx. by destruct (Hall tx Htx).
Qed.

(** X13. [filter_incoming] returns some of the transfers it is given,
    in their order, and filtering its result again changes nothing and
    raises nothing. *)
Theorem filter_incoming_is_idempotent
    transfers address transfer_type incoming :
  filter_incoming transfers address transfer_type = Ok incoming ->
  sublist incoming transfers
  /\ filter_incoming incoming address transfer_type = Ok incoming.
Proof.
  intros H. split; [by eapply filter_incoming_sublist|].
  by eapply filter_incoming_again.
Qed.

Lemma filter_incoming_is_idempotent_witness :
  filter_incoming sample_window sample_address "ETH" = Ok sample_window
  /\ sublist sample_window sample_window.
Proof.
  assert (H : filter_incoming sample_window sample_address "ETH" = Ok sample_window)
    by (vm_cast_no_check (eq_refl (Ok sample_window))).
  split; [exact H|].
  exact (proj1 (filter_incoming_is_idempotent _ _ _ _ H)).
Defined.

End FilterTwice.

(** ** A channel that was not seeded *)

Section Unseeded.

Lemma initial_seen_empty watch_aave block t :
  seen (initial_state watch_aave block) !!! t = (∅ : gset string).
Proof.
  cbn [seen initial_state]. unfold lookup_total, map_lookup_total.
  destruct (_ !! t) as [s|] eqn:Hs; cbn [default]; [|reflexivity].
  apply elem_of_list_to_map_2, list_elem_of_fmap in Hs as (tc & [= _ ->] & _).
  reflexivity.
Qed.

Lemma elem_of_concat {A : Type} (x : A) (l : list A) (ls : list (list A)) :
  x ∈ l -> l ∈ ls -> x ∈ concat ls.
Proof.
  intros Hx Hl. apply list_elem_of_In, in_concat. exists l.
  split; by apply list_elem_of_In.
Qed.

Lemma poll_round_channel address watch_aave ans st st' out t config :
  (t, config) ∈ TRANSFER_TYPES ->
  poll_round address watch_aave ans st = Ok (st', out) ->
  exists o,
    transfer_round address t config (first_run st)
      (transfers_of ans (action config)) (seen st !!! t)
    = Ok (seen st' !!! t, o)
    /\ forall ev, ev ∈ o -> ev ∈ out.
Proof.
  intros Hin H. apply poll_round_inv in H as (outs & out_a & -> & Hall & _).
  apply list_elem_of_lookup in Hin as [i Hi].
  destruct (Forall2_lookup_l _ _ _ _ _ Hall Hi) as (o & Ho & Hround).
  exists o. split; [exact Hround|]. intros ev Hev.
  apply elem_of_app. left.
  eapply elem_of_concat; [exact Hev | by eapply list_elem_of_lookup_2].
Qed.

(** X14. The seeding phase ends with the first round, also for a
    channel whose query failed in that round: its Seen Set is still
    empty, so that the next round whose query succeeds alerts on every
    identifier of its surviving results, transfers that were received
    before the monitor started included. *)
Theorem unseeded_channel_alerts_history
    address watch_aave block ans0 st1 out0 t config log :
  (t, config) ∈ TRANSFER_TYPES ->
  poll_round address watch_aave ans0 (initial_state watch_aave block)
    = Ok (st1, out0) ->
  fetch_transfers (transfers_of ans0 (action config)) (action config) = (None, log) ->
  first_run st1 = false
  /\ seen st1 !!! t = ∅
  /\ forall ans1 st2 out1 v log1 l incoming,
       poll_round address watch_aave ans1 st1 = Ok (st2, out1) ->
       fetch_transfers (transfers_of ans1 (action config)) (action config)
         = (Some v, log1) ->
       as_records v = Ok l ->
       filter_incoming l address t = Ok incoming ->
       forall h, h ∈ ids incoming ->
         exists ev, ev ∈ out1 /\ alerts_on (Transfers t config) h ev.
Proof.
  intros Hin H0 Hf0.
  assert (Hfirst : first_run st1 = false).
  { apply poll_round_inv in H0 as (_ & _ & _ & _ & _ & _ & Hfr). exact Hfr. }
  assert (Hseen : seen st1 !!! t = ∅).
  { destruct (poll_round_channel _ _ _ _ _ _ _ _ Hin H0) as (o & Hround & _).
    rewrite (transfer_round_skipped _ _ _ _ _ _ _ Hf0) in Hround.
    injection Hround as Hs _. rewrite <- Hs.
    exact (initial_seen_empty watch_aave block t). }
  split; [exact Hfirst|]. split; [exact Hseen|].
  intros ans1 st2 out1 v log1 l incoming H1 Hf Hv Hi h Hh.
  destruct (poll_round_channel _ _ _ _ _ _ _ _ Hin H1) as (o & Hround & Hsub).
  rewrite Hfirst, Hseen in Hround.
  apply transfer_round_inv in Hround
    as [(log' & Hf' & _)|(v' & l' & incoming' & Hf' & Hv' & Hi' & _ & _ & Hout)];
    [congruence|].
  rewrite Hf in Hf'. injection Hf' as <- _. rewrite Hv in Hv'.
  injection Hv' as <-. rewrite Hi in Hi'. injection Hi' as <-.
  assert (Hfresh : h ∈ ids (fresh incoming ∅)) by (apply fresh_ids; set_solver).
  unfold ids in Hfresh. apply list_elem_of_omap in Hfresh as (tx & Htx & Hhash).
  apply elem_of_reverse, list_elem_of_lookup in Htx as [i Hi'].
  destruct (Forall2_lookup_l _ _ _ _ _ Hout Hi') as (ev & Hev & printed & _ & ->).
  exists (TransferAlert t tx printed (sound config)). split.
  - apply Hsub. by eapply list_elem_of_lookup_2.
  - cbn [alerts_on]. done.
Qed.

Lemma unseeded_channel_alerts_history_witness :
  exists st1 out0,
    poll_round sample_address false failing_answers (initial_state false None)
      = Ok (st1, out0)
    /\ first_run st1 = false
    /\ seen st1 !!! "NFT" = (∅ : gset string).
Proof.
  destruct (poll_round_total sample_address false failing_answers
              (initial_state false None) well_formed_failing_answers)
    as (st1 & out0 & H).
  exists st1, out0. split; [exact H|].
  destruct (unseeded_channel_alerts_history sample_address false None failing_answers st1 out0
              "NFT" nft_config _ nft_polled H eq_refl) as (H1 & H2 & _).
  split; [exact H1 | exact H2].
Defined.

End Unseeded.

(** ** The channels are independent *)

Section Independent.

Lemma transfer_round_events address t config first resp seen_t seen' out ev :
  transfer_round address t config first resp seen_t = Ok (seen', out) ->
  ev ∈ out -> is_alert ev = true -> alert_of_type t ev.
Proof.
  intros H Hev Ha. apply transfer_round_inv in H
    as [(log & _ & _ & ->)|(v & l & incoming & _ & _ & _ & _ & _ & Hout)].
  - apply list_elem_of_fmap in Hev as (line & -> & _). discriminate.
  - destruct first; [subst; by apply elem_of_nil in Hev|].
    apply list_elem_of_lookup in Hev as [i Hi].
    destruct (Forall2_lookup_r _ _ _ _ _ Hout Hi) as (tx & _ & printed & _ & ->).
    reflexivity.
Qed.

Lemma aave_round_events first ans seen_a from_block seen' from_block' out ev t :
  aave_round first ans seen_a from_block = Ok (seen', from_block', out) ->
  ev ∈ out -> ~ alert_of_type t ev.
Proof.
  intros H Hev. apply aave_round_inv in H
    as [(log & _ & _ & _ & ->)|(v & logs & _ & _ & _ & _ & _ & Hout)].
  - apply list_elem_of_fmap in Hev as (line & -> & _). intros [].
  - destruct first; [subst; by apply elem_of_nil in Hev|].
    apply list_elem_of_lookup in Hev as [i Hi].
    destruct (Forall2_lookup_r _ _ _ _ _ Hout Hi) as (lg & _ & decoded & _ & ->).
    intros [].
Qed.

(** X15. The channels are independent.  For every transfer type, a
    completed round of the loop leaves in the Seen Set of the type what
    the round of that type alone computes, from the answer to the type's
    own query and the type's own Seen Set, and the transfer alerts of the
    type in the output of the round are exactly the alerts of that round:
    the answers and the Seen Sets of the other channels have no part in
    them. *)
Theorem channels_are_independent address watch_aave ans st st' out t config :
  (t, config) ∈ TRANSFER_TYPES ->
  poll_round address watch_aave ans st = Ok (st', out) ->
  exists o,
    transfer_round address t config (first_run st)
      (transfers_of ans (action config)) (seen st !!! t)
    = Ok (seen st' !!! t, o)
    /\ forall ev,
         ev ∈ o /\ is_alert ev = true <-> ev ∈ out /\ alert_of_type t ev.
Proof.
  intros Hin H. pose proof H as Hinv.
  apply poll_round_inv in Hinv as (outs & out_a & Hout & Hall & _ & Ha & _).
  apply list_elem_of_lookup in Hin as [i Hi].
  destruct (Forall2_lookup_l _ _ _ _ _ Hall Hi) as (o & Ho & Hround).
  cbn [fst snd] in Hround. exists o. split; [exact Hround|].
  intros ev. split.
  - intros [Hev Hal]. split.
    + rewrite Hout. apply elem_of_app. left.
      eapply elem_of_concat; [exact Hev | by eapply list_elem_of_lookup_2].
    + by eapply transfer_round_events.
  - intros [Hev Hty]. rewrite Hout in Hev. apply elem_of_app in Hev as [Hev|Hev].
    + apply list_elem_of_In, in_concat in Hev as (o' & Ho' & Hev').
      apply list_elem_of_In in Ho'. apply list_elem_of_In in Hev'.
      apply list_elem_of_lookup in Ho' as [j Hj].
      destruct (Forall2_lookup_r _ _ _ _ _ Hall Hj) as ([t' c'] & Hj' & Hround').
      cbn [fst snd] in Hround'.
      assert (Hal : is_alert ev = true) by (by destruct ev).
      pose proof (transfer_round_events _ _ _ _ _ _ _ _ _ Hround' Hev' Hal) as Hty'.
      assert (t' = t) as ->
        by (destruct ev; unfold alert_of_type in Hty, Hty'; try done; congruence).
      assert (j = i) as ->.
      { eapply NoDup_lookup; [exact TRANSFER_TYPES_NoDup | |];
          rewrite list_lookup_fmap; [by rewrite Hj' | by rewrite Hi]. }
      rewrite Ho in Hj. injection Hj as ->. done.
    + destruct watch_aave.
      * by destruct (aave_round_events _ _ _ _ _ _ _ _ t Ha Hev).
      * destruct Ha as (_ & _ & ->). by apply elem_of_nil in Hev.
Qed.

Lemma channels_are_independent_witness :
  exists st' out o,
    poll_round sample_address false (nft_answers sample_window) seeded_state
      = Ok (st', out)
    /\ transfer_round sample_address "NFT" nft_config (first_run seeded_state)
         (transfers_of (nft_answers sample_window) (action nft_config))
         (seen seeded_state !!! "NFT")
       = Ok (seen st' !!! "NFT", o).
Proof.
  destruct (poll_round_total sample_address false (nft_answers sample_window)
              seeded_state
              (well_formed_nft_answers _ well_formed_sample_window))
    as (st' & out & H).
  exists st', out.
  destruct (channels_are_independent _ _ _ _ _ _ "NFT" nft_config nft_polled H)
    as (o & Ho & _).
  exists o. split; [exact H | exact Ho].
Defined.

End Independent.
